(** * packit: dependency resolution, delivery, extraction and checksums

    A shallow embedding of three packages of the packit buildpack
    toolkit, and the properties of them that its design document states:

    - [postal]   ([postal/service.go]):   [Service.Resolve], [Service.Deliver];
    - [vacation] ([vacation/vacation.go]): [TarArchive.Decompress],
      [TarGzipArchive.Decompress], [TarXZArchive.Decompress],
      [ZipArchive.Decompress];
    - [fs]       ([fs/checksum_calculator.go]): [ChecksumCalculator.Sum],
      [ChecksumCalculator.SumMultiple], and the goroutines and channels
      of [getParallelChecksums].

    Go values are modelled as follows.  A [string] is a Go string, a
    [list byte] a Go [[]byte].  An [error] is identified with its message.
    A function returning [(T, error)] returns a [result T].  Third-party
    packages (Masterminds/semver, the [sort] package, [crypto/sha256]) are
    interfaces (type classes) whose laws are stated as separate classes;
    the operating system is a finite map from paths to nodes. *)

From Stdlib Require Import ZArith.
From Stdlib.Strings Require Import String Ascii Byte.
From stdpp Require Import base tactics option list sorting strings gmap fin_maps.

Local Open Scope string_scope.
Local Open Scope list_scope.
Local Open Scope stdpp_scope.

(** ** Go basics *)

Module gostd.

(** A Go [error], identified with the text of its [Error()] method. *)
Definition error : Type := string.

(** The pair [(T, error)] returned by fallible Go functions. *)
Inductive result (A : Type) : Type :=
| Ok (a : A)
| Err (e : error).
Arguments Ok {A} a.
Arguments Err {A} e.

Definition is_Ok {A} (r : result A) : bool :=
  match r with Ok _ => true | Err _ => false end.

(** [strings.Split(s, sep)] for a one-byte separator.  The result is never
    empty: [Split "" sep] is the one-element slice holding [""]. *)
Fixpoint Split (s : string) (sep : ascii) : list string :=
  match s with
  | EmptyString => [EmptyString]
  | String c s' =>
      if Ascii.eqb c sep then EmptyString :: Split s' sep
      else match Split s' sep with
           | [] => [String c EmptyString]
           | w :: ws => String c w :: ws
           end
  end.

(** [strings.Join(elems, sep)]. *)
Fixpoint Join (elems : list string) (sep : string) : string :=
  match elems with
  | [] => EmptyString
  | [e] => e
  | e :: es => e +:+ sep +:+ Join es sep
  end.


(** [strings.Contains(s, substr)]: some suffix of [s] starts with
    [substr]. *)
Fixpoint Contains (s substr : string) : bool :=
  String.prefix substr s ||
  match s with
  | EmptyString => false
  | String _ s' => Contains s' substr
  end.

(** [re] occurs in [s]: the meaning of an unanchored literal pattern. *)
Definition occurs (re s : string) : Prop :=
  exists before after, s = before +:+ re +:+ after.

(** [regexp.MustCompile(`~>`)]: the pattern is a literal of two bytes, so
    the compiled expression is represented by the literal itself. *)
Definition tildeGreater : string := "~>".

(** [re.MatchString(s)] for a literal pattern: an unanchored search. *)
Definition MatchString (re s : string) : bool := Contains s re.

(** [re.ReplaceAllString(s, "")] for the literal [~>]: one pass from the
    left that deletes every match; the text after a match is scanned
    afresh, the text before it is never rescanned. *)
Fixpoint ReplaceAllString_tildeGreater (s : string) : string :=
  match s with
  | String "~" (String ">" rest) => ReplaceAllString_tildeGreater rest
  | String c rest => String c (ReplaceAllString_tildeGreater rest)
  | EmptyString => EmptyString
  end.

End gostd.
Export gostd.

(** ** Paths *)

Module filepath.

(** A path in cleaned form ([filepath.Clean]): the list of its segments
    below the root directory.  Relative paths are resolved against the
    working directory, which is the root. *)
Abbreviation path := (list string).

(** [filepath.Clean] on the segments of a path: empty segments and [.]
    are dropped, [..] removes the segment before it (and is dropped at
    the root).  [done] holds the cleaned segments so far, last first. *)
Fixpoint cleanOnto (done segments : list string) : path :=
  match segments with
  | [] => rev done
  | segment :: rest =>
      if String.eqb segment "" || String.eqb segment "."
      then cleanOnto done rest
      else if String.eqb segment ".."
      then cleanOnto (tail done) rest
      else cleanOnto (segment :: done) rest
  end.

(** [filepath.Join(elem...)]: the elements joined by the separator and
    cleaned. *)
Definition Join (elem : list string) : path :=
  cleanOnto [] (concat (map (fun e => Split e "/") elem)).

(** [filepath.Dir(path)]: all but the last segment. *)
Definition Dir (p : path) : path := removelast p.

(** The string of a cleaned path. *)
Definition text (p : path) : string := "/" +:+ gostd.Join p "/".

End filepath.

(** ** Third-party interfaces *)

(** [strconv.Quote], which the [%q] verb of [fmt] applies to a string: the
    text between double quotes, with the quote, the backslash and every
    non-printable rune escaped.  Its table of printable runes is the
    Unicode one, so it is an interface here. *)
Class Quoting := { Quote : string -> string }.

Module semver.

(** The part of [github.com/Masterminds/semver/v3] the resolver calls. *)
Class Lib := {
  Version : Type;
  Constraints : Type;
  NewVersion : string -> result Version;
  NewConstraint : string -> result Constraints;
  Check : Constraints -> Version -> bool;
  GreaterThan : Version -> Version -> bool;
}.

(** [semver.MustParse]: [NewVersion], with a panic ([None]) for an error. *)
Definition MustParse `{Lib} (v : string) : option Version :=
  match NewVersion v with
  | Ok x => Some x
  | Err _ => None
  end.

(** Semantic-version precedence is a strict weak order: versions that
    differ in build metadata only are distinct and incomparable. *)
Class Laws (L : Lib) : Prop := {
  GreaterThan_asym : forall a b : Version,
    GreaterThan a b = true -> GreaterThan b a = false;
  GreaterThan_negtrans : forall a b c : Version,
    GreaterThan a b = false -> GreaterThan b c = false ->
    GreaterThan a c = false;
}.

End semver.

Module sort.

(** [sort.Slice(x, less)].  Go's [less] takes two indices into the slice
    being sorted and reads the elements there; here it takes the two
    elements.  The sorted slice is the result. *)
Class Lib := { Slice : forall {A : Type}, list A -> (A -> A -> bool) -> list A }.

(** What [sort.Slice] asks of [less] on the elements of the slice. *)
Definition StrictWeakOn {A} (less : A -> A -> bool) (l : list A) : Prop :=
  (forall a b, a ∈ l -> b ∈ l -> less a b = true -> less b a = false) /\
  (forall a b c, a ∈ l -> b ∈ l -> c ∈ l ->
     less a b = false -> less b c = false -> less a c = false).

(** The order of a sorted slice: no element is [less] than one before it. *)
Definition notAfter {A} (less : A -> A -> bool) : relation A :=
  fun a b => less b a = false.

(** The contract of [sort.Slice]: a permutation of the input, sorted; the
    order of equal elements is not specified (the sort is not stable). *)
Class Laws (L : Lib) : Prop := {
  Slice_Permutation : forall (A : Type) (l : list A) less, Slice l less ≡ₚ l;
  Slice_Sorted : forall (A : Type) (l : list A) less,
    StrictWeakOn less l -> StronglySorted (notAfter less) (Slice l less);
}.

(** A reference implementation: insertion sort, which keeps equal elements
    in their order. *)
Fixpoint insert {A} (less : A -> A -> bool) (x : A) (l : list A) : list A :=
  match l with
  | [] => [x]
  | y :: l' => if less y x then y :: insert less x l' else x :: l
  end.

Definition insertionSort {A} (l : list A) (less : A -> A -> bool) : list A :=
  foldr (insert less) [] l.

Definition insertion : Lib := {| Slice := @insertionSort |}.

End sort.

(** ** Package postal *)

Module postal.

(** [postal.Dependency]: the fields of a catalog record.  The deprecation
    date is a time in seconds, [0] when absent. *)
Record Dependency := {
  DeprecationDate : Z;
  ID : string;
  SHA256 : string;
  Stacks : list string;
  URI : string;
  Version : string;
}.

(** The catalog parser [parseBuildpack(path, id)]: the records of the
    catalog in file order, and the default version declared for [id]
    ([""] when none is). *)
Class Catalog := {
  parseBuildpack : string -> string -> result (list Dependency * string);
}.

(** Modelled from the spec: [stacksInclude], the helper of this package
    that tells whether the stack set of a record contains the stack. *)
Definition stacksInclude (stacks : list string) (stack : string) : bool :=
  existsb (String.eqb stack) stacks.

Section Resolve.
Context `{Catalog} `{semver.Lib} `{sort.Lib} `{Quoting}.

(** Lines 65-74: the empty version is ["default"], and ["default"] is the
    declared default version, or the wildcard when none is declared. *)
Definition defaulted (version defaultVersion : string) : string :=
  let version := if String.eqb version "" then "default" else version in
  if String.eqb version "default"
  then (if negb (String.eqb defaultVersion "") then defaultVersion else "*")
  else version.

(** Lines 76-89: the pessimistic operator. *)
Definition pessimistic (version : string) : string :=
  let re := tildeGreater in
  if MatchString re version then
    let res := ReplaceAllString_tildeGreater version in
    let parts := Split res "." in
    if Nat.eqb (length parts) 3 then "~" +:+ res else "^" +:+ res
  else version.

(** Lines 98-113: the loop over the catalog, with its early return. *)
Fixpoint collect (versionConstraint : semver.Constraints) (id stack : string)
    (dependencies : list Dependency)
    (compatibleVersions : list Dependency) (supportedVersions : list string)
    : result (list Dependency * list string) :=
  match dependencies with
  | [] => Ok (compatibleVersions, supportedVersions)
  | dependency :: rest =>
      if negb (String.eqb (ID dependency) id)
         || negb (stacksInclude (Stacks dependency) stack)
      then collect versionConstraint id stack rest
             compatibleVersions supportedVersions
      else
        match semver.NewVersion (Version dependency) with
        | Err err => Err err
        | Ok sVersion =>
            let compatibleVersions :=
              if semver.Check versionConstraint sVersion
              then compatibleVersions ++ [dependency]
              else compatibleVersions in
            collect versionConstraint id stack rest
              compatibleVersions (supportedVersions ++ [Version dependency])
        end
  end.

(** The records the loop does not skip: the identifier is [id] and the
    stacks hold [stack]. *)
Definition selected (id stack : string) (d : Dependency) : bool :=
  String.eqb (ID d) id && stacksInclude (Stacks d) stack.

(** The records the loop appends to [compatibleVersions]: the version
    parses and meets the constraint. *)
Definition compatible (c : semver.Constraints) (d : Dependency) : bool :=
  match semver.NewVersion (Version d) with
  | Ok v => semver.Check c v
  | Err _ => false
  end.

(** Lines 124-128: the comparison given to [sort.Slice].  [MustParse]
    panics on a version that does not parse; the comparison is [false]
    there, and [collect] lets no such record into the slice. *)
Definition newerThan (a b : Dependency) : bool :=
  match semver.MustParse (Version a), semver.MustParse (Version b) with
  | Some iVersion, Some jVersion => semver.GreaterThan iVersion jVersion
  | _, _ => false
  end.

(** Lines 116-121: the text of the error for no compatible version. *)
Definition noCompatibleVersions (id version : string)
    (supportedVersions : list string) : error :=
  "failed to satisfy " +:+ Quote id +:+
  " dependency version constraint " +:+ Quote version +:+
  ": no compatible versions. Supported versions are: [" +:+
  Join supportedVersions ", " +:+ "]".

(** [Service.Resolve].  Indexing an empty slice panics; the panic is
    rendered as an error, and is never reached. *)
Definition Resolve (path id version stack : string) : result Dependency :=
  match parseBuildpack path id with
  | Err err => Err err
  | Ok (dependencies, defaultVersion) =>
      let version := defaulted version defaultVersion in
      let version := pessimistic version in
      match semver.NewConstraint version with
      | Err err => Err err
      | Ok versionConstraint =>
          match collect versionConstraint id stack dependencies [] [] with
          | Err err => Err err
          | Ok (compatibleVersions, supportedVersions) =>
              if Nat.eqb (length compatibleVersions) 0
              then Err (noCompatibleVersions id version supportedVersions)
              else
                match sort.Slice compatibleVersions newerThan with
                | first :: _ => Ok first
                | [] => Err "panic: runtime error: index out of range"
                end
          end
      end
  end.

End Resolve.

(** [Transport]: fetches a dependency given a location. *)
Class Transport := {
  ReadCloser : Type;
  Drop : string -> string -> result ReadCloser;
}.

(** [MappingResolver]: looks a dependency mapping up in the bindings. *)
Class MappingResolver := {
  FindDependencyMapping : string -> string -> result string;
}.

(** Modelled from the spec: [cargo.ValidatedReader], of the package
    [cargo]: the stream together with the digest it is expected to have;
    [cargo.NewValidatedReader] builds it. *)
Record ValidatedReader `{Transport} := NewValidatedReader {
  reader : ReadCloser;
  checksum : string;
}.
Arguments NewValidatedReader {_} reader checksum.

(** What [Deliver] does with the validated reader: [Decompress] of the
    archive made of it by [vacation.NewArchive], and the validity check
    of the reader that follows. *)
Class Extraction `{Transport} := {
  Decompress : ValidatedReader -> string -> option error;
  Valid : ValidatedReader -> result bool;
}.

(** A [Service] is a transport and a mapping resolver: the two instances
    of the context. *)
Section Deliver.
Context `{transport : Transport} `{mappingResolver : MappingResolver}.
Context `{!Extraction}.

(** The calls [Deliver] makes on its collaborators, with their
    arguments. *)
Inductive call : Type :=
| CallFindDependencyMapping (sha256 bindingPath : string)
| CallDrop (root uri : string)
| CallDecompress (r : ValidatedReader) (destination : string)
| CallValid (r : ValidatedReader)
| CallClose (bundle : ReadCloser).

(** A computation that records the calls it makes. *)
Definition M (A : Type) : Type := list call -> A * list call.

Definition ret {A} (a : A) : M A := fun log => (a, log).

Definition bind {A B} (m : M A) (k : A -> M B) : M B :=
  fun log => let (a, log') := m log in k a log'.

(** A call on a collaborator: it is recorded, and its result returned. *)
Definition invoke {A} (c : call) (r : A) : M A := fun log => (r, log ++ [c]).

(** [defer c]: the call [c] is made when the body returns. *)
Definition defer {A} (c : call) (body : M A) : M A :=
  bind body (fun a => invoke c a).

Notation "x <- m ;; k" := (bind m (fun x => k))
  (at level 100, m at next level, right associativity).

(** [Service.Deliver]. *)
Definition Deliver (dependency : Dependency)
    (cnbPath layerPath platformPath : string) : M (option error) :=
  let bindings := filepath.text (filepath.Join [platformPath; "bindings"]) in
  found <- invoke (CallFindDependencyMapping (SHA256 dependency) bindings)
             (FindDependencyMapping (SHA256 dependency) bindings) ;;
  match found with
  | Err _ => ret (Some "failure checking out the bindings")
  | Ok dependencyMappingURI =>
      let dependency :=
        if negb (String.eqb dependencyMappingURI "")
        then {| DeprecationDate := DeprecationDate dependency;
                ID := ID dependency;
                SHA256 := SHA256 dependency;
                Stacks := Stacks dependency;
                URI := dependencyMappingURI;
                Version := Version dependency |}
        else dependency in
      dropped <- invoke (CallDrop cnbPath (URI dependency))
                   (Drop cnbPath (URI dependency)) ;;
      match dropped with
      | Err err => ret (Some ("failed to fetch dependency: " +:+ err))
      | Ok bundle =>
          defer (CallClose bundle)
            (let validatedReader :=
               NewValidatedReader bundle (SHA256 dependency) in
             err <- invoke (CallDecompress validatedReader layerPath)
                      (Decompress validatedReader layerPath) ;;
             match err with
             | Some err => ret (Some err)
             | None =>
                 checked <- invoke (CallValid validatedReader)
                              (Valid validatedReader) ;;
                 match checked with
                 | Err err =>
                     ret (Some ("failed to validate dependency: " +:+ err))
                 | Ok ok =>
                     if negb ok
                     then ret (Some "checksum does not match: %!s(<nil>)")
                     else ret None
                 end
             end)
      end
  end.

(** [Service.Install]: [Deliver] with the platform path [/platform]. *)
Definition Install (dependency : Dependency) (cnbPath layerPath : string)
    : M (option error) :=
  Deliver dependency cnbPath layerPath "/platform".

(** The location [Deliver] fetches from: the one the bindings give,
    unless it is empty. *)
Definition location (dependency : Dependency) (platformPath : string)
    : result string :=
  match FindDependencyMapping (SHA256 dependency)
          (filepath.text (filepath.Join [platformPath; "bindings"])) with
  | Ok uri => Ok (if negb (String.eqb uri "") then uri else URI dependency)
  | Err err => Err err
  end.

(** Running a computation from the empty record of calls. *)
Definition run {A} (m : M A) : A * list call := m [].

End Deliver.

End postal.

(** ** The operating system *)

Module os.
Import filepath.

(** The bits of [fs.FileMode]. *)
Definition ModeDir : Z := Z.shiftl 1 31.
Definition ModeSymlink : Z := Z.shiftl 1 27.
Definition ModeDevice : Z := Z.shiftl 1 26.
Definition ModeNamedPipe : Z := Z.shiftl 1 25.
Definition ModeSocket : Z := Z.shiftl 1 24.
Definition ModeSetuid : Z := Z.shiftl 1 23.
Definition ModeSetgid : Z := Z.shiftl 1 22.
Definition ModeCharDevice : Z := Z.shiftl 1 21.
Definition ModeSticky : Z := Z.shiftl 1 20.
Definition ModeIrregular : Z := Z.shiftl 1 19.
Definition ModeType : Z :=
  Z.lor ModeDir (Z.lor ModeSymlink (Z.lor ModeNamedPipe (Z.lor ModeSocket
    (Z.lor ModeDevice (Z.lor ModeCharDevice ModeIrregular))))).
(** [os.ModePerm], octal 0777. *)
Definition ModePerm : Z := 0x1ff.

(** [FileMode.IsDir], [FileMode.IsRegular] and [FileMode.Perm]. *)
Definition IsDir (m : Z) : bool := negb (Z.eqb (Z.land m ModeDir) 0).
Definition IsRegular (m : Z) : bool := Z.eqb (Z.land m ModeType) 0.
Definition Perm (m : Z) : Z := Z.land m ModePerm.

(** [syscallMode]: the permission and the set-id and sticky bits of a
    [FileMode], in the encoding of the system call. *)
Definition syscallMode (i : Z) : Z :=
  let o := Perm i in
  let o := if negb (Z.eqb (Z.land i ModeSetuid) 0) then Z.lor o 0x800 else o in
  let o := if negb (Z.eqb (Z.land i ModeSetgid) 0) then Z.lor o 0x400 else o in
  if negb (Z.eqb (Z.land i ModeSticky) 0) then Z.lor o 0x200 else o.

(** A node of the file tree, with its mode bits as the system holds
    them. *)
Inductive node : Type :=
| Directory (mode : Z)
| Regular (mode : Z) (content : list byte)
| Link (target : string).

(** The file tree: the nodes below the root directory, by cleaned path.
    The root itself always exists.  The model checks the structure of the
    tree and no permission; symbolic links are recorded and never
    followed.  It is the model of the calls whose path meets no link:
    where Go follows a link ([os.Stat], [os.OpenFile] and [os.MkdirAll]
    do, on every segment of the path), the calls below see a node that is
    no directory and no file.  The properties that depend on it are
    stated for trees and archives in which no link is on the way. *)
Abbreviation filesystem := (gmap path node).

(** The file-mode creation mask of the process. *)
Class Process := { umask : Z }.

(** The mode of a created node: the requested bits the mask leaves. *)
Definition created `{Process} (perm : Z) : Z := Z.ldiff (syscallMode perm) umask.

(** The [FileMode] of a node: the bit for its type and its permission
    bits. *)
Definition modeOf (n : node) : Z :=
  match n with
  | Directory m => Z.lor ModeDir (Perm m)
  | Regular m _ => Perm m
  | Link _ => Z.lor ModeSymlink ModePerm
  end.

(** [os.Lstat], and [os.Stat] as far as links are not followed. *)
Definition Stat (fs : filesystem) (p : path) : result Z :=
  match p with
  | [] => Ok (Z.lor ModeDir 0x1ed)
  | _ =>
      match fs !! p with
      | Some n => Ok (modeOf n)
      | None => Err ("stat " +:+ text p +:+ ": no such file or directory")
      end
  end.

Definition isDirectory (fs : filesystem) (p : path) : bool :=
  match Stat fs p with
  | Ok m => IsDir m
  | Err _ => false
  end.

Definition exists_ (fs : filesystem) (p : path) : bool := is_Ok (Stat fs p).

(** The error of an operation on [p] when the node above [p] is no
    directory: [ENOTDIR] when some node on the way to [p] is there and is
    no directory, [ENOENT] when the way ends before [p]. *)
Definition parentError (fs : filesystem) (op : string) (p : path) : error :=
  if existsb
       (fun n => exists_ fs (take n (Dir p)) &&
                 negb (isDirectory fs (take n (Dir p))))
       (seq 0 (S (length (Dir p))))
  then op +:+ " " +:+ text p +:+ ": not a directory"
  else op +:+ " " +:+ text p +:+ ": no such file or directory".

(** [os.Mkdir]. *)
Definition Mkdir `{Process} (fs : filesystem) (p : path) (perm : Z)
    : filesystem * option error :=
  if exists_ fs p then (fs, Some ("mkdir " +:+ text p +:+ ": file exists"))
  else if negb (isDirectory fs (Dir p)) then (fs, Some (parentError fs "mkdir" p))
  else (<[p := Directory (created perm)]> fs, None).

(** [os.MkdirAll], by recursion on the path, innermost segment first. *)
Fixpoint mkdirAll `{Process} (fs : filesystem) (reversed : list string)
    (perm : Z) : filesystem * option error :=
  let p := rev reversed in
  match Stat fs p with
  | Ok dir =>
      if IsDir dir then (fs, None)
      else (fs, Some ("mkdir " +:+ text p +:+ ": not a directory"))
  | Err _ =>
      match reversed with
      | [] => (fs, None)
      | _ :: parent =>
          match mkdirAll fs parent perm with
          | (fs, Some err) => (fs, Some err)
          | (fs, None) =>
              match Mkdir fs p perm with
              | (fs, Some err) =>
                  if isDirectory fs p then (fs, None) else (fs, Some err)
              | (fs, None) => (fs, None)
              end
          end
      end
  end.

Definition MkdirAll `{Process} (fs : filesystem) (p : path) (perm : Z)
    : filesystem * option error :=
  mkdirAll fs (rev p) perm.

(** [os.OpenFile(name, flag|os.O_CREATE|os.O_TRUNC, perm)]: the file is
    created when absent and emptied when present.  A link at [name] is
    not followed: the call fails there, where Go opens the file the link
    points to. *)
Definition OpenFile `{Process} (fs : filesystem) (p : path) (perm : Z)
    : filesystem * option error :=
  if negb (isDirectory fs (Dir p)) then (fs, Some (parentError fs "open" p))
  else
    match Stat fs p, fs !! p with
    | Err _, _ => (<[p := Regular (created perm) []]> fs, None)
    | Ok _, Some (Regular m _) => (<[p := Regular m []]> fs, None)
    | Ok _, Some (Link _) =>
        (fs, Some ("open " +:+ text p +:+ ": too many levels of symbolic links"))
    | Ok _, _ => (fs, Some ("open " +:+ text p +:+ ": is a directory"))
    end.

(** [File.Write] on the file opened at [p]: the bytes are appended. *)
Definition Write (fs : filesystem) (p : path) (b : list byte) : filesystem :=
  match fs !! p with
  | Some (Regular m c) => <[p := Regular m (c ++ b)]> fs
  | _ => fs
  end.

(** [os.Symlink(oldname, newname)]. *)
Definition Symlink (fs : filesystem) (oldname : string) (newname : path)
    : filesystem * option error :=
  let op := "symlink " +:+ oldname in
  if String.eqb oldname ""
  then (fs, Some (op +:+ " " +:+ text newname +:+ ": no such file or directory"))
  else if exists_ fs newname
  then (fs, Some (op +:+ " " +:+ text newname +:+ ": file exists"))
  else if negb (isDirectory fs (Dir newname))
  then (fs, Some (parentError fs op newname))
  else (<[newname := Link oldname]> fs, None).

(** [os.Open] and reading the file to its end. *)
Definition ReadFile (fs : filesystem) (p : path) : result (list byte) :=
  match Stat fs p, fs !! p with
  | Err _, _ => Err ("open " +:+ text p +:+ ": no such file or directory")
  | Ok _, Some (Regular _ c) => Ok c
  | Ok _, Some (Link _) =>
      Err ("open " +:+ text p +:+ ": too many levels of symbolic links")
  | Ok _, _ => Err ("read " +:+ text p +:+ ": is a directory")
  end.

(** [os.RemoveAll]: the node and all below it. *)
Definition RemoveAll (fs : filesystem) (p : path) : filesystem * option error :=
  (filter (fun kn : path * node => ¬ p `prefix_of` kn.1) fs, None).

(** How a tree may change under extraction: a directory stays as it is,
    a file keeps its mode, a link stays; where there was nothing, there
    is nothing, a file, a link, or a directory with the mode [MkdirAll]
    is asked for, [os.ModePerm], less the mask. *)
Definition grows `{Process} (fs fs' : filesystem) : Prop :=
  forall p,
    match fs !! p with
    | Some (Directory m) => fs' !! p = Some (Directory m)
    | Some (Regular m c) => exists c', fs' !! p = Some (Regular m c')
    | Some (Link t) => fs' !! p = Some (Link t)
    | None =>
        match fs' !! p with
        | Some (Directory m) => m = created ModePerm
        | _ => True
        end
    end.

(** A tree as a file system holds it: every node is in a directory. *)
Definition rooted (fs : filesystem) : Prop :=
  forall p, is_Some (fs !! p) -> isDirectory fs (Dir p) = true.

(** The way to [p] is clear: what there is on it is a directory. *)
Definition clear (fs : filesystem) (p : path) : Prop :=
  forall q, q `prefix_of` p -> exists_ fs q = true -> isDirectory fs q = true.

(** The order in which [filepath.Walk] visits: a directory before its
    entries, the entries by name. *)
Fixpoint lexical (p q : path) : bool :=
  match p, q with
  | [], _ => true
  | _ :: _, [] => false
  | a :: p', b :: q' => if String.eqb a b then lexical p' q' else String.leb a b
  end.

(** The nodes [filepath.Walk] visits from [root], in its order. *)
Definition visits (fs : filesystem) (root : path) : list (path * Z) :=
  let below :=
    filter (fun kn : path * node => root `prefix_of` kn.1 ∧ kn.1 ≠ root) fs in
  match Stat fs root with
  | Err _ => []
  | Ok m =>
      (root, m) ::
      map (fun kn : path * node => (kn.1, modeOf kn.2))
        (merge_sort (fun a b : path * node => lexical a.1 b.1) (map_to_list below))
  end.

(** [filepath.Walk(root, fn)].  The function [fn] is given the state it
    closes over, the path, the mode of the node and the error of the
    visit, and returns the new state and its error, which ends the walk. *)
Fixpoint walkOver {St : Type}
    (fn : St -> path -> Z -> option error -> St * option error)
    (todo : list (path * Z)) (s : St) : St * option error :=
  match todo with
  | [] => (s, None)
  | (p, m) :: rest =>
      match fn s p m None with
      | (s, Some err) => (s, Some err)
      | (s, None) => walkOver fn rest s
      end
  end.

Definition Walk {St : Type} (fs : filesystem) (root : path)
    (fn : St -> path -> Z -> option error -> St * option error) (s : St)
    : St * option error :=
  match Stat fs root with
  | Err err => fn s root 0%Z (Some err)
  | Ok _ => walkOver fn (visits fs root) s
  end.

End os.

(** ** Package vacation *)

Module vacation.
Import filepath os.

(** [tar.Header], as far as the walker reads it.  [Mode] is the 64-bit
    mode field of the archive. *)
Record Header := {
  Name : string;
  Typeflag : ascii;
  Mode : Z;
  Linkname : string;
}.

(** The type flags of [archive/tar] the walker tells apart. *)
Definition TypeReg : ascii := "0"%char.
Definition TypeSymlink : ascii := "2"%char.
Definition TypeDir : ascii := "5"%char.

(** [hdr.FileInfo().Mode()]: the permission bits of the header and its
    set-id and sticky bits.  The bits for the type of the entry, which
    [os.OpenFile] does not read, are left out. *)
Definition headerMode (hdr : Header) : Z :=
  let mode := Perm (Mode hdr) in
  let mode :=
    if negb (Z.eqb (Z.land (Mode hdr) 0x800) 0) then Z.lor mode ModeSetuid else mode in
  let mode :=
    if negb (Z.eqb (Z.land (Mode hdr) 0x400) 0) then Z.lor mode ModeSetgid else mode in
  if negb (Z.eqb (Z.land (Mode hdr) 0x200) 0) then Z.lor mode ModeSticky else mode.

(** What [tar.Reader] yields: [Next] returns [io.EOF], another error, or
    a header; the content of the entry is then read up to its end or up
    to an error. *)
Inductive tarReader : Type :=
| EOF
| Broken (err : error)
| Entry (hdr : Header) (content : list byte) (readErr : option error)
    (rest : tarReader).

(** [TarArchive]: the stream and the number of leading segments to
    strip, a Go [int]. *)
Record TarArchive := {
  reader : tarReader;
  components : Z;
}.

Definition NewTarArchive (inputReader : tarReader) : TarArchive :=
  {| reader := inputReader; components := 0 |}.

Definition StripComponents (ta : TarArchive) (components : Z) : TarArchive :=
  {| reader := reader ta; components := components |}.

(** The loop of [TarArchive.Decompress].  Slicing with a negative bound
    panics; the panic is rendered as an error. *)
Fixpoint walk `{Process} (components : Z) (destination : string)
    (tarReader : tarReader) (fs : filesystem) : filesystem * option error :=
  match tarReader with
  | EOF => (fs, None)
  | Broken err => (fs, Some ("failed to read tar response: " +:+ err))
  | Entry hdr content readErr rest =>
      let fileNames := Split (Name hdr) "/" in
      if (Z.of_nat (length fileNames) <=? components)%Z
      then walk components destination rest fs
      else if (components <? 0)%Z
      then (fs, Some "panic: runtime error: slice bounds out of range")
      else
        let path := Join (destination :: drop (Z.to_nat components) fileNames) in
        if Ascii.eqb (Typeflag hdr) TypeDir then
          match MkdirAll fs path ModePerm with
          | (fs, Some err) =>
              (fs, Some ("failed to create archived directory: " +:+ err))
          | (fs, None) => walk components destination rest fs
          end
        else if Ascii.eqb (Typeflag hdr) TypeReg then
          match OpenFile fs path (headerMode hdr) with
          | (fs, Some err) =>
              (fs, Some ("failed to create archived file: " +:+ err))
          | (fs, None) =>
              let fs := Write fs path content in
              match readErr with
              | Some err => (fs, Some err)
              | None => walk components destination rest fs
              end
          end
        else if Ascii.eqb (Typeflag hdr) TypeSymlink then
          match Symlink fs (Linkname hdr) path with
          | (fs, Some err) => (fs, Some ("failed to extract symlink: " +:+ err))
          | (fs, None) => walk components destination rest fs
          end
        else walk components destination rest fs
  end.

(** The headers a reader yields, up to its end or its first error. *)
Fixpoint headers (tarReader : tarReader) : list Header :=
  match tarReader with
  | Entry hdr _ _ rest => hdr :: headers rest
  | _ => []
  end.

(** Where the walker writes the entry of a header: the [path] of its
    loop. *)
Definition target (components : Z) (destination : string) (hdr : Header)
    : path :=
  Join (destination :: drop (Z.to_nat components) (Split (Name hdr) "/")).

(** [TarArchive.Decompress]. *)
Definition Decompress `{Process} (ta : TarArchive) (destination : string)
    (fs : filesystem) : filesystem * option error :=
  walk (components ta) destination (reader ta) fs.

(** A [zip.File]: its name, its [Mode()] (a [FileMode], with the bits for
    directories and links), the error of [Open] if any, and its content,
    read up to its end or up to an error. *)
Record File := {
  FileName : string;
  FileMode : Z;
  openErr : option error;
  content : list byte;
  readErr : option error;
}.

(** What [ZipArchive.Decompress] makes of its stream: copying it to
    memory fails, [zip.NewReader] fails, or the files of the central
    directory are there in its order. *)
Inductive zipReader : Type :=
| Unreadable (err : error)
| NotZip (err : error)
| Files (files : list File).

Record ZipArchive := { zreader : zipReader }.

Definition NewZipArchive (inputReader : zipReader) : ZipArchive :=
  {| zreader := inputReader |}.

(** The loop of [ZipArchive.Decompress]. *)
Fixpoint unzip `{Process} (destination : string) (files : list File)
    (fs : filesystem) : filesystem * option error :=
  match files with
  | [] => (fs, None)
  | f :: rest =>
      let path := Join [destination; FileName f] in
      if IsDir (FileMode f) then
        match MkdirAll fs path ModePerm with
        | (fs, Some err) => (fs, Some ("failed to unzip directory: " +:+ err))
        | (fs, None) => unzip destination rest fs
        end
      else if negb (Z.eqb (Z.land (FileMode f) ModeSymlink) 0) then
        match openErr f, readErr f with
        | Some err, _ => (fs, Some err)
        | None, Some err => (fs, Some err)
        | None, None =>
            match Symlink fs (string_of_list_byte (content f)) path with
            | (fs, Some err) => (fs, Some ("failed to unzip symlink: " +:+ err))
            | (fs, None) => unzip destination rest fs
            end
        end
      else
        match MkdirAll fs (Dir path) ModePerm with
        | (fs, Some err) =>
            (fs, Some ("failed to unzip directory that was part of file path: "
                       +:+ err))
        | (fs, None) =>
            match OpenFile fs path (FileMode f) with
            | (fs, Some err) => (fs, Some ("failed to unzip file: " +:+ err))
            | (fs, None) =>
                match openErr f with
                | Some err => (fs, Some err)
                | None =>
                    let fs := Write fs path (content f) in
                    match readErr f with
                    | Some err => (fs, Some err)
                    | None => unzip destination rest fs
                    end
                end
            end
        end
  end.

(** [ZipArchive.Decompress]. *)
Definition DecompressZip `{Process} (z : ZipArchive) (destination : string)
    (fs : filesystem) : filesystem * option error :=
  match zreader z with
  | Unreadable err => (fs, Some err)
  | NotZip err => (fs, Some ("failed to create zip reader: " +:+ err))
  | Files files => unzip destination files fs
  end.

End vacation.

(** ** Package fs *)

Module fs.
Import filepath os.

(** [crypto/sha256]: the digest of all the bytes written to a hash. *)
Class Hash := { Sum256 : list byte -> list byte }.

(** [hex.EncodeToString]: two lower-case digits for each byte. *)
Definition hexDigit (n : N) : ascii :=
  match String.get (N.to_nat n) "0123456789abcdef" with
  | Some c => c
  | None => "0"%char
  end.

Fixpoint EncodeToString (src : list byte) : string :=
  match src with
  | [] => EmptyString
  | b :: rest =>
      let n := Byte.to_N b in
      String (hexDigit (N.div n 16)) (String (hexDigit (N.modulo n 16))
        (EncodeToString rest))
  end.

(** [calculatedFile]: what a worker sends back for a file. *)
Record calculatedFile := {
  path : filepath.path;
  checksum : list byte;
  err : option error;
}.

(** The order in which the results of the workers arrive on the channel
    of results: it is up to the scheduler, and is some order of the
    results. *)
Class Scheduler := {
  completion : list calculatedFile -> list calculatedFile;
}.

Class Fair (S : Scheduler) : Prop := {
  completion_Permutation : forall l, completion l ≡ₚ l;
}.

(** The scheduler that delivers the results in the order of the queue. *)
Definition inOrder : Scheduler := {| completion := fun l => l |}.

(** The scheduler that delivers them in the opposite order. *)
Definition lastFirst : Scheduler := {| completion := @rev calculatedFile |}.

Section Sum.
Context `{Process} `{Hash} `{sort.Lib} `{Scheduler}.

(** The body of the loop of [fileChecksumer], for one path of the queue:
    the file is opened, copied into a hash and closed. *)
Definition fileChecksumer (fs : filesystem) (p : filepath.path)
    : calculatedFile :=
  match ReadFile fs p with
  | Err e => {| path := p; checksum := []; err := Some e |}
  | Ok bytes => {| path := p; checksum := Sum256 bytes; err := None |}
  end.

(** The comparison of [getParallelChecksums]: paths compared as
    strings. *)
Definition byPath (a b : calculatedFile) : bool :=
  String.ltb (text (path a)) (text (path b)).

(** [getParallelChecksums]: every path of the queue is taken by one of
    the workers, the results are collected as they arrive and sorted. *)
Definition getParallelChecksums (fs : filesystem)
    (filesFromDir : list filepath.path) : list calculatedFile :=
  let checksumResults := completion (map (fileChecksumer fs) filesFromDir) in
  sort.Slice checksumResults byPath.

(** The function [Sum] gives to [filepath.Walk]. *)
Definition regularFiles (filesFromDir : list filepath.path)
    (p : filepath.path) (mode : Z) (err : option error)
    : list filepath.path * option error :=
  match err with
  | Some err => (filesFromDir, Some err)
  | None =>
      if IsRegular mode then (filesFromDir ++ [p], None)
      else (filesFromDir, None)
  end.

(** The last loop of [Sum]: the digests are written to one hash, in the
    order of the slice; the first error ends it. *)
Fixpoint gather (results : list calculatedFile) (hash : list byte)
    : result string :=
  match results with
  | [] => Ok (EncodeToString (Sum256 hash))
  | f :: rest =>
      match err f with
      | Some e => Err ("failed to calculate checksum: " +:+ e)
      | None => gather rest (hash ++ checksum f)
      end
  end.

(** [ChecksumCalculator.Sum]. *)
Definition Sum (fs : filesystem) (p : filepath.path) : result string :=
  match Stat fs p with
  | Err e => Err ("failed to calculate checksum: " +:+ e)
  | Ok info =>
      if negb (IsDir info) then
        match ReadFile fs p with
        | Err e => Err ("failed to calculate checksum: " +:+ e)
        | Ok bytes => Ok (EncodeToString (Sum256 bytes))
        end
      else
        match Walk fs p regularFiles [] with
        | (_, Some e) => Err ("failed to calculate checksum: " +:+ e)
        | (filesFromDir, None) =>
            gather (getParallelChecksums fs filesFromDir) []
        end
  end.

(** The source of [ioutil.TempDir] and [rand.Read]: the name of the
    scratch directory, and what the [i]-th call of [rand.Read] gives,
    sixteen bytes or an error. *)
Class Random := {
  tempName : string;
  Read : nat -> result (list byte);
}.

(** [ioutil.TempDir("", "checksum*")]: a new directory below [/tmp]. *)
Definition TempDir `{Random} (fs : filesystem)
    : filesystem * result filepath.path :=
  let tempDir := ["tmp"; tempName] in
  match Mkdir fs tempDir 0x1c0 with
  | (fs, Some e) => (fs, Err e)
  | (fs, None) => (fs, Ok tempDir)
  end.

(** Modelled from the spec: [Copy], the helper of this package that
    stages a byte-for-byte copy of a file or of a directory with all
    below it. *)
Definition Copy (fs : filesystem) (source destination : filepath.path)
    : filesystem * option error :=
  match Stat fs source with
  | Err e => (fs, Some e)
  | Ok _ =>
      let below :=
        filter (fun kn : filepath.path * node => source `prefix_of` kn.1)
          (map_to_list fs) in
      (foldr (fun (kn : filepath.path * node) fs =>
                <[destination ++ drop (length source) kn.1 := kn.2]> fs)
         fs below, None)
  end.

(** The loop of [SumMultiple] over its paths; [i] counts the calls of
    [rand.Read]. *)
Fixpoint stage `{Random} (fs : filesystem) (tempDir : filepath.path)
    (paths : list filepath.path) (i : nat) : filesystem * option error :=
  match paths with
  | [] => (fs, None)
  | p :: rest =>
      match Read i with
      | Err e => (fs, Some ("failed to generate random filename: " +:+ e))
      | Ok randBytes =>
          match Copy fs p (Join [text tempDir; EncodeToString randBytes]) with
          | (fs, Some e) => (fs, Some ("failed to calculate checksum: " +:+ e))
          | (fs, None) => stage fs tempDir rest (S i)
          end
      end
  end.

(** [ChecksumCalculator.SumMultiple].  The deferred [os.RemoveAll] runs
    on every return after the scratch directory is made; its error, if
    any, is the error returned. *)
Definition SumMultiple `{Random} (fs : filesystem)
    (paths : list filepath.path) : filesystem * result string :=
  match TempDir fs with
  | (fs, Err e) => (fs, Err ("failed to create temp directory: " +:+ e))
  | (fs, Ok tempDir) =>
      let (fs, shasum) :=
        match stage fs tempDir paths 0 with
        | (fs, Some e) => (fs, Err e)
        | (fs, None) => (fs, Sum fs tempDir)
        end in
      match RemoveAll fs tempDir with
      | (fs, Some e) => (fs, Err e)
      | (fs, None) => (fs, shasum)
      end
  end.

End Sum.

End fs.

(** ** Reference instances

    Instances of the interfaces above, on which the resolver, the
    extractor and the checksum engine are run on concrete inputs. *)

Module reference.

(** The double quote and the backslash. *)
Definition dquote : ascii := "034"%char.
Definition backslash : ascii := "092"%char.

(** [strconv.Quote] on printable ASCII text: the quote and the backslash
    are escaped, every other byte is kept. *)
Fixpoint escape (s : string) : string :=
  match s with
  | EmptyString => EmptyString
  | String c rest =>
      if Ascii.eqb c dquote || Ascii.eqb c backslash
      then String backslash (String c (escape rest))
      else String c (escape rest)
  end.

Definition quotePrintable : Quoting :=
  {| Quote := fun s => String dquote (escape s +:+ String dquote EmptyString) |}.

(** Decimal numerals. *)
Fixpoint digits (s : string) (acc : N) : option N :=
  match s with
  | EmptyString => Some acc
  | String c rest =>
      match Ascii.is_nat c with
      | Some d => digits rest (acc * 10 + N.of_nat d)%N
      | None => None
      end
  end.

Definition number (s : string) : option N :=
  match s with
  | EmptyString => None
  | _ => digits s 0%N
  end.

(** Release versions [X.Y.Z]. *)
Definition release : Type := N * N * N.

Definition parseRelease (s : string) : option release :=
  match Split s "." with
  | [x; y; z] =>
      match number x, number y, number z with
      | Some x, Some y, Some z => Some (x, y, z)
      | _, _, _ => None
      end
  | _ => None
  end.

Definition compareRelease (a b : release) : comparison :=
  let '(x1, y1, z1) := a in
  let '(x2, y2, z2) := b in
  match N.compare x1 x2 with
  | Eq => match N.compare y1 y2 with
          | Eq => N.compare z1 z2
          | c => c
          end
  | c => c
  end.

Definition newer (a b : release) : bool :=
  match compareRelease a b with Gt => true | _ => false end.

(** Constraints: the wildcard, one version, the patch wildcard [X.Y.*],
    the tilde range [~X.Y.Z] and the caret ranges [^X], [^X.Y] and
    [^X.Y.Z].  A caret range records which of its parts are not given. *)
Inductive range : Type :=
| Any
| Exactly (v : release)
| Tilde (v : release)
| Caret (v : release) (minorDirty patchDirty : bool).

(** Blanks before a version are skipped. *)
Fixpoint trimLeft (s : string) : string :=
  match s with
  | String " " rest => trimLeft rest
  | _ => s
  end.

Definition parseCaret (s : string) : option range :=
  match Split s "." with
  | [x] => x ← number x; Some (Caret (x, 0, 0)%N true true)
  | [x; y] => x ← number x; y ← number y; Some (Caret (x, y, 0%N) false true)
  | [x; y; z] => v ← parseRelease s; Some (Caret v false false)
  | _ => None
  end.

Definition parseRange (s : string) : option range :=
  match s with
  | "*" => Some Any
  | String "~" rest => Tilde <$> parseRelease (trimLeft rest)
  | String "^" rest => parseCaret (trimLeft rest)
  | _ =>
      match Split s "." with
      | [x; y; "*"] | [x; y; "x"] =>
          x ← number x; y ← number y; Some (Tilde (x, y, 0%N))
      | _ => Exactly <$> parseRelease s
      end
  end.

Definition inRange (c : range) (v : release) : bool :=
  match c with
  | Any => true
  | Exactly w => match compareRelease v w with Eq => true | _ => false end
  | Tilde w =>
      negb (newer w v) && N.eqb v.1.1 w.1.1 && N.eqb v.1.2 w.1.2
  | Caret w minorDirty patchDirty =>
      negb (newer w v) &&
      (if N.ltb 0 w.1.1 || minorDirty then N.eqb v.1.1 w.1.1
       else if N.ltb 0 v.1.1 then false
       else if N.ltb 0 w.1.2 || patchDirty then N.eqb v.1.2 w.1.2
       else N.eqb v.2 w.2)
  end.

Definition releases : semver.Lib := {|
  semver.Version := release;
  semver.Constraints := range;
  semver.NewVersion s :=
    match parseRelease s with
    | Some v => Ok v
    | None => Err "Invalid Semantic Version"
    end;
  semver.NewConstraint s :=
    match parseRange s with
    | Some c => Ok c
    | None => Err ("improper constraint: " +:+ s)
    end;
  semver.Check := inRange;
  semver.GreaterThan := newer;
|}.

(** A catalog file that holds the given records and default version. *)
Definition catalog (dependencies : list postal.Dependency)
    (defaultVersion : string) : postal.Catalog :=
  {| postal.parseBuildpack := fun _ _ => Ok (dependencies, defaultVersion) |}.

(** A record with the fields the resolver reads. *)
Definition record (id version : string) (stacks : list string)
    : postal.Dependency :=
  {| postal.DeprecationDate := 0;
     postal.ID := id;
     postal.SHA256 := "some-sha";
     postal.Stacks := stacks;
     postal.URI := "some-uri";
     postal.Version := version |}.

(** The catalog of the tests of the service. *)
Definition testCatalog : list postal.Dependency :=
  [ record "some-entry" "1.2.3" ["some-stack"];
    record "some-other-entry" "1.2.4" ["some-stack"];
    record "some-entry" "1.2.5" ["other-stack"];
    record "some-random-entry" "1.3.0" ["other-random-stack"];
    record "some-random-other-entry" "2.0.0" ["some-other-random-stack"];
    record "some-entry" "4.5.6" ["some-stack"] ].

(** The message the design document states for no compatible version:
    the identifier and the requested constraint between double quotes. *)
Definition statedMessage (id requested : string) (versions : list string)
    : string :=
  "failed to satisfy " +:+ String dquote id +:+ String dquote
  " dependency version constraint " +:+ String dquote requested +:+
  String dquote ": no compatible versions. Supported versions are: [" +:+
  Join versions ", " +:+ "]".

(** A catalog with a record that does not parse beside one that does. *)
Definition mixedCatalog : list postal.Dependency :=
  [ record "some-entry" "1.2.3" ["some-stack"];
    record "some-entry" "this is super not semver" ["some-stack"] ].

(** [Resolve] on the reference instances. *)
Definition Resolve (dependencies : list postal.Dependency)
    (defaultVersion id version stack : string) : result postal.Dependency :=
  @postal.Resolve (catalog dependencies defaultVersion) releases
    sort.insertion quotePrintable "buildpack.toml" id version stack.

(** Collaborators of [Deliver]: a transport that serves one archive, at
    the location the bindings map the digest [some-sha] to; an archive
    whose [Decompress] and validity check end as given. *)
Definition transport : postal.Transport := {|
  postal.ReadCloser := list byte;
  postal.Drop := fun _ uri =>
    if String.eqb uri "dependency-mapping-entry.tgz"
    then Ok (list_byte_of_string "some-archive")
    else Err "there was an error";
|}.

Definition bindings : postal.MappingResolver := {|
  postal.FindDependencyMapping := fun sha256 _ =>
    if String.eqb sha256 "some-sha" then Ok "dependency-mapping-entry.tgz"
    else Ok "";
|}.

Definition extraction (decompressed : option error) (valid : result bool)
    : @postal.Extraction transport := {|
  postal.Decompress := fun _ _ => decompressed;
  postal.Valid := fun _ => valid;
|}.

(** The dependency of the tests of [Deliver], and its delivery. *)
Definition someEntry : postal.Dependency :=
  {| postal.DeprecationDate := 0;
     postal.ID := "some-entry";
     postal.SHA256 := "some-sha";
     postal.Stacks := ["some-stack"];
     postal.URI := "some-entry.tgz";
     postal.Version := "1.2.3" |}.

Definition delivered (decompressed : option error) (valid : result bool)
    : option error * list (@postal.call transport) :=
  postal.run (@postal.Deliver transport bindings
    (extraction decompressed valid)
    someEntry "some-cnb-path" "/layers/some-entry" "/platform").

Definition someReader : @postal.ValidatedReader transport :=
  @postal.NewValidatedReader transport
    (list_byte_of_string "some-archive") "some-sha".

End reference.

(** ** crypto/sha256

    The SHA-256 digest of FIPS 180-4 on 32-bit words held in [Z], for
    running the checksum engine on concrete files. *)

Module sha256.
Local Open Scope Z_scope.

Definition word (x : Z) : Z := Z.land x 0xffffffff.
Definition add (x y : Z) : Z := word (x + y).
Definition rotr (n x : Z) : Z :=
  Z.lor (Z.shiftr x n) (word (Z.shiftl x (32 - n))).

Definition Ch (x y z : Z) : Z :=
  Z.lxor (Z.land x y) (Z.land (Z.lnot x) z).
Definition Maj (x y z : Z) : Z :=
  Z.lxor (Z.lxor (Z.land x y) (Z.land x z)) (Z.land y z).
Definition bigSigma0 (x : Z) : Z :=
  Z.lxor (Z.lxor (rotr 2 x) (rotr 13 x)) (rotr 22 x).
Definition bigSigma1 (x : Z) : Z :=
  Z.lxor (Z.lxor (rotr 6 x) (rotr 11 x)) (rotr 25 x).
Definition smallSigma0 (x : Z) : Z :=
  Z.lxor (Z.lxor (rotr 7 x) (rotr 18 x)) (Z.shiftr x 3).
Definition smallSigma1 (x : Z) : Z :=
  Z.lxor (Z.lxor (rotr 17 x) (rotr 19 x)) (Z.shiftr x 10).

(** The primes up to 311, the first sixty-four, by trial division. *)
Definition prime (n : Z) : bool :=
  forallb (fun d => negb (n mod d =? 0)) (map Z.of_nat (seq 2 (Z.to_nat n - 2))).

Definition primes : list Z := List.filter prime (map Z.of_nat (seq 2 310)).

(** The integer cube root, bit by bit from the highest. *)
Fixpoint cubeRoot (bits : nat) (n r : Z) : Z :=
  match bits with
  | O => r
  | S b =>
      let r' := Z.lor r (Z.shiftl 1 (Z.of_nat b)) in
      if r' * r' * r' <=? n then cubeRoot b n r' else cubeRoot b n r
  end.

(** The round constants: the first 32 bits of the fractional parts of the
    cube roots of the primes. *)
Definition K : list Z :=
  Eval vm_compute in map (fun p => word (cubeRoot 48 (Z.shiftl p 96) 0)) primes.

(** The initial hash value: the same of the square roots of the first
    eight primes. *)
Definition initial : list Z :=
  Eval vm_compute in map (fun p => word (Z.sqrt (Z.shiftl p 64))) (take 8 primes).

(** The message with its padding: a one bit, zeros, and the length in
    bits on eight bytes. *)
Definition bigEndian (width : nat) (x : Z) : list Z :=
  map (fun i => Z.land (Z.shiftr x (8 * Z.of_nat i)) 0xff) (rev (seq 0 width)).

Definition padded (message : list Z) : list Z :=
  let len := Z.of_nat (length message) in
  let zeros := Z.to_nat ((55 - len) mod 64) in
  message ++ [0x80] ++ replicate zeros 0 ++ bigEndian 8 (8 * len).

(** Big-endian words of a list of bytes. *)
Fixpoint words (bytes : list Z) (n : nat) : list Z :=
  match n, bytes with
  | S n', a :: b :: c :: d :: rest =>
      Z.lor (Z.shiftl a 24) (Z.lor (Z.shiftl b 16) (Z.lor (Z.shiftl c 8) d))
      :: words rest n'
  | _, _ => []
  end.

(** The message schedule, latest word first. *)
Fixpoint schedule (n : nat) (w : list Z) : list Z :=
  match n with
  | O => w
  | S n' =>
      let W i := nth i w 0 in
      schedule n'
        (add (add (smallSigma1 (W 1%nat)) (W 6%nat))
             (add (smallSigma0 (W 14%nat)) (W 15%nat)) :: w)
  end.

Definition state : Type := Z * Z * Z * Z * Z * Z * Z * Z.

Definition round (s : state) (kw : Z * Z) : state :=
  let '(a, b, c, d, e, f, g, h) := s in
  let t1 := add (add (add h (bigSigma1 e)) (add (Ch e f g) kw.1)) kw.2 in
  let t2 := add (bigSigma0 a) (Maj a b c) in
  (add t1 t2, a, b, c, add d t1, e, f, g).

Definition toState (l : list Z) : state :=
  let H i := nth i l 0 in
  (H 0%nat, H 1%nat, H 2%nat, H 3%nat, H 4%nat, H 5%nat, H 6%nat, H 7%nat).

Definition ofState (s : state) : list Z :=
  let '(a, b, c, d, e, f, g, h) := s in [a; b; c; d; e; f; g; h].

Definition block (H : list Z) (m : list Z) : list Z :=
  let w := rev (schedule 48 (rev m)) in
  let s := foldl round (toState H) (zip K w) in
  zip_with add H (ofState s).

(** The blocks of the padded message, sixteen words each. *)
Fixpoint blocks (n : nat) (ws : list Z) (H : list Z) : list Z :=
  match n with
  | O => H
  | S n' =>
      match ws with
      | [] => H
      | _ => blocks n' (drop 16 ws) (block H (take 16 ws))
      end
  end.

Definition byteOf (x : Z) : byte :=
  match Byte.of_N (Z.to_N x) with
  | Some b => b
  | None => Byte.x00
  end.

Definition Sum256 (data : list byte) : list byte :=
  let message := padded (map (fun b => Z.of_N (Byte.to_N b)) data) in
  let ws := words message (length message) in
  map byteOf (concat (map (bigEndian 4) (blocks (length ws) ws initial))).

Definition digest : fs.Hash := {| fs.Sum256 := Sum256 |}.

End sha256.

(** ** A file tree

    A process with the usual mask 022 and a tree with two files in a
    directory, on which the extractor and the checksum engine are run. *)

Module fixture.
Import filepath os.

Definition process : Process := {| umask := 0x12 |}.

Definition A : list byte := list_byte_of_string "A".
Definition B : list byte := list_byte_of_string "B".

Definition tree : filesystem :=
  list_to_map
    [ (["tmp"], Directory 0x1ff);
      (["in"], Directory 0x1ed);
      (["in"; "a"], Regular 0x1a4 A);
      (["in"; "b"], Regular 0x1a4 B) ].

(** Two runs of [SumMultiple] that differ in what [rand.Read] gives:
    sixteen bytes 00 and then sixteen bytes ff, or the other way round. *)
Definition lowThenHigh : fs.Random := {|
  fs.tempName := "checksum123456789";
  fs.Read := fun i =>
    match i with
    | O => Ok (replicate 16 Byte.x00)
    | _ => Ok (replicate 16 Byte.xff)
    end;
|}.

Definition highThenLow : fs.Random := {|
  fs.tempName := "checksum123456789";
  fs.Read := fun i =>
    match i with
    | O => Ok (replicate 16 Byte.xff)
    | _ => Ok (replicate 16 Byte.x00)
    end;
|}.

Definition SumMultiple (random : fs.Random) (paths : list path)
    : result string :=
  (@fs.SumMultiple process sha256.digest sort.insertion fs.inOrder random
     tree paths).2.

(** A process with no mask. *)
Definition unmasked : Process := {| umask := 0 |}.

(** An empty layer directory, the destination of the extractions. *)
Definition layer : filesystem := {[ ["layer"] := Directory 0x1ed ]}.

(** A directory entry that declares the mode 0700, and a file entry below
    a directory that no entry makes: in a tar archive and in a zip
    archive. *)
Definition privateDir : vacation.Header := {|
  vacation.Name := "./some-dir";
  vacation.Typeflag := vacation.TypeDir;
  vacation.Mode := 0x1c0;
  vacation.Linkname := "";
|}.

Definition nestedFile : vacation.Header := {|
  vacation.Name := "a/b/c";
  vacation.Typeflag := vacation.TypeReg;
  vacation.Mode := 0x1a4;
  vacation.Linkname := "";
|}.

Definition tarOfDir : vacation.TarArchive :=
  vacation.NewTarArchive (vacation.Entry privateDir [] None vacation.EOF).

Definition tarOfFile : vacation.tarReader :=
  vacation.Entry nestedFile A None vacation.EOF.

Definition zippedDir : vacation.File := {|
  vacation.FileName := "some-dir/";
  vacation.FileMode := Z.lor ModeDir 0x1c0;
  vacation.openErr := None;
  vacation.content := [];
  vacation.readErr := None;
|}.

Definition zippedFile : vacation.File := {|
  vacation.FileName := "a/b/c";
  vacation.FileMode := 0x1a4;
  vacation.openErr := None;
  vacation.content := A;
  vacation.readErr := None;
|}.

(** The archive of the tests of the service: a directory, a file in it,
    three files and a link to the first of them. *)
Definition entry (name : string) (typeflag : ascii) (linkname : string)
    (rest : vacation.tarReader) : vacation.tarReader :=
  vacation.Entry
    {| vacation.Name := name;
       vacation.Typeflag := typeflag;
       vacation.Mode := 0x1ed;
       vacation.Linkname := linkname |}
    (if Ascii.eqb typeflag vacation.TypeReg then list_byte_of_string name
     else [])
    None rest.

Definition testArchive : vacation.tarReader :=
  entry "./some-dir" vacation.TypeDir ""
    (entry "./some-dir/some-file" vacation.TypeReg ""
       (entry "./first" vacation.TypeReg ""
          (entry "./second" vacation.TypeReg ""
             (entry "./third" vacation.TypeReg ""
                (entry "./symlink" vacation.TypeSymlink "./first"
                   vacation.EOF))))).

End fixture.

(** ** The reading of ranges

    What [github.com/Masterminds/semver/v3] makes of the two constraints
    the resolver writes for the pessimistic operator, a tilde or a caret
    before a version that may lack its last segments.  The library is
    not part of the toolkit: its reading is a contract, as the laws of
    precedence are. *)

Module ranges.

(** The blanks the parser of constraints skips before the version. *)
Fixpoint TrimLeft (s : string) : string :=
  match s with
  | String " " rest => TrimLeft rest
  | _ => s
  end.

(** A version with the segments it lacks: [X.Y] stands for [X.Y.0] and
    [X] for [X.0.0]. *)
Definition completed (s : string) : string :=
  match length (Split s ".") with
  | 1 => s +:+ ".0.0"
  | 2 => s +:+ ".0"
  | _ => s
  end.

(** The order of releases [X.Y.Z]: by major, then minor, then patch. *)
Definition precedes (a b : N * N * N) : bool :=
  N.ltb a.1.1 b.1.1 ||
  N.eqb a.1.1 b.1.1 &&
    (N.ltb a.1.2 b.1.2 || N.eqb a.1.2 b.1.2 && N.ltb a.2 b.2).

(** The range [>= from, < to]. *)
Definition within (from to v : N * N * N) : bool :=
  negb (precedes v from) && precedes v to.

(** The methods [Major], [Minor], [Patch] and [Prerelease] of a version,
    and the reading of the constraints [~X.Y.Z], [^X.Y] and [^X] on
    versions that are no pre-releases: [~X.Y.Z] is the range
    [>= X.Y.Z, < X.(Y+1).0]; for a major version above zero, [^X.Y] is
    [>= X.Y.0, < (X+1).0.0] and [^X] is [>= X.0.0, < (X+1).0.0].  (With
    the major version zero the caret is read in another way, which is
    not stated here.) *)
Class Reading (L : semver.Lib) := {
  Major : semver.Version -> N;
  Minor : semver.Version -> N;
  Patch : semver.Version -> N;
  Prerelease : semver.Version -> string;
  tilde_range : forall (s : string) (base : semver.Version),
    length (Split s ".") = 3 ->
    semver.NewVersion (TrimLeft s) = Ok base ->
    Prerelease base = "" ->
    exists c,
      semver.NewConstraint ("~" +:+ s) = Ok c /\
      forall v, Prerelease v = "" ->
        semver.Check c v =
        within (Major base, Minor base, Patch base)
          (Major base, Minor base + 1, 0)%N (Major v, Minor v, Patch v);
  caret_range : forall (s : string) (base : semver.Version),
    length (Split s ".") < 3 ->
    semver.NewVersion (completed (TrimLeft s)) = Ok base ->
    Prerelease base = "" ->
    (0 < Major base)%N ->
    exists c,
      semver.NewConstraint ("^" +:+ s) = Ok c /\
      forall v, Prerelease v = "" ->
        semver.Check c v =
        within (Major base, Minor base, Patch base)
          (Major base + 1, 0, 0)%N (Major v, Minor v, Patch v);
}.

(** The release of a version: its three numbers. *)
Definition number `{Reading} (v : semver.Version) : N * N * N :=
  (Major v, Minor v, Patch v).

End ranges.

(** ** More collaborators and inputs

    Bindings that fail, a dependency that is not mapped, a shelf of
    catalogs and two small trees. *)

Module scenario.

(** Bindings that cannot be read. *)
Definition lostBindings : postal.MappingResolver := {|
  postal.FindDependencyMapping := fun _ _ => Err "some-error";
|}.

(** A dependency the bindings do not map: it is fetched from its own
    location, which the transport of the tests does not serve. *)
Definition unmapped : postal.Dependency :=
  {| postal.DeprecationDate := 0;
     postal.ID := "some-entry";
     postal.SHA256 := "other-sha";
     postal.Stacks := ["some-stack"];
     postal.URI := "some-entry.tgz";
     postal.Version := "1.2.3" |}.

(** A shelf of catalog files: the catalog of the tests, the same records
    in the opposite order, and the two records of the tests for
    [some-entry] and [some-stack] around a record of another identifier
    whose version does not parse. *)
Definition otherRecords : list postal.Dependency :=
  [ reference.record "some-entry" "1.2.3" ["some-stack"];
    reference.record "some-other-entry" "this is super not semver"
      ["some-stack"];
    reference.record "some-entry" "4.5.6" ["some-stack"] ].

Definition shelf : postal.Catalog := {|
  postal.parseBuildpack := fun path _ =>
    if String.eqb path "reversed/buildpack.toml"
    then Ok (rev reference.testCatalog, "1.2.x")
    else if String.eqb path "other/buildpack.toml"
    then Ok (otherRecords, "1.2.x")
    else Ok (reference.testCatalog, "1.2.x");
|}.

(** [Resolve] on the shelf. *)
Definition Resolve (path id version stack : string)
    : result postal.Dependency :=
  @postal.Resolve shelf reference.releases sort.insertion
    reference.quotePrintable path id version stack.

(** The archive of the tests without its link. *)
Definition plainArchive : vacation.tarReader :=
  fixture.entry "./some-dir" vacation.TypeDir ""
    (fixture.entry "./some-dir/some-file" vacation.TypeReg ""
       (fixture.entry "./first" vacation.TypeReg "" vacation.EOF)).

(** The tree of the tests with a directory and a link beside its two
    files, and a tree with a directory that holds no file and a file that
    holds no byte. *)
Definition decorated : os.filesystem :=
  <[ ["in"; "link"] := os.Link "a" ]>
    (<[ ["in"; "sub"] := os.Directory 0x1c0 ]> fixture.tree).

Definition bare : os.filesystem :=
  list_to_map
    [ (["hollow"], os.Directory 0x1ed);
      (["hollow"; "sub"], os.Directory 0x1ed);
      (["hollow"; "link"], os.Link "sub");
      (["blank"], os.Regular 0x1a4 []) ].

End scenario.

(** ** Package vacation: compressed archives *)

(** What [gzip.NewReader] and [xz.NewReader] make of a stream: an error,
    when the stream does not start as the format asks, or a reader of the
    archive inside.  An error met later, while the archive is read, is an
    error of the reader of the archive. *)
Inductive packedReader : Type :=
| NotPacked (err : error)
| Packed (inner : vacation.tarReader).

Module gzip.
Import filepath os.

(** [TarGzipArchive]. *)
Record TarGzipArchive := {
  reader : packedReader;
  components : Z;
}.

Definition NewTarGzipArchive (inputReader : packedReader) : TarGzipArchive :=
  {| reader := inputReader; components := 0 |}.

Definition StripComponents (gz : TarGzipArchive) (components : Z)
    : TarGzipArchive :=
  {| reader := reader gz; components := components |}.

(** [TarGzipArchive.Decompress]. *)
Definition Decompress `{Process} (gz : TarGzipArchive) (destination : string)
    (fs : filesystem) : filesystem * option error :=
  match reader gz with
  | NotPacked err => (fs, Some ("failed to create gzip reader: " +:+ err))
  | Packed gzr =>
      vacation.Decompress
        (vacation.StripComponents (vacation.NewTarArchive gzr) (components gz))
        destination fs
  end.

End gzip.

Module xz.
Import filepath os.

(** [TarXZArchive]. *)
Record TarXZArchive := {
  reader : packedReader;
  components : Z;
}.

Definition NewTarXZArchive (inputReader : packedReader) : TarXZArchive :=
  {| reader := inputReader; components := 0 |}.

Definition StripComponents (txz : TarXZArchive) (components : Z)
    : TarXZArchive :=
  {| reader := reader txz; components := components |}.

(** [TarXZArchive.Decompress]. *)
Definition Decompress `{Process} (txz : TarXZArchive) (destination : string)
    (fs : filesystem) : filesystem * option error :=
  match reader txz with
  | NotPacked err => (fs, Some ("failed to create xz reader: " +:+ err))
  | Packed xzr =>
      vacation.Decompress
        (vacation.StripComponents (vacation.NewTarArchive xzr) (components txz))
        destination fs
  end.

End xz.

(** ** Archives, entry by entry *)

Module archive.
Import filepath os vacation.

(** The archive as [tar --strip-components] leaves it: an entry whose
    name has no more than [components] segments is dropped, and any other
    entry loses the first [components] segments of its name. *)
Fixpoint stripped (components : nat) (tarReader : tarReader)
    : vacation.tarReader :=
  match tarReader with
  | Entry hdr content readErr rest =>
      let fileNames := Split (Name hdr) "/" in
      if (length fileNames <=? components)%nat
      then stripped components rest
      else
        Entry {| Name := gostd.Join (drop components fileNames) "/";
                 Typeflag := Typeflag hdr;
                 Mode := Mode hdr;
                 Linkname := Linkname hdr |}
          content readErr (stripped components rest)
  | EOF => EOF
  | Broken err => Broken err
  end.

(** How the reader ends: with the end of the archive, or with an error. *)
Fixpoint ending (tarReader : tarReader) : option error :=
  match tarReader with
  | EOF => None
  | Broken err => Some err
  | Entry _ _ _ rest => ending rest
  end.

(** Whether the walker writes a regular file at [p] for the header. *)
Definition writes (components : Z) (destination : string) (p : path)
    (hdr : Header) : bool :=
  (components <? Z.of_nat (length (Split (Name hdr) "/")))%Z &&
  Ascii.eqb (Typeflag hdr) TypeReg &&
  bool_decide (target components destination hdr = p).

(** The content the archive holds for the file at [p]: that of its last
    entry for a regular file there. *)
Fixpoint written (components : Z) (destination : string) (p : path)
    (tarReader : tarReader) : option (list byte) :=
  match tarReader with
  | Entry hdr content _ rest =>
      match written components destination p rest with
      | Some later => Some later
      | None =>
          if writes components destination p hdr then Some content else None
      end
  | _ => None
  end.

(** Whether [ZipArchive.Decompress] writes a regular file at [p] for the
    file: it is neither a directory nor a link. *)
Definition unzips (destination : string) (p : path) (f : File) : bool :=
  negb (IsDir (FileMode f)) &&
  Z.eqb (Z.land (FileMode f) ModeSymlink) 0 &&
  bool_decide (Join [destination; FileName f] = p).

(** The content a zip archive holds for the file at [p]: that of its
    last file there. *)
Fixpoint unzipped (destination : string) (p : path) (files : list File)
    : option (list byte) :=
  match files with
  | f :: rest =>
      match unzipped destination p rest with
      | Some later => Some later
      | None => if unzips destination p f then Some (content f) else None
      end
  | [] => None
  end.

End archive.

(** ** What a tree holds *)

Module census.
Import filepath os.

(** The regular file at [p], if there is one: its mode and its content. *)
Definition regularFile (fs : filesystem) (p : path)
    : option (Z * list byte) :=
  match fs !! p with
  | Some (Regular m c) => Some (m, c)
  | _ => None
  end.

(** A tree that holds no symbolic link. *)
Definition linkFree (fs : filesystem) : Prop :=
  forall p t, fs !! p <> Some (Link t).

(** A path as [filepath.Walk] gives it: no segment is empty and none
    holds the separator, so that each is its own only piece when split
    at the separator. *)
Definition clean (p : path) : Prop :=
  Forall (fun s => s <> "" /\ Split s "/" = [s]) p.

(** The digits of [hex.EncodeToString]. *)
Definition hexDigits : list ascii := list_ascii_of_string "0123456789abcdef".

End census.

(** ** The worker pool of [getParallelChecksums]

    Lines 117-138 as a transition system: the caller, the goroutines of
    [fileChecksumer] and the two channels between them.  Both channels
    are buffered, with room for as many values as there are files.
    [close(files)] (line 133) ends a goroutine once the channel is
    drained: a goroutine that has ended and one that waits at line 149
    are the same here, neither takes a step. *)

Module pool.
Import filepath os fs.

(** What the goroutines hold: for each of them the path it has received
    from [files] and has not yet answered, if any. *)
Definition held (workers : list (option filepath.path)) : list filepath.path :=
  omap id workers.

(** The state of the pool: the paths the loop of lines 129-131 has yet
    to send, the channel [files], the goroutines, the channel
    [calculatedFiles], and the slice [checksumResults] of the caller. *)
Record state := {
  unsent : list filepath.path;
  files : list filepath.path;
  workers : list (option filepath.path);
  calculatedFiles : list calculatedFile;
  checksumResults : list calculatedFile;
}.

(** Lines 118-126: empty channels, [runtime.NumCPU()] goroutines at
    the head of their loops. *)
Definition start (numCPU : nat) (filesFromDir : list filepath.path) : state :=
  {| unsent := filesFromDir;
     files := [];
     workers := replicate numCPU None;
     calculatedFiles := [];
     checksumResults := [] |}.

Section step.
Context `{Hash}.
Variable tree : filesystem.
Variable numFiles : nat.

(** One step of one of the parties.  A send on a full channel and a
    receive on an empty one block: they are no steps. *)
Inductive step : state -> state -> Prop :=
| Put (s : state) (f : filepath.path) (rest : list filepath.path) :
    (* line 130, [files <- f] *)
    unsent s = f :: rest ->
    length (files s) < numFiles ->
    step s {| unsent := rest;
              files := files s ++ [f];
              workers := workers s;
              calculatedFiles := calculatedFiles s;
              checksumResults := checksumResults s |}
| Take (s : state) (i : nat) (p : filepath.path) (rest : list filepath.path) :
    (* line 149, [path := range files] *)
    workers s !! i = Some None ->
    files s = p :: rest ->
    step s {| unsent := unsent s;
              files := rest;
              workers := <[i := Some p]> (workers s);
              calculatedFiles := calculatedFiles s;
              checksumResults := checksumResults s |}
| Send (s : state) (i : nat) (p : filepath.path) :
    (* lines 150-174, the body of the loop and
       [calculatedFiles <- result] *)
    workers s !! i = Some (Some p) ->
    length (calculatedFiles s) < numFiles ->
    step s {| unsent := unsent s;
              files := files s;
              workers := <[i := None]> (workers s);
              calculatedFiles := calculatedFiles s ++ [fileChecksumer tree p];
              checksumResults := checksumResults s |}
| Pull (s : state) (r : calculatedFile) (rest : list calculatedFile) :
    (* line 137, [append(checksumResults, <-calculatedFiles)], after
       the loop of lines 129-131 has ended *)
    unsent s = [] ->
    length (checksumResults s) < numFiles ->
    calculatedFiles s = r :: rest ->
    step s {| unsent := unsent s;
              files := files s;
              workers := workers s;
              calculatedFiles := rest;
              checksumResults := checksumResults s ++ [r] |}.

(** The caller has left the loop of lines 136-138. *)
Definition collected (s : state) : Prop :=
  unsent s = [] /\ length (checksumResults s) = numFiles.

(** The results that are somewhere in the pool: collected, on their
    way, or still to be made of a path that is held, queued or unsent. *)
Definition results (s : state) : list calculatedFile :=
  checksumResults s ++ calculatedFiles s ++
  (fileChecksumer tree <$> held (workers s) ++ files s ++ unsent s).

(** The work that is left. *)
Definition weight (s : state) : nat :=
  4 * length (unsent s) + 3 * length (files s) +
  2 * length (held (workers s)) + length (calculatedFiles s).

End step.

End pool.

(** * Properties *)

(** ** Strings *)

Section strings.

Lemma append_nil (b : string) : "" +:+ b = b.
Proof. reflexivity. Qed.

Lemma append_cons (c : ascii) (a b : string) :
  String c a +:+ b = String c (a +:+ b).
Proof. reflexivity. Qed.

Lemma append_assoc (a b c : string) : (a +:+ b) +:+ c = a +:+ b +:+ c.
Proof.
  induction a as [|x a IH]; [done |]. by rewrite !append_cons, IH.
Qed.

Lemma append_empty_r (a : string) : a +:+ "" = a.
Proof. induction a as [|x a IH]; [done |]. by rewrite append_cons, IH. Qed.

Lemma prefix_occurs (re s : string) :
  String.prefix re s = true <-> exists after, s = re +:+ after.
Proof.
  revert s. induction re as [|c re IH]; intros s; simpl.
  - split; [intros _; by exists s | by destruct s].
  - destruct s as [|d s]; cbn [String.prefix].
    + split; [done | by intros [? ?]].
    + destruct (Ascii.ascii_dec c d) as [->|Hne].
      * rewrite IH. split; intros [after Hs]; exists after.
        -- by rewrite append_cons, Hs.
        -- rewrite append_cons in Hs. congruence.
      * split; [done |]. intros [after Hs]. rewrite append_cons in Hs.
        congruence.
Qed.

Lemma Contains_occurs (s re : string) :
  Contains s re = true <-> occurs re s.
Proof.
  induction s as [|c s IH].
  - cbn [Contains]. rewrite orb_false_r, prefix_occurs. split.
    + intros [after Hs]. by exists "", after.
    + intros [[|? ?] [after Hs]]; [by exists after | done].
  - cbn [Contains]. rewrite orb_true_iff, prefix_occurs, IH. split.
    + intros [[after Hs] | [before [after Hs]]].
      * by exists "", after.
      * exists (String c before), after. by rewrite append_cons, Hs.
    + intros [[|d before] [after Hs]].
      * left. by exists after.
      * right. exists before, after. rewrite append_cons in Hs. congruence.
Qed.

Lemma MatchString_occurs (re s : string) :
  MatchString re s = true <-> occurs re s.
Proof. apply Contains_occurs. Qed.







End strings.

(** ** Sorting *)

Section sorting.
Context {A : Type} (less : A -> A -> bool).

Lemma insert_Permutation (x : A) (l : list A) :
  sort.insert less x l ≡ₚ x :: l.
Proof.
  induction l as [|y l IH]; [done |]. simpl.
  destruct (less y x); [|done]. rewrite IH. apply Permutation_swap.
Qed.

Lemma insertionSort_Permutation (l : list A) :
  sort.insertionSort l less ≡ₚ l.
Proof.
  induction l as [|x l IH]; [done |].
  unfold sort.insertionSort in *. simpl.
  by rewrite insert_Permutation, IH.
Qed.

Lemma StrictWeakOn_submseteq (l k : list A) :
  l ⊆ k -> sort.StrictWeakOn less k -> sort.StrictWeakOn less l.
Proof.
  intros Hsub [Hasym Hneg]. split.
  - intros a b Ha Hb. apply Hasym; by apply Hsub.
  - intros a b c Ha Hb Hc. apply Hneg; by apply Hsub.
Qed.

Lemma insert_Sorted (x : A) (l : list A) :
  sort.StrictWeakOn less (x :: l) ->
  StronglySorted (sort.notAfter less) l ->
  StronglySorted (sort.notAfter less) (sort.insert less x l).
Proof.
  intros Hswo Hsorted. induction Hsorted as [|y l Hl IH Hy].
  - repeat constructor.
  - destruct Hswo as [Hasym Hneg]. simpl.
    destruct (less y x) eqn:Hyx.
    + constructor.
      * apply IH. apply (StrictWeakOn_submseteq _ (x :: y :: l)); [|done].
        set_solver.
      * rewrite insert_Permutation. constructor; [|done].
        unfold sort.notAfter. apply Hasym; [set_solver.. | done].
    + constructor; [by constructor |].
      constructor; [done |].
      rewrite Forall_forall in Hy |- *. intros z Hz.
      unfold sort.notAfter in *.
      apply (Hneg z y x); [set_solver.. | by apply Hy | done].
Qed.

Lemma insertionSort_Sorted (l : list A) :
  sort.StrictWeakOn less l ->
  StronglySorted (sort.notAfter less) (sort.insertionSort l less).
Proof.
  induction l as [|x l IH]; intros Hswo; [constructor |].
  unfold sort.insertionSort in *. simpl. apply insert_Sorted.
  - apply (StrictWeakOn_submseteq _ (x :: l)); [|done].
    intros z. rewrite !elem_of_cons.
    fold (sort.insertionSort l less). rewrite insertionSort_Permutation.
    tauto.
  - apply IH. apply (StrictWeakOn_submseteq _ (x :: l)); [set_solver | done].
Qed.

(** The head of a sorted slice: no element is [less] than it. *)
Lemma Sorted_head (first : A) (rest : list A) :
  less first first = false ->
  StronglySorted (sort.notAfter less) (first :: rest) ->
  forall z, z ∈ first :: rest -> less z first = false.
Proof.
  intros Hirr Hsorted z Hz. apply StronglySorted_inv in Hsorted as [_ Hall].
  apply elem_of_cons in Hz as [->|Hz]; [done |].
  rewrite Forall_forall in Hall. by apply Hall.
Qed.

End sorting.

(** Insertion sort meets the contract of [sort.Slice]. *)
Lemma insertion_Laws : sort.Laws sort.insertion.
Proof.
  split; intros A l less; simpl.
  - apply insertionSort_Permutation.
  - apply insertionSort_Sorted.
Qed.

(** ** Versions *)

Lemma compareRelease_Gt_asym (a b : reference.release) :
  reference.newer a b = true -> reference.newer b a = false.
Proof.
  destruct a as [[x1 y1] z1], b as [[x2 y2] z2].
  unfold reference.newer, reference.compareRelease.
  repeat case N.compare_spec; intros; try done; lia.
Qed.

Lemma compareRelease_negtrans (a b c : reference.release) :
  reference.newer a b = false -> reference.newer b c = false ->
  reference.newer a c = false.
Proof.
  destruct a as [[x1 y1] z1], b as [[x2 y2] z2], c as [[x3 y3] z3].
  unfold reference.newer, reference.compareRelease.
  repeat case N.compare_spec; intros; try done; lia.
Qed.

Lemma releases_Laws : semver.Laws reference.releases.
Proof.
  split; [apply compareRelease_Gt_asym | apply compareRelease_negtrans].
Qed.

(** ** The resolver *)

Section resolver.
Import postal.
Context `{Catalog} `{L : semver.Lib} `{S : sort.Lib} `{Quoting}.

Lemma skip_selected (id stack : string) (d : Dependency) :
  negb (String.eqb (ID d) id) || negb (stacksInclude (Stacks d) stack) =
  negb (selected id stack d).
Proof. unfold selected. by destruct (String.eqb _ _), (stacksInclude _ _). Qed.

(** When every selected record parses, the loop ends with the compatible
    records and with the versions of all selected records, both in the
    order of the catalog. *)
Lemma collect_Ok (c : semver.Constraints) (id stack : string)
    (dependencies compatibleVersions : list Dependency)
    (supportedVersions : list string) :
  (forall d, d ∈ dependencies -> selected id stack d ->
     is_Ok (semver.NewVersion (Version d))) ->
  collect c id stack dependencies compatibleVersions supportedVersions =
  Ok (compatibleVersions ++
        filter (fun d => selected id stack d && compatible c d) dependencies,
      supportedVersions ++
        (Version <$> filter (fun d => selected id stack d) dependencies)).
Proof.
  revert compatibleVersions supportedVersions.
  induction dependencies as [|d rest IH]; intros compat supp Hparse.
  - by rewrite !app_nil_r.
  - cbn [collect]. rewrite skip_selected.
    assert (Hrest : forall d', d' ∈ rest -> selected id stack d' ->
              is_Ok (semver.NewVersion (Version d'))).
    { intros d' Hd'. apply Hparse. by right. }
    destruct (selected id stack d) eqn:Hsel; simpl negb; cbv iota.
    + assert (Hd : is_Ok (semver.NewVersion (Version d))).
      { apply Hparse; [by left | by rewrite Hsel]. }
      rewrite (filter_cons_True (fun d => selected id stack d)) by by rewrite Hsel.
      destruct (semver.NewVersion (Version d)) as [v|e] eqn:Hv; [|done].
      rewrite IH by done. rewrite fmap_cons.
      destruct (semver.Check c v) eqn:Hc.
      * rewrite filter_cons_True
          by (unfold compatible; rewrite Hsel, Hv, Hc; cbn; tauto).
        by rewrite <- !app_assoc.
      * rewrite filter_cons_False
          by (unfold compatible; rewrite Hsel, Hv, Hc; cbn; tauto).
        by rewrite <- !app_assoc.
    + rewrite IH by done.
      rewrite !filter_cons_False; [done | rewrite Hsel; cbn; tauto..].
Qed.

(** A selected record that does not parse ends the loop with the error
    of [semver.NewVersion], whatever the other records are. *)
Lemma collect_Err (c : semver.Constraints) (id stack : string)
    (dependencies compatibleVersions : list Dependency)
    (supportedVersions : list string) :
  (exists d, d ∈ dependencies /\ selected id stack d /\
     is_Ok (semver.NewVersion (Version d)) = false) ->
  exists d e, d ∈ dependencies /\ selected id stack d /\
    semver.NewVersion (Version d) = Err e /\
    collect c id stack dependencies compatibleVersions supportedVersions =
    Err e.
Proof.
  revert compatibleVersions supportedVersions.
  induction dependencies as [|d rest IH]; intros compat supp [bad [Hin [Hsel Hbad]]].
  - by apply elem_of_nil in Hin.
  - cbn [collect]. rewrite skip_selected.
    destruct (selected id stack d) eqn:Hd; simpl negb; cbv iota.
    + destruct (semver.NewVersion (Version d)) as [v|e] eqn:Hv.
      * apply elem_of_cons in Hin as [->|Hin]; [by rewrite Hv in Hbad |].
        destruct (IH
          (if semver.Check c v then compat ++ [d] else compat)
          (supp ++ [Version d])) as [d' [e [? [? [? ?]]]]]; [by exists bad |].
        exists d', e. repeat split; [by right | done..].
      * exists d, e. repeat split; [by left | by rewrite Hd | done].
    + apply elem_of_cons in Hin as [->|Hin]; [by rewrite Hd in Hsel |].
      destruct (IH compat supp) as [d' [e [? [? [? ?]]]]]; [by exists bad |].
      exists d', e. repeat split; [by right | done..].
Qed.

Lemma compatible_parsed (c : semver.Constraints) (d : Dependency) :
  compatible c d ->
  exists v, semver.NewVersion (Version d) = Ok v /\ semver.Check c v = true.
Proof.
  unfold compatible. destruct (semver.NewVersion (Version d)) as [v|e]; [|done].
  intros Hc. exists v. split; [done | by apply Is_true_true].
Qed.

Lemma newerThan_parsed (a b : Dependency) (va vb : semver.Version) :
  semver.NewVersion (Version a) = Ok va ->
  semver.NewVersion (Version b) = Ok vb ->
  newerThan a b = semver.GreaterThan va vb.
Proof.
  intros Ha Hb. unfold newerThan, semver.MustParse. by rewrite Ha, Hb.
Qed.

(** On records that parse, the comparison given to [sort.Slice] is a
    strict weak order. *)
Lemma newerThan_StrictWeakOn `{!semver.Laws L} (l : list Dependency) :
  (forall d, d ∈ l -> is_Ok (semver.NewVersion (Version d))) ->
  sort.StrictWeakOn newerThan l.
Proof.
  intros Hparse.
  assert (Hv : forall d, d ∈ l -> exists v, semver.NewVersion (Version d) = Ok v).
  { intros d Hd. specialize (Hparse d Hd).
    destruct (semver.NewVersion (Version d)) as [v|e]; [by exists v | done]. }
  split.
  - intros a b [va Ha]%Hv [vb Hb]%Hv.
    rewrite (newerThan_parsed a b va vb), (newerThan_parsed b a vb va) by done.
    apply semver.GreaterThan_asym.
  - intros a b c [va Ha]%Hv [vb Hb]%Hv [vc Hc]%Hv.
    rewrite (newerThan_parsed a b va vb), (newerThan_parsed b c vb vc),
      (newerThan_parsed a c va vc) by done.
    apply semver.GreaterThan_negtrans.
Qed.

(** Versions given as they are: neither empty, nor ["default"], nor with
    the pessimistic operator in them. *)
Lemma plain_version (version defaultVersion : string) :
  version <> "" -> version <> "default" -> ~ occurs tildeGreater version ->
  pessimistic (defaulted version defaultVersion) = version.
Proof.
  intros Hne Hnd Hno. unfold defaulted.
  destruct (String.eqb_spec version "") as [|_]; [done |].
  destruct (String.eqb_spec version "default") as [|_]; [done |].
  unfold pessimistic.
  destruct (MatchString tildeGreater version) eqn:Hm; [|done].
  by apply MatchString_occurs in Hm.
Qed.

(** C1 (amended).  When the catalog and the constraint parse, the versions
    of all records with the identifier and the stack parse, and one of
    these records meets the constraint, [Resolve] returns one of the
    records that meet it, and no record that meets it has a greater
    version. *)
Theorem Resolve_maximal `{!semver.Laws L} `{!sort.Laws S}
    (path id version stack : string) (dependencies : list Dependency)
    (defaultVersion : string) (c : semver.Constraints) :
  parseBuildpack path id = Ok (dependencies, defaultVersion) ->
  semver.NewConstraint (pessimistic (defaulted version defaultVersion)) = Ok c ->
  (forall d, d ∈ dependencies -> selected id stack d ->
     is_Ok (semver.NewVersion (Version d))) ->
  (exists d, d ∈ dependencies /\ selected id stack d /\ compatible c d) ->
  exists best vbest,
    Resolve path id version stack = Ok best /\
    best ∈ dependencies /\ selected id stack best /\
    semver.NewVersion (Version best) = Ok vbest /\
    semver.Check c vbest = true /\
    forall d v, d ∈ dependencies -> selected id stack d ->
      semver.NewVersion (Version d) = Ok v -> semver.Check c v = true ->
      semver.GreaterThan v vbest = false.
Proof.
  intros Hcatalog Hconstraint Hparse [d0 [Hd0 [Hsel0 Hcomp0]]].
  unfold Resolve. rewrite Hcatalog, Hconstraint, collect_Ok by done.
  rewrite !app_nil_l.
  set (cs := filter (fun d => selected id stack d && compatible c d) dependencies).
  assert (Hcs : forall d, d ∈ cs <->
            (selected id stack d /\ compatible c d) /\ d ∈ dependencies).
  { intros d. unfold cs. rewrite list_elem_of_filter.
    by rewrite andb_True. }
  assert (Hd0cs : d0 ∈ cs) by by apply Hcs.
  destruct (Nat.eqb_spec (length cs) 0) as [Hlen|_].
  { apply nil_length_inv in Hlen. rewrite Hlen in Hd0cs.
    by apply elem_of_nil in Hd0cs. }
  pose proof (sort.Slice_Permutation _ cs newerThan) as Hperm.
  assert (Hswo : sort.StrictWeakOn newerThan cs).
  { apply newerThan_StrictWeakOn. intros d [[Hsel _] Hd]%Hcs. by apply Hparse. }
  pose proof (sort.Slice_Sorted _ cs newerThan Hswo) as Hsorted.
  destruct (sort.Slice cs newerThan) as [|best rest].
  { rewrite <- Hperm in Hd0cs. by apply elem_of_nil in Hd0cs. }
  assert (Hbest : best ∈ cs) by (rewrite <- Hperm; by left).
  pose proof Hbest as [[Hselb Hcompb] Hinb]%Hcs.
  destruct (compatible_parsed _ _ Hcompb) as [vbest [Hvbest Hcheck]].
  exists best, vbest. repeat split; try done.
  intros d v Hd Hsel Hv Hc.
  assert (Hdcs : d ∈ cs).
  { apply Hcs. repeat split; [done | | done].
    unfold compatible. by rewrite Hv, Hc. }
  rewrite <- (newerThan_parsed d best v vbest) by done.
  apply (Sorted_head newerThan best rest); [| done | by rewrite Hperm].
  destruct Hswo as [Hasym _].
  destruct (newerThan best best) eqn:Hbb; [|done].
  by rewrite (Hasym best best Hbest Hbest Hbb) in Hbb.
Qed.

(** C6.  Once the catalog and the constraint are parsed: when the version
    of some record with the identifier and the stack does not parse,
    [Resolve] fails with the error [semver.NewVersion] gives on such a
    record, whatever the other records are and whether or not any record
    meets the constraint. *)
Theorem Resolve_version_syntax
    (path id version stack : string) (dependencies : list Dependency)
    (defaultVersion : string) (c : semver.Constraints) :
  parseBuildpack path id = Ok (dependencies, defaultVersion) ->
  semver.NewConstraint (pessimistic (defaulted version defaultVersion)) = Ok c ->
  (exists d, d ∈ dependencies /\ selected id stack d /\
     is_Ok (semver.NewVersion (Version d)) = false) ->
  exists d e, d ∈ dependencies /\ selected id stack d /\
    semver.NewVersion (Version d) = Err e /\
    Resolve path id version stack = Err e.
Proof.
  intros Hcatalog Hconstraint Hbad.
  destruct (collect_Err c id stack dependencies [] [] Hbad)
    as [d [e [Hd [Hsel [Hv Hcollect]]]]].
  exists d, e. repeat split; try done.
  unfold Resolve. by rewrite Hcatalog, Hconstraint, Hcollect.
Qed.

(** C5 (amended).  When the catalog and the constraint parse, the versions
    of all records with the identifier and the stack parse, and none of
    these records meets the constraint, [Resolve] fails with the message
    below: the identifier and the constraint are quoted as [%q] does, the
    constraint is the string that was parsed (the requested one after the
    default version and the pessimistic operator are dealt with, which is
    the requested one when it is plain), and the versions are those of all
    records with the identifier and the stack, in the order of the
    catalog. *)
Theorem Resolve_no_compatible
    (path id version stack : string) (dependencies : list Dependency)
    (defaultVersion : string) (c : semver.Constraints) :
  parseBuildpack path id = Ok (dependencies, defaultVersion) ->
  semver.NewConstraint (pessimistic (defaulted version defaultVersion)) = Ok c ->
  (forall d, d ∈ dependencies -> selected id stack d ->
     is_Ok (semver.NewVersion (Version d))) ->
  (forall d, d ∈ dependencies -> selected id stack d -> ~ compatible c d) ->
  Resolve path id version stack =
    Err ("failed to satisfy " +:+ Quote id +:+
         " dependency version constraint " +:+
         Quote (pessimistic (defaulted version defaultVersion)) +:+
         ": no compatible versions. Supported versions are: [" +:+
         Join (Version <$> filter (fun d => selected id stack d) dependencies)
           ", " +:+ "]") /\
  (version <> "" -> version <> "default" -> ~ occurs tildeGreater version ->
   pessimistic (defaulted version defaultVersion) = version).
Proof.
  intros Hcatalog Hconstraint Hparse Hnone. split; [|apply plain_version].
  unfold Resolve. rewrite Hcatalog, Hconstraint, collect_Ok by done.
  rewrite !app_nil_l.
  assert (Hempty :
    filter (fun d => selected id stack d && compatible c d) dependencies = []).
  { destruct (filter _ dependencies) as [|d l] eqn:Hfilter; [done |].
    assert (Hd : d ∈ d :: l) by by left.
    rewrite <- Hfilter in Hd.
    apply list_elem_of_filter in Hd as [[Hsel Hcomp]%andb_True Hd].
    by destruct (Hnone d). }
  by rewrite Hempty.
Qed.

End resolver.

(** *** The resolver on the catalog of its tests *)

Section resolver_examples.
Import postal reference.

Example resolve_patch_wildcard :
  Resolve testCatalog "" "some-entry" "1.2.*" "some-stack"
  = Ok (record "some-entry" "1.2.3" ["some-stack"]).
Proof. vm_compute. reflexivity. Qed.

Example resolve_empty_is_highest :
  Resolve testCatalog "" "some-entry" "" "some-stack"
  = Ok (record "some-entry" "4.5.6" ["some-stack"]).
Proof. vm_compute. reflexivity. Qed.

Example resolve_pessimistic_patch :
  Resolve testCatalog "" "some-entry" "~> 1.2.0" "some-stack"
  = Ok (record "some-entry" "1.2.3" ["some-stack"]).
Proof. vm_compute. reflexivity. Qed.

Example resolve_pessimistic_minor :
  Resolve testCatalog "" "some-entry" "~> 1.1" "some-stack"
  = Ok (record "some-entry" "1.2.3" ["some-stack"]).
Proof. vm_compute. reflexivity. Qed.

Example resolve_pessimistic_major :
  Resolve testCatalog "" "some-entry" "~> 1" "some-stack"
  = Ok (record "some-entry" "1.2.3" ["some-stack"]).
Proof. vm_compute. reflexivity. Qed.

Example resolve_default_version :
  Resolve testCatalog "1.2.x" "some-entry" "default" "some-stack"
  = Ok (record "some-entry" "1.2.3" ["some-stack"]).
Proof. vm_compute. reflexivity. Qed.

Example resolve_improper_constraint :
  Resolve testCatalog "" "some-entry" "this-is-not-semver" "some-stack"
  = Err "improper constraint: this-is-not-semver".
Proof. vm_compute. reflexivity. Qed.

Example resolve_unsatisfied :
  Resolve testCatalog "" "some-entry" "9.9.9" "some-stack"
  = Err (statedMessage "some-entry" "9.9.9" ["1.2.3"; "4.5.6"]).
Proof. vm_compute. reflexivity. Qed.

Ltac each_record :=
  let d := fresh "d" in
  let Hd := fresh "Hd" in
  intros d Hd;
  repeat (apply elem_of_cons in Hd as [->|Hd]; [vm_compute; tauto |]);
  by apply elem_of_nil in Hd.

(** On the catalog of the tests and the wildcard, the record returned is
    maximal. *)
Lemma Resolve_maximal_witness :
  exists best vbest,
    Resolve testCatalog "" "some-entry" "*" "some-stack" = Ok best /\
    best ∈ testCatalog /\ selected "some-entry" "some-stack" best /\
    parseRelease (Version best) = Some vbest /\
    (forall d v, d ∈ testCatalog -> selected "some-entry" "some-stack" d ->
       parseRelease (Version d) = Some v -> newer v vbest = false).
Proof.
  destruct (@Resolve_maximal (catalog testCatalog "") releases sort.insertion
    quotePrintable releases_Laws insertion_Laws
    "buildpack.toml" "some-entry" "*" "some-stack" testCatalog "" Any)
    as [best [vbest [Hres [Hin [Hsel [Hv [_ Hmax]]]]]]].
  - reflexivity.
  - reflexivity.
  - each_record.
  - exists (record "some-entry" "1.2.3" ["some-stack"]).
    split; [by left | by vm_compute].
  - exists best, vbest. repeat split; try done.
    + simpl in Hv. by destruct (parseRelease (Version best)); simplify_eq.
    + intros d v Hd Hseld Hdv. apply (Hmax d v Hd Hseld); [|done].
      simpl. by rewrite Hdv.
Defined.

(** C1, as stated, fails: a record meets the constraint, and [Resolve]
    returns no record, since another record with the identifier and the
    stack does not parse. *)
Lemma Resolve_maximal_counterexample :
  semver.NewConstraint (Lib := releases) "*" = Ok Any /\
  (exists d, d ∈ mixedCatalog /\ selected "some-entry" "some-stack" d /\
     @compatible releases Any d) /\
  Resolve mixedCatalog "" "some-entry" "*" "some-stack"
  = Err "Invalid Semantic Version".
Proof.
  repeat split.
  exists (record "some-entry" "1.2.3" ["some-stack"]).
  split; [by left | by vm_compute].
Qed.

(** On the mixed catalog the error is that of the record that does not
    parse, though the other record meets the constraint. *)
Lemma Resolve_version_syntax_witness :
  exists d e, d ∈ mixedCatalog /\ selected "some-entry" "some-stack" d /\
    semver.NewVersion (Lib := releases) (Version d) = Err e /\
    Resolve mixedCatalog "" "some-entry" "*" "some-stack" = Err e.
Proof.
  apply (@Resolve_version_syntax (catalog mixedCatalog "") releases
    sort.insertion quotePrintable
    "buildpack.toml" "some-entry" "*" "some-stack" mixedCatalog "" Any).
  - reflexivity.
  - reflexivity.
  - exists (record "some-entry" "this is super not semver" ["some-stack"]).
    split; [right; by left | by vm_compute].
Defined.

(** A pessimistic request that nothing meets: the message holds the
    rewritten constraint. *)
Lemma Resolve_no_compatible_witness :
  Resolve testCatalog "" "some-entry" "~> 9.9" "some-stack"
  = Err (statedMessage "some-entry" "^ 9.9" ["1.2.3"; "4.5.6"]).
Proof.
  apply (@Resolve_no_compatible (catalog testCatalog "") releases
    sort.insertion quotePrintable
    "buildpack.toml" "some-entry" "~> 9.9" "some-stack" testCatalog ""
    (Caret (9, 9, 0)%N false true)).
  - reflexivity.
  - reflexivity.
  - each_record.
  - each_record.
Defined.

(** C5, as stated, fails: the constraint in the message is not the
    requested one when the default version stands in for it, nor when the
    pessimistic operator is rewritten. *)
Lemma Resolve_no_compatible_counterexample :
  Resolve testCatalog "9.9.9" "some-entry" "" "some-stack"
  = Err (statedMessage "some-entry" "9.9.9" ["1.2.3"; "4.5.6"]) /\
  statedMessage "some-entry" "9.9.9" ["1.2.3"; "4.5.6"]
  <> statedMessage "some-entry" "" ["1.2.3"; "4.5.6"] /\
  Resolve testCatalog "" "some-entry" "~> 9.9" "some-stack"
  = Err (statedMessage "some-entry" "^ 9.9" ["1.2.3"; "4.5.6"]) /\
  statedMessage "some-entry" "^ 9.9" ["1.2.3"; "4.5.6"]
  <> statedMessage "some-entry" "~> 9.9" ["1.2.3"; "4.5.6"].
Proof. repeat split; by vm_compute. Qed.


End resolver_examples.

(** ** Delivery *)

Section delivery.
Import postal.
Context `{transport : Transport} `{mappingResolver : MappingResolver}.
Context `{!Extraction}.

Ltac deliver_cases :=
  unfold location, run, Deliver, defer, bind, invoke, ret; simpl;
  destruct (FindDependencyMapping _ _) as [mapped|?]; simpl;
  [destruct (negb (String.eqb mapped "")); simpl;
   (destruct (Drop _ _) as [bundle|?]; simpl;
    [destruct (Decompress _ _) as [?|] eqn:Hdecompress; simpl;
     [|destruct (Valid _) as [[]|?] eqn:Hvalid; simpl] |]) |].

Ltac calls :=
  repeat match goal with
  | H : _ ∈ _ :: _ |- _ => apply elem_of_cons in H as [H|H]; simplify_eq
  | H : _ ∈ [] |- _ => by apply elem_of_nil in H
  end.

(** C3.  The validity of the digest is checked only after [Decompress]
    has returned without error.  When [Decompress] fails, [Deliver]
    returns its error and the check is not made; when it succeeds, the
    check is made, an error of the check is returned as a failure to
    validate, and a digest that does not match as a checksum mismatch. *)
Theorem Deliver_checks_after_Decompress
    (dependency : Dependency) (cnbPath layerPath platformPath : string) :
  let outcome := run (Deliver dependency cnbPath layerPath platformPath) in
  (forall r, CallValid r ∈ outcome.2 ->
     Decompress r layerPath = None /\
     exists before after,
       outcome.2 = before ++ CallDecompress r layerPath :: CallValid r :: after) /\
  (forall r err, CallDecompress r layerPath ∈ outcome.2 ->
     Decompress r layerPath = Some err ->
     outcome.1 = Some err /\ forall r', CallValid r' ∉ outcome.2) /\
  (forall r, CallDecompress r layerPath ∈ outcome.2 ->
     Decompress r layerPath = None ->
     CallValid r ∈ outcome.2 /\
     match Valid r with
     | Err err => outcome.1 = Some ("failed to validate dependency: " +:+ err)
     | Ok false => outcome.1 = Some "checksum does not match: %!s(<nil>)"
     | Ok true => outcome.1 = None
     end).
Proof.
  split; [|split].
  - intros r. deliver_cases; intros Hin; calls;
      (split; [done |]); by eexists [_; _], [_].
  - intros r err. deliver_cases; intros Hin Herr; calls;
      (split; [done |]); intros r' Hr'; calls.
  - intros r. deliver_cases; intros Hin Hnone; calls;
      rewrite Hvalid; (split; [|done]); set_solver.
Qed.

(** C4.  The digest of the validated reader that is decompressed and
    checked is the digest of the dependency, whatever the bindings give.
    The bindings are asked for that digest, and [Deliver] fetches from no
    other location than the one they give when it is not empty. *)
Theorem Deliver_mapping_keeps_digest
    (dependency : Dependency) (cnbPath layerPath platformPath : string) :
  let outcome := run (Deliver dependency cnbPath layerPath platformPath) in
  (forall r destination, CallDecompress r destination ∈ outcome.2 ->
     checksum r = SHA256 dependency) /\
  (forall r, CallValid r ∈ outcome.2 -> checksum r = SHA256 dependency) /\
  (forall sha256 bindingPath,
     CallFindDependencyMapping sha256 bindingPath ∈ outcome.2 ->
     sha256 = SHA256 dependency) /\
  (forall uri, location dependency platformPath = Ok uri ->
     CallDrop cnbPath uri ∈ outcome.2 /\
     forall root uri', CallDrop root uri' ∈ outcome.2 ->
       root = cnbPath /\ uri' = uri) /\
  (forall uri,
     FindDependencyMapping (SHA256 dependency)
       (filepath.text (filepath.Join [platformPath; "bindings"])) = Ok uri ->
     uri <> "" -> location dependency platformPath = Ok uri).
Proof.
  split; [|split; [|split; [|split]]].
  - intros r destination. deliver_cases; intros Hin; calls; done.
  - intros r. deliver_cases; intros Hin; calls; done.
  - intros sha256 bindingPath. deliver_cases; intros Hin; calls; congruence.
  - intros uri. deliver_cases; intros Huri; simplify_eq;
      (split; [set_solver |]); intros root uri' Hin; calls; done.
  - intros uri Hfound Hne. unfold location. rewrite Hfound.
    by destruct (String.eqb_spec uri "").
Qed.

End delivery.

(** *** Delivery on the collaborators of its tests *)

Section delivery_examples.
Import postal reference.

Example deliver_fetches_mapping :
  delivered None (Ok true) =
  (None,
   [ @CallFindDependencyMapping transport "some-sha" "/platform/bindings";
     CallDrop "some-cnb-path" "dependency-mapping-entry.tgz";
     CallDecompress someReader "/layers/some-entry";
     CallValid someReader;
     @CallClose transport (list_byte_of_string "some-archive") ]).
Proof. reflexivity. Qed.

(** A delivery whose archive does not decompress, and one whose digest
    does not match. *)
Lemma Deliver_checks_after_Decompress_witness :
  ((delivered (Some "failed to read tar response: unexpected EOF") (Ok false)).1
   = Some "failed to read tar response: unexpected EOF" /\
   forall r,
     CallValid r
     ∉ (delivered (Some "failed to read tar response: unexpected EOF")
          (Ok false)).2) /\
  (CallValid someReader ∈ (delivered None (Ok false)).2 /\
   (delivered None (Ok false)).1 = Some "checksum does not match: %!s(<nil>)").
Proof.
  split.
  - destruct (@Deliver_checks_after_Decompress transport bindings
      (extraction (Some "failed to read tar response: unexpected EOF")
         (Ok false))
      someEntry "some-cnb-path" "/layers/some-entry" "/platform")
      as [_ [Hfails _]].
    apply (Hfails someReader); [|reflexivity].
    do 2 right. left.
  - destruct (@Deliver_checks_after_Decompress transport bindings
      (extraction None (Ok false))
      someEntry "some-cnb-path" "/layers/some-entry" "/platform")
      as [_ [_ Hchecks]].
    apply (Hchecks someReader); [|reflexivity].
    do 2 right. left.
Defined.

(** A delivery through a binding: the mapped location is fetched, the
    digest checked is that of the dependency. *)
Lemma Deliver_mapping_keeps_digest_witness :
  (CallDrop "some-cnb-path" "dependency-mapping-entry.tgz"
   ∈ (delivered None (Ok true)).2 /\
   forall root uri, CallDrop root uri ∈ (delivered None (Ok true)).2 ->
     root = "some-cnb-path" /\ uri = "dependency-mapping-entry.tgz") /\
  (forall r, CallValid r ∈ (delivered None (Ok true)).2 ->
     checksum r = "some-sha").
Proof.
  destruct (@Deliver_mapping_keeps_digest transport bindings
    (extraction None (Ok true))
    someEntry "some-cnb-path" "/layers/some-entry" "/platform")
    as [_ [Hvalid [_ [Hdrop Hmapped]]]].
  split; [|exact Hvalid].
  apply Hdrop, Hmapped; [reflexivity | discriminate].
Defined.

End delivery_examples.

(** ** Checksums *)

Section checksums.
Import filepath os fs.
Context `{hash : Hash}.

Lemma ltb_asym (a b : string) : String.ltb a b = true -> String.ltb b a = false.
Proof.
  unfold String.ltb. rewrite (String.compare_antisym b a).
  by destruct (String.compare a b).
Qed.

Lemma ltb_trichotomy (a b : string) :
  String.ltb a b = false -> String.ltb b a = false -> a = b.
Proof.
  unfold String.ltb. rewrite (String.compare_antisym b a).
  destruct (String.compare a b) eqn:Hc; [|done..].
  intros _ _. by apply String.compare_eq_iff.
Qed.

Lemma ltb_leb (a b : string) : String.ltb a b = negb (String.leb b a).
Proof.
  unfold String.ltb, String.leb. rewrite (String.compare_antisym b a).
  by destruct (String.compare a b).
Qed.

Lemma ltb_negtrans (a b c : string) :
  String.ltb a b = false -> String.ltb b c = false -> String.ltb a c = false.
Proof.
  rewrite !ltb_leb, !negb_false_iff. intros Hba Hcb.
  apply Is_true_true. apply Is_true_true in Hba, Hcb.
  by apply (transitivity (R := String.le) (y := b)).
Qed.

(** The comparison of [getParallelChecksums] is a strict weak order on
    every slice. *)
Lemma byPath_StrictWeakOn (l : list calculatedFile) :
  sort.StrictWeakOn byPath l.
Proof.
  split.
  - intros a b _ _. apply ltb_asym.
  - intros a b c _ _ _. apply ltb_negtrans.
Qed.

Lemma fileChecksumer_path (fs : filesystem) (p : filepath.path) :
  fs.path (fileChecksumer fs p) = p.
Proof. unfold fileChecksumer. by destruct (ReadFile fs p). Qed.

Lemma fileChecksumer_err (fs : filesystem) (p : filepath.path) :
  fs.err (fileChecksumer fs p) = None <-> is_Ok (ReadFile fs p).
Proof. unfold fileChecksumer. by destruct (ReadFile fs p). Qed.

Lemma NoDup_fmap_elem {A B} (g : A -> B) (l : list A) (x y : A) :
  NoDup (g <$> l) -> x ∈ l -> y ∈ l -> g x = g y -> x = y.
Proof.
  induction l as [|z l IH]; intros Hnodup Hx Hy Hg.
  - by apply elem_of_nil in Hx.
  - rewrite fmap_cons in Hnodup. apply NoDup_cons in Hnodup as [Hz Hnodup].
    apply elem_of_cons in Hx as [->|Hx]; apply elem_of_cons in Hy as [->|Hy].
    + done.
    + destruct Hz. rewrite Hg. by apply list_elem_of_fmap_2.
    + destruct Hz. rewrite <- Hg. by apply list_elem_of_fmap_2.
    + by apply IH.
Qed.

Lemma fmap_fixed {A} (g : A -> A) (l : list A) :
  (forall x, x ∈ l -> g x = x) -> g <$> l = l.
Proof.
  intros Hg. rewrite <- (list_fmap_id l) at 2.
  apply list_fmap_ext. intros i x Hx. apply Hg. by eapply list_elem_of_lookup_2.
Qed.

(** A slice sorted by path, with no path twice, is strictly sorted. *)
Lemma Sorted_strict (l : list filepath.path) :
  NoDup (text <$> l) ->
  StronglySorted (fun p q => String.ltb (text q) (text p) = false) l ->
  StronglySorted (fun p q => String.ltb (text p) (text q) = true) l.
Proof.
  intros Hnodup Hsorted. induction Hsorted as [|p l Hl IH Hp]; [constructor |].
  rewrite fmap_cons in Hnodup. apply NoDup_cons in Hnodup as [Hfresh Hnodup].
  constructor; [by apply IH |].
  rewrite Forall_forall in Hp |- *. intros q Hq.
  destruct (String.ltb (text p) (text q)) eqn:Hpq; [done |].
  destruct Hfresh. rewrite (ltb_trichotomy _ _ Hpq (Hp q Hq)).
  by apply list_elem_of_fmap_2.
Qed.

(** The results written to the last hash, when no file fails. *)
Lemma gather_Ok (results : list calculatedFile) (written : list byte) :
  (forall f, f ∈ results -> fs.err f = None) ->
  gather results written =
  Ok (EncodeToString (Sum256 (written ++ concat (fs.checksum <$> results)))).
Proof.
  revert written. induction results as [|f rest IH]; intros written Hok.
  - simpl. by rewrite app_nil_r.
  - simpl. rewrite (Hok f) by by left.
    rewrite IH by (intros g Hg; apply Hok; by right).
    by rewrite <- app_assoc.
Qed.

(** What [getParallelChecksums] returns: the results for the paths in
    increasing order, whatever the sort and the scheduler are. *)
Lemma getParallelChecksums_sorted (L : sort.Lib) (S : Scheduler)
    `{!sort.Laws L} `{!Fair S} (fs : filesystem) (files : list filepath.path) :
  NoDup (text <$> files) ->
  exists sorted,
    sorted ≡ₚ files /\
    StronglySorted (fun p q => String.ltb (text p) (text q) = true) sorted /\
    getParallelChecksums fs files = fileChecksumer fs <$> sorted.
Proof.
  intros Hnodup. unfold getParallelChecksums.
  set (results := sort.Slice _ byPath).
  assert (Hperm : results ≡ₚ fileChecksumer fs <$> files).
  { unfold results. by rewrite sort.Slice_Permutation, completion_Permutation. }
  assert (Hpaths : fs.path <$> results ≡ₚ files).
  { rewrite Hperm, <- list_fmap_compose.
    rewrite fmap_fixed; [done |]. intros p _. apply fileChecksumer_path. }
  exists (fs.path <$> results). split; [done |]. split.
  - apply Sorted_strict; [by rewrite Hpaths |].
    apply (StronglySorted_fmap _ (sort.notAfter byPath)); [by intros x y |].
    apply sort.Slice_Sorted, byPath_StrictWeakOn.
  - rewrite <- list_fmap_compose. symmetry. apply fmap_fixed.
    intros x Hx. rewrite Hperm in Hx.
    apply list_elem_of_fmap in Hx as [p [-> _]]. simpl.
    by rewrite fileChecksumer_path.
Qed.

(** Two runs on the same files return the same slice of results. *)
Lemma getParallelChecksums_agree (L1 L2 : sort.Lib) (S1 S2 : Scheduler)
    `{!sort.Laws L1} `{!sort.Laws L2} `{!Fair S1} `{!Fair S2}
    (fs : filesystem) (files1 files2 : list filepath.path) :
  NoDup (text <$> files1) -> files1 ≡ₚ files2 ->
  exists sorted,
    sorted ≡ₚ files1 /\
    StronglySorted (fun p q => String.ltb (text p) (text q) = true) sorted /\
    @getParallelChecksums hash L1 S1 fs files1 = fileChecksumer fs <$> sorted /\
    @getParallelChecksums hash L2 S2 fs files2 = fileChecksumer fs <$> sorted.
Proof.
  intros Hnodup Hfiles.
  destruct (getParallelChecksums_sorted L1 S1 fs files1 Hnodup)
    as [sorted1 [Hperm1 [Hsorted1 Hresults1]]].
  assert (Hnodup2 : NoDup (text <$> files2)) by by rewrite <- Hfiles.
  destruct (getParallelChecksums_sorted L2 S2 fs files2 Hnodup2)
    as [sorted2 [Hperm2 [Hsorted2 Hresults2]]].
  assert (Hsame : sorted1 = sorted2).
  { apply (StronglySorted_unique_strong
             (fun p q => String.ltb (text p) (text q) = true));
      [| done | done | by rewrite Hperm1, Hperm2].
    intros p q _ _ Hpq Hqp. by rewrite (ltb_asym _ _ Hpq) in Hqp. }
  subst sorted2. by exists sorted1.
Qed.

(** C7.  The results are sorted by path and their digests hashed in that
    order.  For files with no path twice, any two enumerations of the
    files, any two orders in which the workers deliver and any two sorts
    that meet the contract of [sort.Slice] give the same slice of
    results, hence the same outcome of [Sum]; when every file is read,
    the outcome is the hex digest of the digests of the files in
    increasing order of path. *)
Theorem Sum_independent_of_order (L1 L2 : sort.Lib) (S1 S2 : Scheduler)
    `{!sort.Laws L1} `{!sort.Laws L2} `{!Fair S1} `{!Fair S2}
    (fs : filesystem) (files1 files2 : list filepath.path) :
  NoDup (text <$> files1) -> files1 ≡ₚ files2 ->
  exists sorted,
    sorted ≡ₚ files1 /\
    StronglySorted (fun p q => String.ltb (text p) (text q) = true) sorted /\
    @getParallelChecksums hash L1 S1 fs files1 = fileChecksumer fs <$> sorted /\
    @getParallelChecksums hash L2 S2 fs files2 = fileChecksumer fs <$> sorted /\
    gather (@getParallelChecksums hash L1 S1 fs files1) [] =
    gather (@getParallelChecksums hash L2 S2 fs files2) [] /\
    ((forall p, p ∈ files1 -> is_Ok (ReadFile fs p)) ->
     gather (@getParallelChecksums hash L1 S1 fs files1) [] =
     Ok (EncodeToString (Sum256 (concat
           ((fun p => fs.checksum (fileChecksumer fs p)) <$> sorted))))).
Proof.
  intros Hnodup Hfiles.
  destruct (getParallelChecksums_agree L1 L2 S1 S2 fs files1 files2
              Hnodup Hfiles)
    as [sorted [Hperm [Hsorted [Hresults1 Hresults2]]]].
  exists sorted.
  split; [done |]. split; [done |]. split; [done |]. split; [done |].
  split; [by rewrite Hresults1, Hresults2 |].
  intros Hread. rewrite Hresults1, gather_Ok.
  - by rewrite <- list_fmap_compose.
  - intros f [p [-> Hp]]%list_elem_of_fmap.
    apply fileChecksumer_err, Hread. by rewrite <- Hperm.
Qed.

End checksums.

(** [Sum] on a directory: the scheduler and the sort do not matter. *)
Corollary Sum_independent_of_scheduler `{hash : fs.Hash}
    (L1 L2 : sort.Lib) (S1 S2 : fs.Scheduler)
    `{!sort.Laws L1} `{!sort.Laws L2} `{!fs.Fair S1} `{!fs.Fair S2}
    (tree : os.filesystem) (p : filepath.path) :
  NoDup (filepath.text <$> (os.Walk tree p fs.regularFiles []).1) ->
  @fs.Sum hash L1 S1 tree p = @fs.Sum hash L2 S2 tree p.
Proof.
  intros Hnodup. unfold fs.Sum.
  destruct (os.Stat tree p) as [info|e]; [|done].
  destruct (negb (os.IsDir info)); [done |].
  destruct (os.Walk tree p fs.regularFiles []) as [files [e|]]; [done |].
  by destruct (getParallelChecksums_agree L1 L2 S1 S2 tree files files Hnodup)
    as [sorted [_ [_ [-> ->]]]].
Qed.

Lemma inOrder_Fair : fs.Fair fs.inOrder.
Proof. by split. Qed.

Lemma lastFirst_Fair : fs.Fair fs.lastFirst.
Proof. split. intros l. simpl. symmetry. apply Permutation_rev. Qed.

Section checksum_examples.
Import filepath os fs fixture.

Example sum_of_a_file :
  @Sum sha256.digest sort.insertion inOrder tree ["in"; "a"]
  = Ok "559aead08264d5795d3909718cdd05abd49572e84fe55590eef31a88a08fdffd".
Proof. vm_compute. reflexivity. Qed.

Example sum_of_a_directory :
  @Sum sha256.digest sort.insertion lastFirst tree ["in"]
  = Ok "63956f0ce48edc48a0d528cb0b5d58e4d625afb14d63ca1bb9950eb657d61f40".
Proof. vm_compute. reflexivity. Qed.

(** Two files, enumerated and delivered in opposite orders. *)
Lemma Sum_independent_of_order_witness :
  @gather sha256.digest
    (@getParallelChecksums sha256.digest sort.insertion inOrder tree
       [["in"; "a"]; ["in"; "b"]]) [] =
  @gather sha256.digest
    (@getParallelChecksums sha256.digest sort.insertion lastFirst tree
       [["in"; "b"]; ["in"; "a"]]) [].
Proof.
  destruct (@Sum_independent_of_order sha256.digest
    sort.insertion sort.insertion inOrder lastFirst
    insertion_Laws insertion_Laws inOrder_Fair lastFirst_Fair
    tree [["in"; "a"]; ["in"; "b"]] [["in"; "b"]; ["in"; "a"]])
    as [_ [_ [_ [_ [_ [Hsame _]]]]]].
  - apply (bool_decide_unpack _). by vm_compute.
  - apply Permutation_swap.
  - exact Hsame.
Defined.

(** C8 fails on the code: the names drawn by [rand.Read] are the paths
    the results are sorted by.  The same two files, staged under names
    drawn in two orders, have two digests: the digest of [A]'s digest
    followed by [B]'s, and the digest of the two the other way round. *)
Theorem SumMultiple_depends_on_names :
  fixture.SumMultiple lowThenHigh [["in"; "a"]; ["in"; "b"]]
  = Ok "63956f0ce48edc48a0d528cb0b5d58e4d625afb14d63ca1bb9950eb657d61f40" /\
  fixture.SumMultiple highThenLow [["in"; "a"]; ["in"; "b"]]
  = Ok "f6d120611fbd704685a217bc41c0779e290ab256e2140d3ef7686a84cb263779" /\
  fixture.SumMultiple lowThenHigh [["in"; "a"]; ["in"; "b"]]
  <> fixture.SumMultiple highThenLow [["in"; "a"]; ["in"; "b"]].
Proof. split; [|split]; by vm_compute. Qed.

End checksum_examples.

(** ** The file tree *)

Section filetree.
Import filepath os.
Context `{process : Process}.

Lemma IsDir_Directory (m : Z) : IsDir (modeOf (Directory m)) = true.
Proof.
  unfold IsDir, modeOf.
  destruct (Z.eqb_spec (Z.land (Z.lor ModeDir (Perm m)) ModeDir) 0) as [H0|];
    [|done].
  apply (f_equal (fun z => Z.testbit z 31)) in H0.
  by rewrite Z.land_spec, Z.lor_spec in H0.
Qed.

Lemma IsDir_Regular (m : Z) (c : list byte) : IsDir (modeOf (Regular m c)) = false.
Proof.
  unfold IsDir, modeOf, Perm. rewrite <- Z.land_assoc.
  change (Z.land ModePerm ModeDir) with 0%Z. by rewrite Z.land_0_r.
Qed.

Lemma IsDir_Link (t : string) : IsDir (modeOf (Link t)) = false.
Proof. reflexivity. Qed.

(** A path other than the root is a directory exactly when the tree holds
    a directory there. *)
Lemma isDirectory_lookup (fs : filesystem) (p : path) :
  p <> [] ->
  isDirectory fs p = true <-> exists m, fs !! p = Some (Directory m).
Proof.
  intros Hp. unfold isDirectory, Stat. destruct p as [|s p]; [done |].
  destruct (fs !! (s :: p)) as [[m|m c|t]|] eqn:Hn.
  - rewrite IsDir_Directory. split; [by exists m | done].
  - rewrite IsDir_Regular. split; [done | by intros [? ?]].
  - rewrite IsDir_Link. split; [done | by intros [? ?]].
  - split; [done | by intros [? ?]].
Qed.

Lemma isDirectory_root (fs : filesystem) : isDirectory fs [] = true.
Proof. reflexivity. Qed.

Lemma exists_lookup (fs : filesystem) (p : path) :
  p <> [] -> exists_ fs p = true <-> is_Some (fs !! p).
Proof.
  intros Hp. unfold exists_, Stat. destruct p as [|s p]; [done |].
  destruct (fs !! (s :: p)) as [n|]; simpl.
  - split; [by exists n | done].
  - split; [done | by intros [? ?]].
Qed.

Lemma grows_refl (fs : filesystem) : grows fs fs.
Proof.
  intros p. destruct (fs !! p) as [[m|m c|t]|]; [done | by exists c | done..].
Qed.

Lemma grows_trans (fs1 fs2 fs3 : filesystem) :
  grows fs1 fs2 -> grows fs2 fs3 -> grows fs1 fs3.
Proof.
  intros H12 H23 p. specialize (H12 p). specialize (H23 p).
  destruct (fs1 !! p) as [[m|m c|t]|].
  - by rewrite H12 in H23.
  - destruct H12 as [c' H12]. by rewrite H12 in H23.
  - by rewrite H12 in H23.
  - destruct (fs2 !! p) as [[m|m c|t]|].
    + by rewrite H23, H12.
    + destruct H23 as [c' ->]. done.
    + by rewrite H23.
    + done.
Qed.

(** Putting a node where there was none, or a file where a file of the
    same mode was. *)
Lemma grows_insert_new (fs : filesystem) (p : path) (n : node) :
  fs !! p = None ->
  match n with Directory m => m = created ModePerm | _ => True end ->
  grows fs (<[p := n]> fs).
Proof.
  intros Hnone Hn q. destruct (decide (p = q)) as [<-|Hne].
  - rewrite Hnone, lookup_insert_eq. by destruct n.
  - rewrite lookup_insert_ne by done. apply grows_refl.
Qed.

Lemma grows_insert_file (fs : filesystem) (p : path) (m : Z)
    (c c' : list byte) :
  fs !! p = Some (Regular m c) -> grows fs (<[p := Regular m c']> fs).
Proof.
  intros Hfile q. destruct (decide (p = q)) as [<-|Hne].
  - rewrite Hfile, lookup_insert_eq. by exists c'.
  - rewrite lookup_insert_ne by done. apply grows_refl.
Qed.

Lemma Mkdir_Ok (fs fs' : filesystem) (p : path) (perm : Z) :
  Mkdir fs p perm = (fs', None) ->
  fs' = <[p := Directory (created perm)]> fs /\
  exists_ fs p = false /\ isDirectory fs (Dir p) = true.
Proof.
  unfold Mkdir. destruct (exists_ fs p); [done |].
  destruct (isDirectory fs (Dir p)); [|done]. simpl. by intros [= <-].
Qed.

Lemma Mkdir_Err (fs fs' : filesystem) (p : path) (perm : Z) (err : error) :
  Mkdir fs p perm = (fs', Some err) -> fs' = fs.
Proof.
  unfold Mkdir. destruct (exists_ fs p); [by intros [= <-] |].
  destruct (isDirectory fs (Dir p)); simpl; [done | by intros [= <-]].
Qed.

Lemma exists_None (fs : filesystem) (p : path) :
  exists_ fs p = false -> fs !! p = None.
Proof.
  unfold exists_, Stat. destruct p as [|s p]; [done |].
  by destruct (fs !! (s :: p)).
Qed.

Lemma Mkdir_grows (fs : filesystem) (p : path) :
  grows fs (Mkdir fs p ModePerm).1.
Proof.
  destruct (Mkdir fs p ModePerm) as [fs' [err|]] eqn:Hmk.
  - apply Mkdir_Err in Hmk as ->. apply grows_refl.
  - apply Mkdir_Ok in Hmk as [-> [Hnew _]]. simpl.
    apply grows_insert_new; [by apply exists_None | done].
Qed.

(** The equations of [os.MkdirAll]. *)
Lemma mkdirAll_there (fs : filesystem) (reversed : list string) (perm dir : Z) :
  Stat fs (rev reversed) = Ok dir ->
  mkdirAll fs reversed perm =
  if IsDir dir then (fs, None)
  else (fs, Some ("mkdir " +:+ text (rev reversed) +:+ ": not a directory")).
Proof. intros Hstat. destruct reversed; cbn [mkdirAll]; by rewrite Hstat. Qed.

Lemma mkdirAll_missing (fs : filesystem) (s : string) (parent : list string)
    (perm : Z) (err : error) :
  Stat fs (rev (s :: parent)) = Err err ->
  mkdirAll fs (s :: parent) perm =
  match mkdirAll fs parent perm with
  | (fs, Some err) => (fs, Some err)
  | (fs, None) =>
      match Mkdir fs (rev (s :: parent)) perm with
      | (fs, Some err) =>
          if isDirectory fs (rev (s :: parent)) then (fs, None)
          else (fs, Some err)
      | (fs, None) => (fs, None)
      end
  end.
Proof. intros Hstat. cbn [mkdirAll]. by rewrite Hstat. Qed.

Lemma Stat_root (fs : filesystem) : exists dir, Stat fs [] = Ok dir /\ IsDir dir = true.
Proof. by eexists. Qed.

Lemma mkdirAll_grows (fs : filesystem) (reversed : list string) :
  grows fs (mkdirAll fs reversed ModePerm).1.
Proof.
  revert fs. induction reversed as [|s parent IH]; intros fs.
  - destruct (Stat_root fs) as [dir [Hstat Hdir]].
    rewrite (mkdirAll_there fs [] _ dir), Hdir by done. apply grows_refl.
  - destruct (Stat fs (rev (s :: parent))) as [dir|err] eqn:Hstat.
    + rewrite (mkdirAll_there _ _ _ dir) by done.
      destruct (IsDir dir); apply grows_refl.
    + rewrite (mkdirAll_missing _ _ _ _ err) by done.
      specialize (IH fs).
      destruct (mkdirAll fs parent ModePerm) as [fs1 [e|]]; [done |].
      simpl in IH. pose proof (Mkdir_grows fs1 (rev (s :: parent))) as Hmk.
      destruct (Mkdir fs1 (rev (s :: parent)) ModePerm) as [fs2 [e|]];
        simpl in Hmk.
      * destruct (isDirectory fs2 _); by apply (grows_trans _ fs1).
      * by apply (grows_trans _ fs1).
Qed.

Lemma MkdirAll_grows (fs : filesystem) (p : path) :
  grows fs (MkdirAll fs p ModePerm).1.
Proof. apply mkdirAll_grows. Qed.

(** After [os.MkdirAll] has returned without error, the path is a
    directory. *)
Lemma mkdirAll_Ok (fs fs' : filesystem) (reversed : list string) (perm : Z) :
  mkdirAll fs reversed perm = (fs', None) ->
  isDirectory fs' (rev reversed) = true.
Proof.
  destruct reversed as [|s parent]; [done |].
  destruct (Stat fs (rev (s :: parent))) as [dir|err] eqn:Hstat.
  - rewrite (mkdirAll_there _ _ _ dir) by done.
    destruct (IsDir dir) eqn:Hdir; [|done]. intros [= <-].
    unfold isDirectory. by rewrite Hstat.
  - rewrite (mkdirAll_missing _ _ _ _ err) by done.
    destruct (mkdirAll fs parent perm) as [fs1 [e|]]; [done |].
    destruct (Mkdir fs1 (rev (s :: parent)) perm) as [fs2 [e|]] eqn:Hmk.
    + destruct (isDirectory fs2 _) eqn:Hdir; [|done]. by intros [= <-].
    + intros [= <-]. apply Mkdir_Ok in Hmk as [-> _].
      apply isDirectory_lookup; [simpl; by destruct (rev parent) |].
      eexists. apply lookup_insert_eq.
Qed.

Lemma MkdirAll_Ok (fs fs' : filesystem) (p : path) (perm : Z) :
  MkdirAll fs p perm = (fs', None) -> isDirectory fs' p = true.
Proof.
  intros Hmk. apply mkdirAll_Ok in Hmk. by rewrite rev_involutive in Hmk.
Qed.

Lemma Stat_Err (fs : filesystem) (p : path) (err : error) :
  Stat fs p = Err err -> fs !! p = None.
Proof.
  unfold Stat. destruct p as [|s p]; [done |]. by destruct (fs !! (s :: p)).
Qed.

Lemma OpenFile_grows (fs : filesystem) (p : path) (perm : Z) :
  grows fs (OpenFile fs p perm).1.
Proof.
  unfold OpenFile. destruct (negb (isDirectory fs (Dir p))); [apply grows_refl |].
  destruct (Stat fs p) as [m|err] eqn:Hstat.
  - destruct (fs !! p) as [[m'|m' c|t]|] eqn:Hp; try apply grows_refl.
    by apply (grows_insert_file _ _ _ c).
  - apply Stat_Err in Hstat. by apply grows_insert_new.
Qed.

Lemma Write_grows (fs : filesystem) (p : path) (b : list byte) :
  grows fs (Write fs p b).
Proof.
  unfold Write. destruct (fs !! p) as [[m'|m' c|t]|] eqn:Hp;
    try apply grows_refl.
  by apply (grows_insert_file _ _ _ c).
Qed.

Lemma Symlink_grows (fs : filesystem) (oldname : string) (newname : path) :
  grows fs (Symlink fs oldname newname).1.
Proof.
  unfold Symlink. destruct (String.eqb oldname ""); [apply grows_refl |].
  destruct (exists_ fs newname) eqn:Hnew; [apply grows_refl |].
  destruct (negb (isDirectory fs (Dir newname))); [apply grows_refl |].
  apply grows_insert_new; [by apply exists_None | done].
Qed.

(** A directory of the tree is a directory of every tree it grows to. *)
Lemma grows_isDirectory (fs fs' : filesystem) (p : path) :
  grows fs fs' -> isDirectory fs p = true -> isDirectory fs' p = true.
Proof.
  intros Hgrows. destruct p as [|s p]; [done |].
  rewrite !isDirectory_lookup by done. intros [m Hm].
  specialize (Hgrows (s :: p)). rewrite Hm in Hgrows. by exists m.
Qed.

(** A directory of the grown tree that was not there before has the mode
    [os.ModePerm] less the mask. *)
Lemma grows_new_directory (fs fs' : filesystem) (p : path) (m : Z) :
  grows fs fs' -> fs !! p = None -> fs' !! p = Some (Directory m) ->
  m = Z.ldiff ModePerm umask.
Proof.
  intros Hgrows Hnone Hdir. specialize (Hgrows p).
  by rewrite Hnone, Hdir in Hgrows.
Qed.

End filetree.

(** ** The extractor *)

Section extractor.
Import filepath os vacation.
Context `{process : Process}.

Ltac step op lemma :=
  let Hg := fresh "Hgrows" in
  pose proof lemma as Hg;
  destruct op as [?fs [?err|]] eqn:?Hop; simpl in Hg.

Lemma walk_grows (components : Z) (destination : string)
    (tarReader : tarReader) (fs : filesystem) :
  grows fs (walk components destination tarReader fs).1.
Proof.
  revert fs. induction tarReader as [| |hdr content readErr rest IH]; intros fs;
    [apply grows_refl.. |].
  cbn [walk]. fold (target components destination hdr).
  destruct (Z.of_nat _ <=? components)%Z; [apply IH |].
  destruct (components <? 0)%Z; [apply grows_refl |].
  destruct (Ascii.eqb (Typeflag hdr) TypeDir).
  { step (MkdirAll fs (target components destination hdr) ModePerm)
      (MkdirAll_grows fs (target components destination hdr)); [done |].
    by apply (grows_trans _ fs0). }
  destruct (Ascii.eqb (Typeflag hdr) TypeReg).
  { step (OpenFile fs (target components destination hdr) (headerMode hdr))
      (OpenFile_grows fs (target components destination hdr) (headerMode hdr));
      [done |].
    assert (grows fs (Write fs0 (target components destination hdr) content))
      by (eapply grows_trans; [done | apply Write_grows]).
    destruct readErr; [done |]. by eapply grows_trans. }
  destruct (Ascii.eqb (Typeflag hdr) TypeSymlink); [|apply IH].
  step (Symlink fs (Linkname hdr) (target components destination hdr))
    (Symlink_grows fs (Linkname hdr) (target components destination hdr));
    [done |].
  by apply (grows_trans _ fs0).
Qed.

Lemma unzip_grows (destination : string) (files : list File)
    (fs : filesystem) :
  grows fs (unzip destination files fs).1.
Proof.
  revert fs. induction files as [|f rest IH]; intros fs; [apply grows_refl |].
  cbn [unzip]. set (path := Join [destination; FileName f]).
  destruct (IsDir (FileMode f)).
  { step (MkdirAll fs path ModePerm) (MkdirAll_grows fs path); [done |].
    by apply (grows_trans _ fs0). }
  destruct (negb (Z.land (FileMode f) ModeSymlink =? 0)%Z).
  { destruct (openErr f); [apply grows_refl |].
    destruct (readErr f); [apply grows_refl |].
    step (Symlink fs (string_of_list_byte (content f)) path)
      (Symlink_grows fs (string_of_list_byte (content f)) path); [done |].
    by apply (grows_trans _ fs0). }
  step (MkdirAll fs (Dir path) ModePerm) (MkdirAll_grows fs (Dir path));
    [done |].
  step (OpenFile fs0 path (FileMode f)) (OpenFile_grows fs0 path (FileMode f)).
  { by apply (grows_trans _ fs0). }
  assert (grows fs fs1) by by apply (grows_trans _ fs0).
  destruct (openErr f); [done |].
  assert (grows fs (Write fs1 path (content f)))
    by (eapply grows_trans; [done | apply Write_grows]).
  destruct (readErr f); [done |]. by eapply grows_trans.
Qed.

(** After a walk that ends without error, the target of every directory
    entry that is not stripped away is a directory. *)
Lemma walk_directory (components : Z) (destination : string)
    (tarReader : tarReader) (fs fs' : filesystem) (hdr : Header) :
  walk components destination tarReader fs = (fs', None) ->
  hdr ∈ headers tarReader ->
  Typeflag hdr = TypeDir ->
  (components < Z.of_nat (length (Split (Name hdr) "/")))%Z ->
  isDirectory fs' (target components destination hdr) = true.
Proof.
  intros Hwalk Hin Hdir Hkept. revert fs Hwalk Hin.
  induction tarReader as [| |hdr0 content readErr rest IH]; intros fs Hwalk Hin;
    [by apply elem_of_nil in Hin.. |].
  cbn [headers] in Hin. cbn [walk] in Hwalk.
  fold (target components destination hdr0) in Hwalk.
  destruct (Z.leb_spec (Z.of_nat (length (Split (Name hdr0) "/"))) components)
    as [Hstripped|_].
  { apply elem_of_cons in Hin as [->|Hin]; [lia | by apply (IH fs)]. }
  destruct (components <? 0)%Z; [done |].
  destruct (Ascii.eqb_spec (Typeflag hdr0) TypeDir) as [_|Hother].
  { destruct (MkdirAll fs (target components destination hdr0) ModePerm)
      as [fs1 [err|]] eqn:Hmk; [done |].
    apply elem_of_cons in Hin as [->|Hin]; [|by apply (IH fs1)].
    apply (grows_isDirectory fs1).
    - pose proof (walk_grows components destination rest fs1) as Hg.
      by rewrite Hwalk in Hg.
    - by apply MkdirAll_Ok in Hmk. }
  assert (Hrest : hdr ∈ headers rest).
  { apply elem_of_cons in Hin as [->|Hin]; [done | done]. }
  destruct (Ascii.eqb (Typeflag hdr0) TypeReg).
  { destruct (OpenFile fs _ _) as [fs1 [err|]]; [done |].
    destruct readErr; [done |]. by eapply IH. }
  destruct (Ascii.eqb (Typeflag hdr0) TypeSymlink); [|by apply (IH fs)].
  destruct (Symlink fs _ _) as [fs1 [err|]]; [done |]. by apply (IH fs1).
Qed.

(** The same for the directory entries of a zip archive. *)
Lemma unzip_directory (destination : string) (files : list File)
    (fs fs' : filesystem) (f : File) :
  unzip destination files fs = (fs', None) ->
  f ∈ files ->
  IsDir (FileMode f) = true ->
  isDirectory fs' (Join [destination; FileName f]) = true.
Proof.
  intros Hunzip Hin Hdir. revert fs Hunzip Hin.
  induction files as [|f0 rest IH]; intros fs Hunzip Hin;
    [by apply elem_of_nil in Hin |].
  cbn [unzip] in Hunzip.
  destruct (IsDir (FileMode f0)) eqn:Hdir0.
  { destruct (MkdirAll fs (Join [destination; FileName f0]) ModePerm)
      as [fs1 [err|]] eqn:Hmk; [done |].
    apply elem_of_cons in Hin as [->|Hin]; [|by apply (IH fs1)].
    apply (grows_isDirectory fs1).
    - pose proof (unzip_grows destination rest fs1) as Hg.
      by rewrite Hunzip in Hg.
    - by apply MkdirAll_Ok in Hmk. }
  assert (Hrest : f ∈ rest).
  { apply elem_of_cons in Hin as [->|Hin]; [congruence | done]. }
  destruct (negb (Z.land (FileMode f0) ModeSymlink =? 0)%Z).
  { destruct (openErr f0); [done |]. destruct (readErr f0); [done |].
    destruct (Symlink fs _ _) as [fs1 [err|]]; [done |]. by apply (IH fs1). }
  destruct (MkdirAll fs _ _) as [fs1 [err|]]; [done |].
  destruct (OpenFile fs1 _ _) as [fs2 [err|]]; [done |].
  destruct (openErr f0); [done |]. destruct (readErr f0); [done |].
  by eapply IH.
Qed.

(** C9 (amended).  After [Decompress] has returned without error, the
    target of every directory entry of the archive (of a tar archive:
    every entry with more segments than are stripped) is a directory.
    When the target was not there before, its mode is [os.ModePerm],
    octal 0777, less the mask of the process, whatever the mode the entry
    declares; when it was a directory before, it has the mode it had. *)
Theorem Decompress_directory_mode (destination : string) (fs fs' : filesystem) :
  (forall (ta : TarArchive) (hdr : Header),
     Decompress ta destination fs = (fs', None) ->
     hdr ∈ headers (reader ta) ->
     Typeflag hdr = TypeDir ->
     (components ta < Z.of_nat (length (Split (Name hdr) "/")))%Z ->
     let path := target (components ta) destination hdr in
     path <> [] ->
     exists m, fs' !! path = Some (Directory m) /\
       (fs !! path = None -> m = Z.ldiff ModePerm umask) /\
       (forall m0, fs !! path = Some (Directory m0) -> m = m0)) /\
  (forall (files : list File) (f : File),
     DecompressZip (NewZipArchive (Files files)) destination fs = (fs', None) ->
     f ∈ files ->
     IsDir (FileMode f) = true ->
     let path := Join [destination; FileName f] in
     path <> [] ->
     exists m, fs' !! path = Some (Directory m) /\
       (fs !! path = None -> m = Z.ldiff ModePerm umask) /\
       (forall m0, fs !! path = Some (Directory m0) -> m = m0)).
Proof.
  assert (Hmode : forall path m, grows fs fs' ->
    fs' !! path = Some (Directory m) ->
    (fs !! path = None -> m = Z.ldiff ModePerm umask) /\
    (forall m0, fs !! path = Some (Directory m0) -> m = m0)).
  { intros path m Hg Hm. split.
    - intros Hnone. by apply (grows_new_directory fs fs' path).
    - intros m0 Hm0. specialize (Hg path). rewrite Hm0, Hm in Hg. congruence. }
  split.
  - intros ta hdr Hok Hin Hdir Hkept path Hpath. unfold Decompress in Hok.
    pose proof (walk_directory _ _ _ _ _ _ Hok Hin Hdir Hkept) as Hisdir.
    apply isDirectory_lookup in Hisdir as [m Hm]; [|done].
    exists m. split; [done |]. apply Hmode; [|done].
    pose proof (walk_grows (components ta) destination (reader ta) fs) as Hg.
    by rewrite Hok in Hg.
  - intros files f Hok Hin Hdir path Hpath. unfold DecompressZip in Hok.
    simpl in Hok.
    pose proof (unzip_directory _ _ _ _ _ Hok Hin Hdir) as Hisdir.
    apply isDirectory_lookup in Hisdir as [m Hm]; [|done].
    exists m. split; [done |]. apply Hmode; [|done].
    pose proof (unzip_grows destination files fs) as Hg.
    by rewrite Hok in Hg.
Qed.

Lemma prefix_snoc (q l : path) (s : string) :
  q `prefix_of` l ++ [s] <-> q `prefix_of` l \/ q = l ++ [s].
Proof.
  split.
  - intros [k Hk]. destruct k as [|x k _] using rev_ind.
    + right. by rewrite app_nil_r in Hk.
    + left. rewrite app_assoc in Hk. apply app_inj_tail in Hk as [-> _].
      by exists k.
  - intros [Hq| ->]; [by apply prefix_app_r | done].
Qed.

Lemma Dir_snoc (l : path) (s : string) : Dir (l ++ [s]) = l.
Proof. apply removelast_last. Qed.

Lemma snoc_ne_nil (l : path) (s : string) : l ++ [s] <> [].
Proof. by destruct l. Qed.

(** In a rooted tree all the way to a directory is directories. *)
Lemma rooted_prefix (fs : filesystem) (p : path) :
  rooted fs -> isDirectory fs p = true ->
  forall q, q `prefix_of` p -> isDirectory fs q = true.
Proof.
  intros Hrooted. induction p as [|s l IH] using rev_ind; intros Hdir q Hq.
  - by apply prefix_nil_inv in Hq as ->.
  - apply prefix_snoc in Hq as [Hq| ->]; [|done].
    apply IH; [|done]. rewrite <- (Dir_snoc l s). apply Hrooted.
    apply isDirectory_lookup in Hdir as [m ->]; [done | apply snoc_ne_nil].
Qed.

Lemma rooted_insert (fs : filesystem) (p : path) (n : node) :
  rooted fs -> isDirectory fs (Dir p) = true -> fs !! p = None ->
  rooted (<[p := n]> fs).
Proof.
  intros Hrooted Hparent Hnone q Hq.
  assert (Hkeep : forall r, isDirectory fs r = true ->
            isDirectory (<[p := n]> fs) r = true).
  { intros r. destruct r as [|s r]; [done |].
    rewrite !isDirectory_lookup by done. intros [m Hm]. exists m.
    rewrite lookup_insert_ne; [done |]. intros ->. congruence. }
  apply Hkeep. destruct (decide (p = q)) as [<-|Hne]; [done |].
  rewrite lookup_insert_ne in Hq by done. by apply Hrooted.
Qed.

(** [os.MkdirAll] on a clear way in a rooted tree: it returns without
    error, all the way is directories afterwards, and nothing else has
    changed. *)
Lemma mkdirAll_clear (fs : filesystem) (reversed : list string) (perm : Z) :
  rooted fs -> clear fs (rev reversed) ->
  exists fs',
    mkdirAll fs reversed perm = (fs', None) /\
    rooted fs' /\
    (forall q, q `prefix_of` rev reversed -> isDirectory fs' q = true) /\
    (forall q, ~ q `prefix_of` rev reversed -> fs' !! q = fs !! q).
Proof.
  intros Hrooted. induction reversed as [|s parent IH]; intros Hclear.
  - exists fs. split; [done |]. split; [done |]. split; [|done].
    intros q Hq. by apply prefix_nil_inv in Hq as ->.
  - destruct (Stat fs (rev (s :: parent))) as [dir|err] eqn:Hstat.
    + assert (Hdir : isDirectory fs (rev (s :: parent)) = true).
      { apply Hclear; [done |]. unfold exists_. by rewrite Hstat. }
      exists fs. rewrite (mkdirAll_there _ _ _ dir) by done.
      unfold isDirectory in Hdir. rewrite Hstat in Hdir. rewrite Hdir.
      split; [done |]. split; [done |]. split; [|done].
      apply rooted_prefix; [done |]. unfold isDirectory. by rewrite Hstat.
    + rewrite (mkdirAll_missing _ _ _ _ err) by done.
      cbn [rev] in *.
      destruct IH as [fs1 [-> [Hrooted1 [Hway Hframe]]]].
      { intros q Hq. apply Hclear, prefix_snoc. by left. }
      assert (Hnone : fs1 !! (rev parent ++ [s]) = None).
      { rewrite Hframe; [by apply Stat_Err in Hstat |].
        apply prefix_snoc_not. }
      assert (Hparent : isDirectory fs1 (Dir (rev parent ++ [s])) = true).
      { rewrite Dir_snoc. by apply Hway. }
      unfold Mkdir, exists_, Stat. rewrite Hnone, Hparent.
      destruct (rev parent ++ [s]) as [|x l] eqn:Hp;
        [by destruct (snoc_ne_nil (rev parent) s) |].
      rewrite <- Hp in *. simpl.
      exists (<[rev parent ++ [s] := Directory (created perm)]> fs1).
      split; [done |]. split; [|split].
      * by apply rooted_insert.
      * intros q [Hq| ->]%prefix_snoc.
        -- destruct q as [|y q]; [done |].
           apply isDirectory_lookup; [done |].
           specialize (Hway _ Hq).
           apply isDirectory_lookup in Hway as [m Hm]; [|done].
           exists m. rewrite lookup_insert_ne; [done |]. intros Heq.
           rewrite Heq in Hnone. congruence.
        -- apply isDirectory_lookup; [apply snoc_ne_nil |].
           eexists. apply lookup_insert_eq.
      * intros q Hq. rewrite lookup_insert_ne.
        -- apply Hframe. intros Hpre. apply Hq, prefix_snoc. by left.
        -- intros <-. by apply Hq.
Qed.

(** On a clear way, the error below a missing directory is that of a
    path that is not there. *)
Lemma parentError_clear (fs : filesystem) (op : string) (p : path) :
  clear fs (Dir p) ->
  parentError fs op p = op +:+ " " +:+ text p +:+ ": no such file or directory".
Proof.
  intros Hclear. unfold parentError.
  destruct (existsb _ _) eqn:Hblocked; [|done].
  apply existsb_exists in Hblocked as [n [_ Hn]].
  apply andb_prop in Hn as [Hthere Hnodir].
  rewrite (Hclear (take n (Dir p))) in Hnodir; [done | | done].
  apply prefix_take.
Qed.

(** C10.  For a regular-file entry of a zip archive whose way is clear
    (no file and no link among the directories above its target) the
    loop first makes the directories above the target, then creates and
    writes the file: the entry is extracted without error, with no
    directory entry before it, and afterwards all the way above the
    target is directories and the file holds the content of the entry.
    The tar walker opens the target at once: when the way to the target
    is clear as well and the directory above the target is not there, it
    fails to create the file, with the error of [open] for a path that
    is not there, and leaves the tree as it is. *)
Theorem unzip_creates_parents (destination : string) (fs : filesystem) :
  (forall (f : File) (rest : list File),
     let path := Join [destination; FileName f] in
     IsDir (FileMode f) = false ->
     Z.land (FileMode f) ModeSymlink = 0%Z ->
     openErr f = None -> readErr f = None ->
     path <> [] -> rooted fs -> clear fs (Dir path) ->
     (fs !! path = None \/ exists m c, fs !! path = Some (Regular m c)) ->
     exists fs' m,
       unzip destination (f :: rest) fs = unzip destination rest fs' /\
       fs' !! path = Some (Regular m (content f)) /\
       (fs !! path = None -> m = created (FileMode f)) /\
       (forall q, q `prefix_of` Dir path -> isDirectory fs' q = true)) /\
  (forall (components : Z) (hdr : Header) (content : list byte)
      (readErr : option error) (rest : tarReader),
     let path := target components destination hdr in
     Typeflag hdr = TypeReg ->
     (0 <= components < Z.of_nat (length (Split (Name hdr) "/")))%Z ->
     rooted fs -> clear fs (Dir path) -> exists_ fs (Dir path) = false ->
     walk components destination (Entry hdr content readErr rest) fs =
     (fs, Some ("failed to create archived file: open " +:+ text path +:+
                ": no such file or directory"))).
Proof.
  split.
  - intros f rest path Hnodir Hnolink Hopen Hread Hpath Hrooted Hclear Hfile.
    destruct (mkdirAll_clear fs (rev (Dir path)) ModePerm Hrooted)
      as [fs1 [Hmk [Hrooted1 [Hway Hframe]]]];
      [by rewrite rev_involutive |].
    rewrite rev_involutive in Hway, Hframe.
    assert (Hsame : fs1 !! path = fs !! path).
    { apply Hframe. intros Hpre. apply prefix_length in Hpre.
      destruct path as [|s l _] using rev_ind; [done |].
      rewrite Dir_snoc, length_app in Hpre. simpl in Hpre. lia. }
    assert (Hparent : isDirectory fs1 (Dir path) = true) by by apply Hway.
    cbn [unzip]. fold path. rewrite Hnodir, Hnolink. simpl.
    unfold MkdirAll. rewrite Hmk.
    unfold OpenFile. rewrite Hparent. simpl. rewrite Hopen, Hread.
    unfold Stat. destruct path as [|s l] eqn:Hp; [done |]. rewrite <- Hp in *.
    rewrite Hsame.
    destruct Hfile as [Hnone|[m [c Hreg]]].
    + rewrite Hnone.
      exists (<[path := Regular (created (FileMode f)) (content f)]> fs1),
        (created (FileMode f)).
      unfold Write. rewrite lookup_insert_eq, insert_insert_eq. simpl.
      split; [done |]. split; [apply lookup_insert_eq |]. split; [done |].
      intros q Hq. apply (grows_isDirectory fs1); [|by apply Hway].
      apply grows_insert_new; [congruence | done].
    + rewrite Hreg.
      exists (<[path := Regular m (content f)]> fs1), m.
      unfold Write. rewrite lookup_insert_eq, insert_insert_eq. simpl.
      split; [done |]. split; [apply lookup_insert_eq |].
      split; [congruence |].
      intros q Hq. apply (grows_isDirectory fs1); [|by apply Hway].
      apply (grows_insert_file _ _ _ c). congruence.
  - intros components hdr content readErr rest path Hreg [Hlow Hkept]
      _ Hclear Habsent.
    assert (Hparent : isDirectory fs (Dir path) = false).
    { unfold exists_ in Habsent. unfold isDirectory.
      by destruct (Stat fs (Dir path)). }
    cbn [walk]. fold (target components destination hdr). fold path.
    destruct (Z.leb_spec (Z.of_nat (length (Split (Name hdr) "/"))) components);
      [lia |].
    destruct (Z.ltb_spec components 0); [lia |].
    rewrite Hreg. simpl. unfold OpenFile. rewrite Hparent. simpl.
    by rewrite (parentError_clear fs "open" path Hclear).
Qed.

End extractor.

(** *** The extractor on small archives *)

Section extractor_examples.
Import filepath os vacation fixture.

Example strip_components :
  let hdr := {| Name := "some-dir/some-file"; Typeflag := TypeReg;
                Mode := 0x1ed; Linkname := "" |} in
  (@Decompress process
     (StripComponents (NewTarArchive (Entry hdr A None EOF)) 2)
     "/layer" layer = (layer, None)) /\
  (@Decompress process
     (StripComponents (NewTarArchive (Entry hdr A None EOF)) 1)
     "/layer" layer).1 !! ["layer"; "some-file"] = Some (Regular 0x1ed A).
Proof. split; by vm_compute. Qed.

(** A directory entry extracted into an empty layer under the mask 022. *)
Example decompress_test_archive :
  let extracted :=
    (@Decompress process (NewTarArchive testArchive) "/layer" layer) in
  (extracted.2, size extracted.1,
   extracted.1 !! ["layer"; "some-dir"],
   extracted.1 !! ["layer"; "some-dir"; "some-file"],
   extracted.1 !! ["layer"; "first"],
   extracted.1 !! ["layer"; "second"],
   extracted.1 !! ["layer"; "third"],
   extracted.1 !! ["layer"; "symlink"])
  = (None, 7,
     Some (Directory 0x1ed),
     Some (Regular 0x1ed (list_byte_of_string "./some-dir/some-file")),
     Some (Regular 0x1ed (list_byte_of_string "./first")),
     Some (Regular 0x1ed (list_byte_of_string "./second")),
     Some (Regular 0x1ed (list_byte_of_string "./third")),
     Some (Link "./first")).
Proof. vm_compute. reflexivity. Qed.

Example decompress_broken_symlink :
  @Decompress process
    (NewTarArchive (entry "./symlink" TypeSymlink "" EOF)) "/layer" layer
  = (layer,
     Some "failed to extract symlink: symlink  /layer/symlink: no such file or directory").
Proof. by vm_compute. Qed.

Example decompress_malformed :
  @Decompress process (NewTarArchive (Broken "unexpected EOF")) "/layer" layer
  = (layer, Some "failed to read tar response: unexpected EOF").
Proof. by vm_compute. Qed.

Lemma Decompress_directory_mode_witness :
  exists m,
    (@Decompress process tarOfDir "/layer" layer).1 !! ["layer"; "some-dir"]
    = Some (Directory m) /\
    m = Z.ldiff ModePerm 0x12.
Proof.
  destruct (@Decompress_directory_mode process "/layer" layer
    (@Decompress process tarOfDir "/layer" layer).1) as [Htar _].
  destruct (Htar tarOfDir privateDir) as [m [Hm [Hnew _]]].
  - by vm_compute.
  - by left.
  - reflexivity.
  - by vm_compute.
  - by vm_compute.
  - exists m. split; [exact Hm |]. apply Hnew. by vm_compute.
Defined.

(** C9, as stated, fails: the entry declares the mode 0700, and the
    directory is made with 0755 under the mask 022 and with 0777 under no
    mask, from a tar archive and from a zip archive alike. *)
Lemma Decompress_directory_mode_counterexample :
  Perm (Mode privateDir) = 0x1c0%Z /\
  (@Decompress process tarOfDir "/layer" layer).2 = None /\
  (@Decompress process tarOfDir "/layer" layer).1 !! ["layer"; "some-dir"]
  = Some (Directory 0x1ed) /\
  (@Decompress unmasked tarOfDir "/layer" layer).1 !! ["layer"; "some-dir"]
  = Some (Directory 0x1ff) /\
  Perm (FileMode zippedDir) = 0x1c0%Z /\
  (@DecompressZip process (NewZipArchive (Files [zippedDir])) "/layer" layer).2
  = None /\
  (@DecompressZip process (NewZipArchive (Files [zippedDir])) "/layer" layer).1
    !! ["layer"; "some-dir"]
  = Some (Directory 0x1ed).
Proof. repeat split; by vm_compute. Qed.

(** A file three levels down, with no directory entry, from a zip archive
    and from a tar archive. *)
Lemma unzip_creates_parents_witness :
  (exists fs' m,
     @unzip process "/layer" [zippedFile] layer = (fs', None) /\
     fs' !! ["layer"; "a"; "b"; "c"] = Some (Regular m A) /\
     isDirectory fs' ["layer"; "a"; "b"] = true /\
     isDirectory fs' ["layer"; "a"] = true) /\
  @walk process 0 "/layer" tarOfFile layer =
  (layer,
   Some "failed to create archived file: open /layer/a/b/c: no such file or directory").
Proof.
  destruct (@unzip_creates_parents process "/layer" layer) as [Hzip Htar].
  split.
  - destruct (Hzip zippedFile []) as [fs' [m [Hstep [Hfile [_ Hway]]]]].
    + reflexivity.
    + reflexivity.
    + reflexivity.
    + reflexivity.
    + by vm_compute.
    + intros p [n Hn]. unfold layer in Hn.
      apply lookup_singleton_Some in Hn as [<- _]. reflexivity.
    + intros q Hq Hthere. destruct q as [|s q]; [done |].
      apply exists_lookup in Hthere as [n Hn]; [|done]. unfold layer in Hn.
      apply lookup_singleton_Some in Hn as [<- _]. reflexivity.
    + left. by vm_compute.
    + exists fs', m. split; [exact Hstep |]. split; [exact Hfile |].
      split; apply Hway.
      * by exists [].
      * by exists ["b"].
  - apply (Htar 0%Z nestedFile A None EOF).
    + reflexivity.
    + by vm_compute.
    + intros p [n Hn]. unfold layer in Hn.
      apply lookup_singleton_Some in Hn as [<- _]. reflexivity.
    + intros q Hq Hthere. destruct q as [|s q]; [done |].
      apply exists_lookup in Hthere as [n Hn]; [|done]. unfold layer in Hn.
      apply lookup_singleton_Some in Hn as [<- _]. reflexivity.
    + reflexivity.
Defined.

End extractor_examples.

(** ** More on strings *)

Section strings_more.

(** [strings.Split] gives at least one segment. *)
Lemma Split_length (s : string) (sep : ascii) :
  (0 < length (Split s sep))%nat.
Proof.
  induction s as [|c s IH]; simpl; [lia |].
  destruct (Ascii.eqb c sep); simpl; [lia |].
  destruct (Split s sep); simpl in *; lia.
Qed.

(** A string is its only segment when the separator is not in it. *)
Lemma Split_whole (c : ascii) (w : string) (sep : ascii) :
  Split (String c w) sep = [String c w] ->
  Ascii.eqb c sep = false /\ Split w sep = [w].
Proof.
  simpl. destruct (Ascii.eqb c sep); [done |]. intros Hsplit.
  split; [done |].
  pose proof (Split_length w sep) as Hlen.
  destruct (Split w sep) as [|first rest]; simpl in *; [lia |].
  by simplify_eq.
Qed.

Lemma Split_append (w rest : string) (sep : ascii) :
  Split w sep = [w] ->
  Split (w +:+ String sep rest) sep = w :: Split rest sep.
Proof.
  induction w as [|c w IH]; intros Hwhole.
  - rewrite append_nil. simpl. by rewrite Ascii.eqb_refl.
  - apply Split_whole in Hwhole as [Hc Hw].
    rewrite append_cons. simpl. by rewrite Hc, IH.
Qed.

(** The separator is in no segment that [strings.Split] gives. *)
Lemma Split_segments (s : string) (sep : ascii) :
  Forall (fun w => Split w sep = [w]) (Split s sep).
Proof.
  induction s as [|c s IH]; simpl.
  - by repeat constructor.
  - destruct (Ascii.eqb c sep) eqn:Hc; [constructor; [reflexivity | exact IH] |].
    destruct (Split s sep) as [|first rest].
    + constructor; [|constructor]. simpl. by rewrite Hc.
    + apply Forall_cons in IH as [Hfirst Hrest]. constructor; [|done].
      simpl. by rewrite Hc, Hfirst.
Qed.

(** Joining segments and splitting the result gives the segments. *)
Lemma Split_Join (l : list string) (sep : ascii) :
  l <> [] -> Forall (fun w => Split w sep = [w]) l ->
  Split (gostd.Join l (String sep "")) sep = l.
Proof.
  induction l as [|w l IH]; [done |]. intros _ Hl.
  apply Forall_cons in Hl as [Hw Hl].
  destruct l as [|w' l]; [done |].
  change (gostd.Join (w :: w' :: l) (String sep ""))
    with (w +:+ String sep "" +:+ gostd.Join (w' :: l) (String sep "")).
  rewrite append_cons, append_nil, Split_append by done.
  by rewrite IH.
Qed.


End strings_more.

(** ** More on delivery *)

Section delivery_paths.
Import postal.
Context `{transport : Transport} `{mappingResolver : MappingResolver}.
Context `{!Extraction}.

(** All that [Deliver] does, stage by stage. *)
Lemma Deliver_stages
    (dependency : Dependency) (cnbPath layerPath platformPath : string) :
  let bindings := filepath.text (filepath.Join [platformPath; "bindings"]) in
  let lookup := CallFindDependencyMapping (SHA256 dependency) bindings in
  run (Deliver dependency cnbPath layerPath platformPath) =
  match location dependency platformPath with
  | Err _ => (Some "failure checking out the bindings", [lookup])
  | Ok uri =>
      match Drop cnbPath uri with
      | Err err =>
          (Some ("failed to fetch dependency: " +:+ err),
           [lookup; CallDrop cnbPath uri])
      | Ok bundle =>
          let r := NewValidatedReader bundle (SHA256 dependency) in
          match Decompress r layerPath with
          | Some err =>
              (Some err,
               [lookup; CallDrop cnbPath uri; CallDecompress r layerPath;
                CallClose bundle])
          | None =>
              (match Valid r with
               | Err err => Some ("failed to validate dependency: " +:+ err)
               | Ok false => Some "checksum does not match: %!s(<nil>)"
               | Ok true => None
               end,
               [lookup; CallDrop cnbPath uri; CallDecompress r layerPath;
                CallValid r; CallClose bundle])
          end
      end
  end.
Proof.
  unfold location, run, Deliver, defer, bind, invoke, ret. simpl.
  destruct (FindDependencyMapping _ _) as [mapped|?]; [|done]. simpl.
  destruct (negb (String.eqb mapped "")); simpl;
    (destruct (Drop _ _) as [bundle|?]; [|done]); simpl;
    (destruct (Decompress _ _) as [?|]; [done |]); simpl;
    by destruct (Valid _) as [[]|?].
Qed.

(** X1.  [Deliver] gives up early.  When the lookup in the bindings fails,
    nothing is fetched: the lookup is the only call, and the error is the
    fixed text, without the cause.  When the fetch fails, its error is
    wrapped, and nothing is decompressed, checked or closed. *)
Theorem Deliver_gives_up_early
    (dependency : Dependency) (cnbPath layerPath platformPath : string) :
  let bindings := filepath.text (filepath.Join [platformPath; "bindings"]) in
  (forall err,
     FindDependencyMapping (SHA256 dependency) bindings = Err err ->
     run (Deliver dependency cnbPath layerPath platformPath) =
     (Some "failure checking out the bindings",
      [CallFindDependencyMapping (SHA256 dependency) bindings])) /\
  (forall uri err,
     location dependency platformPath = Ok uri ->
     Drop cnbPath uri = Err err ->
     run (Deliver dependency cnbPath layerPath platformPath) =
     (Some ("failed to fetch dependency: " +:+ err),
      [CallFindDependencyMapping (SHA256 dependency) bindings;
       CallDrop cnbPath uri])).
Proof.
  split.
  - intros err Hfound. rewrite Deliver_stages. unfold location.
    by rewrite Hfound.
  - intros uri err Hlocation Hdrop.
    by rewrite Deliver_stages, Hlocation, Hdrop.
Qed.

(** X2.  The stream is closed once, last of all: whenever the fetch has given
    a stream, whether decompression fails, the check fails, the digest
    does not match or all is well, the last call of [Deliver] closes that
    stream, and no call before it closes anything. *)
Theorem Deliver_closes_the_bundle
    (dependency : Dependency) (cnbPath layerPath platformPath : string)
    (uri : string) (bundle : ReadCloser) :
  location dependency platformPath = Ok uri ->
  Drop cnbPath uri = Ok bundle ->
  exists before,
    (run (Deliver dependency cnbPath layerPath platformPath)).2 =
    before ++ [CallClose bundle] /\
    forall closed, CallClose closed ∉ before.
Proof.
  intros Hlocation Hdrop. rewrite Deliver_stages, Hlocation, Hdrop. simpl.
  destruct (Decompress _ _) as [err|]; simpl.
  - eexists [_; _; _]. split; [reflexivity |]. intros closed Hin.
    repeat (apply elem_of_cons in Hin as [Hin|Hin]; [discriminate |]).
    by apply elem_of_nil in Hin.
  - eexists [_; _; _; _]. split; [reflexivity |]. intros closed Hin.
    repeat (apply elem_of_cons in Hin as [Hin|Hin]; [discriminate |]).
    by apply elem_of_nil in Hin.
Qed.

(** X3.  [Deliver] returns no error exactly when every stage succeeds: the
    lookup, the fetch, the decompression, and a check that finds the
    digest to match. *)
Theorem Deliver_succeeds_iff
    (dependency : Dependency) (cnbPath layerPath platformPath : string) :
  (run (Deliver dependency cnbPath layerPath platformPath)).1 = None <->
  exists uri bundle,
    location dependency platformPath = Ok uri /\
    Drop cnbPath uri = Ok bundle /\
    Decompress (NewValidatedReader bundle (SHA256 dependency)) layerPath
      = None /\
    Valid (NewValidatedReader bundle (SHA256 dependency)) = Ok true.
Proof.
  rewrite Deliver_stages. simpl.
  destruct (location dependency platformPath) as [uri|e] eqn:Hlocation;
    simpl.
  - destruct (Drop cnbPath uri) as [bundle|e] eqn:Hdrop; simpl.
    + destruct (Decompress _ _) as [e|] eqn:Hdecompress; simpl.
      * split; [done |]. intros (? & ? & ? & ? & ? & ?). congruence.
      * destruct (Valid _) as [[]|e] eqn:Hvalid; simpl.
        -- split; [intros _ | done]. by exists uri, bundle.
        -- split; [done |]. intros (? & ? & ? & ? & ? & ?). congruence.
        -- split; [done |]. intros (? & ? & ? & ? & ? & ?). congruence.
    + split; [done |]. intros (? & ? & ? & ? & ? & ?). congruence.
  - split; [done |]. intros (? & ? & ? & ? & ? & ?). congruence.
Qed.

End delivery_paths.

(** *** The paths of delivery on the collaborators of its tests *)

Section delivery_paths_examples.
Import postal reference scenario.

(** Bindings that cannot be read, and a location that is not served. *)
Lemma Deliver_gives_up_early_witness :
  run (@Deliver transport lostBindings (extraction None (Ok true))
         someEntry "some-cnb-path" "/layers/some-entry" "/platform")
  = (Some "failure checking out the bindings",
     [ @CallFindDependencyMapping transport "some-sha" "/platform/bindings" ])
  /\
  run (@Deliver transport bindings (extraction None (Ok true))
         unmapped "some-cnb-path" "/layers/some-entry" "/platform")
  = (Some "failed to fetch dependency: there was an error",
     [ @CallFindDependencyMapping transport "other-sha" "/platform/bindings";
       CallDrop "some-cnb-path" "some-entry.tgz" ]).
Proof.
  split.
  - apply (proj1 (@Deliver_gives_up_early transport lostBindings
      (extraction None (Ok true))
      someEntry "some-cnb-path" "/layers/some-entry" "/platform")
      "some-error").
    reflexivity.
  - apply (proj2 (@Deliver_gives_up_early transport bindings
      (extraction None (Ok true))
      unmapped "some-cnb-path" "/layers/some-entry" "/platform")
      "some-entry.tgz" "there was an error"); reflexivity.
Defined.

(** The delivery of the tests, and one whose archive does not
    decompress: the stream is closed last in both. *)
Lemma Deliver_closes_the_bundle_witness :
  (exists before,
     (delivered None (Ok true)).2 =
     before ++ [@CallClose transport (list_byte_of_string "some-archive")] /\
     forall closed, CallClose closed ∉ before) /\
  (exists before,
     (delivered (Some "unexpected EOF") (Ok true)).2 =
     before ++ [@CallClose transport (list_byte_of_string "some-archive")] /\
     forall closed, CallClose closed ∉ before).
Proof.
  split.
  - apply (@Deliver_closes_the_bundle transport bindings
      (extraction None (Ok true))
      someEntry "some-cnb-path" "/layers/some-entry" "/platform"
      "dependency-mapping-entry.tgz"); reflexivity.
  - apply (@Deliver_closes_the_bundle transport bindings
      (extraction (Some "unexpected EOF") (Ok true))
      someEntry "some-cnb-path" "/layers/some-entry" "/platform"
      "dependency-mapping-entry.tgz"); reflexivity.
Defined.

(** The delivery of the tests returns no error. *)
Lemma Deliver_succeeds_iff_witness :
  (delivered None (Ok true)).1 = None.
Proof.
  apply (proj2 (@Deliver_succeeds_iff transport bindings
    (extraction None (Ok true))
    someEntry "some-cnb-path" "/layers/some-entry" "/platform")).
  exists "dependency-mapping-entry.tgz", (list_byte_of_string "some-archive").
  split; [reflexivity |]. split; [reflexivity |].
  split; reflexivity.
Defined.

End delivery_paths_examples.

(** ** More on the resolver *)

Section resolver_more.
Import postal.
Context `{Catalog} `{L : semver.Lib} `{S : sort.Lib} `{Quoting}.

(** The loop reads the records it does not skip, and no other. *)
Lemma collect_selected (c : semver.Constraints) (id stack : string)
    (dependencies compatibleVersions : list Dependency)
    (supportedVersions : list string) :
  collect c id stack dependencies compatibleVersions supportedVersions =
  collect c id stack (filter (fun d => selected id stack d) dependencies)
    compatibleVersions supportedVersions.
Proof.
  revert compatibleVersions supportedVersions.
  induction dependencies as [|d rest IH]; intros compat supp; [done |].
  cbn [collect]. rewrite skip_selected.
  destruct (selected id stack d) eqn:Hsel; simpl negb; cbv iota.
  - rewrite filter_cons_True by by rewrite Hsel.
    cbn [collect]. rewrite skip_selected, Hsel. simpl negb. cbv iota.
    destruct (semver.NewVersion (Version d)); [apply IH | done].
  - rewrite filter_cons_False by (rewrite Hsel; cbn; tauto). apply IH.
Qed.

(** What a result of [Resolve] tells about the stages before it. *)
Lemma Resolve_Ok_stages (path id version stack : string)
    (dependencies : list Dependency) (defaultVersion : string)
    (best : Dependency) :
  parseBuildpack path id = Ok (dependencies, defaultVersion) ->
  Resolve path id version stack = Ok best ->
  exists c rest,
    semver.NewConstraint (pessimistic (defaulted version defaultVersion))
      = Ok c /\
    (forall d, d ∈ dependencies -> selected id stack d ->
       is_Ok (semver.NewVersion (Version d))) /\
    sort.Slice
      (filter (fun d => selected id stack d && compatible c d) dependencies)
      newerThan = best :: rest.
Proof.
  intros Hcatalog. unfold Resolve. rewrite Hcatalog.
  destruct (semver.NewConstraint _) as [c|?]; [|done]. intros Hresolve.
  assert (Hparse : forall d, d ∈ dependencies -> selected id stack d ->
            is_Ok (semver.NewVersion (Version d))).
  { intros d Hd Hsel.
    destruct (is_Ok (semver.NewVersion (Version d))) eqn:Hv; [done |].
    destruct (collect_Err c id stack dependencies [] [])
      as [? [e [_ [_ [_ Hcollect]]]]]; [by exists d |].
    by rewrite Hcollect in Hresolve. }
  rewrite collect_Ok, !app_nil_l in Hresolve by done.
  destruct (Nat.eqb _ 0); [done |].
  destruct (sort.Slice _ newerThan) as [|first rest] eqn:Hsorted; [done |].
  exists c, rest. by simplify_eq.
Qed.

(** The first record of the sorted slice is one of the slice, and none
    of the slice is newer. *)
Lemma Slice_first_newest `{!semver.Laws L} `{!sort.Laws S}
    (compatibleVersions rest : list Dependency) (best : Dependency) :
  (forall d, d ∈ compatibleVersions -> is_Ok (semver.NewVersion (Version d))) ->
  sort.Slice compatibleVersions newerThan = best :: rest ->
  best ∈ compatibleVersions /\
  forall d, d ∈ compatibleVersions -> newerThan d best = false.
Proof.
  intros Hparse Hslice.
  pose proof (sort.Slice_Permutation _ compatibleVersions newerThan) as Hperm.
  pose proof (newerThan_StrictWeakOn compatibleVersions Hparse) as Hswo.
  pose proof (sort.Slice_Sorted _ compatibleVersions newerThan Hswo) as Hsorted.
  rewrite Hslice in Hperm, Hsorted.
  assert (Hbest : best ∈ compatibleVersions) by (rewrite <- Hperm; by left).
  split; [done |]. intros d Hd.
  apply (Sorted_head newerThan best rest); [| done | by rewrite Hperm].
  destruct Hswo as [Hasym _].
  destruct (newerThan best best) eqn:Hbb; [|done].
  by rewrite (Hasym best best Hbest Hbest Hbb) in Hbb.
Qed.





(** X4.  The empty version and ["default"] stand for the same constraint: the
    default version the catalog declares for the identifier, and the
    wildcard when it declares none. *)
Theorem Resolve_default_version (path id stack : string)
    (dependencies : list Dependency) (defaultVersion : string) :
  parseBuildpack path id = Ok (dependencies, defaultVersion) ->
  Resolve path id "" stack = Resolve path id "default" stack /\
  Resolve path id "default" stack =
  Resolve path id (if String.eqb defaultVersion "" then "*" else defaultVersion)
    stack.
Proof.
  intros Hcatalog. unfold Resolve. rewrite Hcatalog. split; [done |].
  assert (Hsame : defaulted "default" defaultVersion =
    defaulted (if String.eqb defaultVersion "" then "*" else defaultVersion)
      defaultVersion); [|by rewrite Hsame].
  unfold defaulted.
  destruct (String.eqb_spec defaultVersion "") as [->|Hne]; [done |].
  apply String.eqb_neq in Hne. rewrite Hne. simpl.
  by destruct (String.eqb_spec defaultVersion "default").
Qed.

(** X5.  Whatever [Resolve] returns is right.  A record it returns is a record
    of the catalog with the identifier and the stack; its version parses
    and meets the constraint made of the requested version; the versions
    of all records with the identifier and the stack parse, and none of
    those that meet the constraint is greater. *)
Theorem Resolve_returns_newest `{!semver.Laws L} `{!sort.Laws S}
    (path id version stack : string) (dependencies : list Dependency)
    (defaultVersion : string) (best : Dependency) :
  parseBuildpack path id = Ok (dependencies, defaultVersion) ->
  Resolve path id version stack = Ok best ->
  exists c vbest,
    semver.NewConstraint (pessimistic (defaulted version defaultVersion))
      = Ok c /\
    best ∈ dependencies /\ selected id stack best /\
    semver.NewVersion (Version best) = Ok vbest /\
    semver.Check c vbest = true /\
    (forall d, d ∈ dependencies -> selected id stack d ->
       is_Ok (semver.NewVersion (Version d))) /\
    (forall d v, d ∈ dependencies -> selected id stack d ->
       semver.NewVersion (Version d) = Ok v -> semver.Check c v = true ->
       semver.GreaterThan v vbest = false).
Proof.
  intros Hcatalog Hresolve.
  destruct (Resolve_Ok_stages _ _ _ _ _ _ _ Hcatalog Hresolve)
    as [c [rest [Hconstraint [Hparse Hslice]]]].
  set (cs := filter (fun d => selected id stack d && compatible c d)
               dependencies) in *.
  assert (Hcs : forall d, d ∈ cs <->
            (selected id stack d /\ compatible c d) /\ d ∈ dependencies).
  { intros d. unfold cs. rewrite list_elem_of_filter. by rewrite andb_True. }
  destruct (Slice_first_newest cs rest best) as [Hbest Hnewest]; [| done |].
  { intros d [[Hsel _] Hd]%Hcs. by apply Hparse. }
  pose proof Hbest as [[Hselb Hcompb] Hinb]%Hcs.
  destruct (compatible_parsed _ _ Hcompb) as [vbest [Hvbest Hcheck]].
  exists c, vbest. split; [done |]. split; [done |]. split; [done |].
  split; [done |]. split; [done |]. split; [done |].
  intros d v Hd Hsel Hv Hc.
  rewrite <- (newerThan_parsed d best v vbest) by done.
  apply Hnewest, Hcs. split; [split; [done |] | done].
  unfold compatible. by rewrite Hv, Hc.
Qed.

(** X6.  Records with another identifier or for other stacks play no part:
    two catalogs that declare the same default version and hold the same
    records for the identifier and the stack, in the same order, resolve
    alike, to the same record or to the same error, whatever their other
    records are, also when the versions of those do not parse. *)
Theorem Resolve_ignores_other_records (path1 path2 id version stack : string)
    (dependencies1 dependencies2 : list Dependency) (defaultVersion : string) :
  parseBuildpack path1 id = Ok (dependencies1, defaultVersion) ->
  parseBuildpack path2 id = Ok (dependencies2, defaultVersion) ->
  filter (fun d => selected id stack d) dependencies1 =
  filter (fun d => selected id stack d) dependencies2 ->
  Resolve path1 id version stack = Resolve path2 id version stack.
Proof.
  intros Hcatalog1 Hcatalog2 Hsame. unfold Resolve.
  rewrite Hcatalog1, Hcatalog2.
  destruct (semver.NewConstraint _) as [c|?]; [|done].
  by rewrite (collect_selected c id stack dependencies1),
    (collect_selected c id stack dependencies2), Hsame.
Qed.

(** X7.  The order of the catalog decides between equals only.  When no two
    different records with the identifier and the stack have versions of
    which neither is greater, a record that [Resolve] returns is the
    record it returns for every catalog that holds the same records in
    another order. *)
Theorem Resolve_independent_of_catalog_order
    `{!semver.Laws L} `{!sort.Laws S}
    (path1 path2 id version stack : string)
    (dependencies1 dependencies2 : list Dependency) (defaultVersion : string)
    (best : Dependency) :
  parseBuildpack path1 id = Ok (dependencies1, defaultVersion) ->
  parseBuildpack path2 id = Ok (dependencies2, defaultVersion) ->
  dependencies1 ≡ₚ dependencies2 ->
  (forall a b va vb, a ∈ dependencies1 -> b ∈ dependencies1 ->
     selected id stack a -> selected id stack b ->
     semver.NewVersion (Version a) = Ok va ->
     semver.NewVersion (Version b) = Ok vb ->
     semver.GreaterThan va vb = false -> semver.GreaterThan vb va = false ->
     a = b) ->
  Resolve path1 id version stack = Ok best ->
  Resolve path2 id version stack = Ok best.
Proof.
  intros Hcatalog1 Hcatalog2 Hperm Hties Hresolve.
  destruct (Resolve_Ok_stages _ _ _ _ _ _ _ Hcatalog1 Hresolve)
    as [c [rest [Hconstraint [Hparse Hslice]]]].
  assert (Hparse2 : forall d, d ∈ dependencies2 -> selected id stack d ->
            is_Ok (semver.NewVersion (Version d))).
  { intros d Hd. apply Hparse. by rewrite Hperm. }
  unfold Resolve. rewrite Hcatalog2, Hconstraint, collect_Ok, !app_nil_l by done.
  assert (Hin : forall (l : list Dependency) d,
            d ∈ filter (fun d => selected id stack d && compatible c d) l <->
            (selected id stack d /\ compatible c d) /\ d ∈ l).
  { intros l d. rewrite list_elem_of_filter. by rewrite andb_True. }
  set (cs1 := filter (fun d => selected id stack d && compatible c d)
                dependencies1) in *.
  set (cs2 := filter (fun d => selected id stack d && compatible c d)
                dependencies2) in *.
  assert (Hkept : cs1 ≡ₚ cs2) by (unfold cs1, cs2; by rewrite Hperm).
  assert (Hparse1 : forall d, d ∈ cs1 -> is_Ok (semver.NewVersion (Version d))).
  { intros d [[Hsel _] Hd]%Hin. by apply Hparse. }
  destruct (Slice_first_newest _ rest best Hparse1 Hslice)
    as [Hbest Hnewest].
  destruct (Nat.eqb_spec (length cs2) 0) as [Hlen|_].
  { apply nil_length_inv in Hlen. rewrite Hlen in Hkept.
    rewrite Hkept in Hbest. by apply elem_of_nil in Hbest. }
  destruct (sort.Slice cs2 newerThan) as [|first rest2] eqn:Hslice2.
  { pose proof (sort.Slice_Permutation _ cs2 newerThan) as Hnil.
    rewrite Hslice2, <- Hkept in Hnil. rewrite <- Hnil in Hbest.
    by apply elem_of_nil in Hbest. }
  destruct (Slice_first_newest cs2 rest2 first) as [Hfirst Hnewest2];
    [| done |].
  { intros d. rewrite <- Hkept. apply Hparse1. }
  rewrite <- Hkept in Hfirst.
  pose proof Hbest as [[Hselb Hcompb] Hinb]%Hin.
  pose proof Hfirst as [[Hself Hcompf] Hinf]%Hin.
  destruct (compatible_parsed _ _ Hcompb) as [vbest [Hvbest _]].
  destruct (compatible_parsed _ _ Hcompf) as [vfirst [Hvfirst _]].
  f_equal. apply (Hties first best vfirst vbest); try done.
  - rewrite <- (newerThan_parsed first best) by done. by apply Hnewest.
  - rewrite <- (newerThan_parsed best first) by done.
    apply Hnewest2. by rewrite <- Hkept.
Qed.

End resolver_more.

(** *** The reading of the reference library *)

Section reference_reading.
Import reference.






End reference_reading.

(** *** The resolver on a shelf of catalogs *)

Section resolver_more_examples.
Import postal reference.


(** The shelf declares the default version [1.2.x]. *)
Lemma Resolve_default_version_witness :
  scenario.Resolve "buildpack.toml" "some-entry" "" "some-stack" =
  scenario.Resolve "buildpack.toml" "some-entry" "1.2.x" "some-stack".
Proof.
  destruct (@Resolve_default_version scenario.shelf releases sort.insertion
    quotePrintable "buildpack.toml" "some-entry" "some-stack"
    testCatalog "1.2.x") as [Hempty Hdefault]; [reflexivity |].
  exact (eq_trans Hempty Hdefault).
Defined.

(** The record returned for the wildcard is the newest of the two the
    catalog of the tests holds for the identifier and the stack. *)
Lemma Resolve_returns_newest_witness :
  exists c vbest,
    semver.NewConstraint (Lib := releases) "*" = Ok c /\
    record "some-entry" "4.5.6" ["some-stack"] ∈ testCatalog /\
    selected "some-entry" "some-stack"
      (record "some-entry" "4.5.6" ["some-stack"]) /\
    semver.NewVersion (Lib := releases) "4.5.6" = Ok vbest /\
    semver.Check c vbest = true /\
    (forall d, d ∈ testCatalog -> selected "some-entry" "some-stack" d ->
       is_Ok (semver.NewVersion (Lib := releases) (Version d))) /\
    (forall d v, d ∈ testCatalog -> selected "some-entry" "some-stack" d ->
       semver.NewVersion (Lib := releases) (Version d) = Ok v ->
       semver.Check c v = true ->
       semver.GreaterThan v vbest = false).
Proof.
  apply (@Resolve_returns_newest scenario.shelf releases sort.insertion
    quotePrintable releases_Laws insertion_Laws
    "buildpack.toml" "some-entry" "*" "some-stack" testCatalog "1.2.x"
    (record "some-entry" "4.5.6" ["some-stack"])); reflexivity.
Defined.

(** A record of another identifier makes no difference, though its
    version does not parse. *)
Lemma Resolve_ignores_other_records_witness :
  scenario.Resolve "buildpack.toml" "some-entry" "*" "some-stack" =
  scenario.Resolve "other/buildpack.toml" "some-entry" "*" "some-stack".
Proof.
  apply (@Resolve_ignores_other_records scenario.shelf releases
    sort.insertion quotePrintable
    "buildpack.toml" "other/buildpack.toml" "some-entry" "*" "some-stack"
    testCatalog scenario.otherRecords "1.2.x"); reflexivity.
Defined.

Ltac pick_record Hin Hselected :=
  repeat (apply elem_of_cons in Hin as [->|Hin];
          [try (by vm_compute in Hselected) |]);
  try (by apply elem_of_nil in Hin).

(** The catalog of the tests in the opposite order. *)
Lemma Resolve_independent_of_catalog_order_witness :
  scenario.Resolve "reversed/buildpack.toml" "some-entry" "*" "some-stack"
  = Ok (record "some-entry" "4.5.6" ["some-stack"]).
Proof.
  apply (@Resolve_independent_of_catalog_order scenario.shelf releases
    sort.insertion quotePrintable releases_Laws insertion_Laws
    "buildpack.toml" "reversed/buildpack.toml" "some-entry" "*" "some-stack"
    testCatalog (rev testCatalog) "1.2.x").
  - reflexivity.
  - reflexivity.
  - apply Permutation_rev.
  - intros a b va vb Ha Hb Hsa Hsb Hva Hvb Hab Hba.
    pick_record Ha Hsa; pick_record Hb Hsb;
      vm_compute in Hva, Hvb; simplify_eq; try done;
      by vm_compute in Hab, Hba.
  - reflexivity.
Defined.

End resolver_more_examples.

(** ** More on the extractor *)

Section extractor_more.
Import filepath os vacation archive census.
Context `{Process}.

(** X8.  Extraction only adds to the tree, whatever the kind of archive and
    whether it ends well or with an error: no node is removed; a
    directory or a link that was there stays as it was; a file that was
    there stays a file with the mode it had; a new directory has the mode
    [os.ModePerm] less the mask. *)
Theorem Decompress_only_grows (destination : string) (fs : filesystem) :
  (forall ta : TarArchive, grows fs (Decompress ta destination fs).1) /\
  (forall gz : gzip.TarGzipArchive,
     grows fs (gzip.Decompress gz destination fs).1) /\
  (forall txz : xz.TarXZArchive,
     grows fs (xz.Decompress txz destination fs).1) /\
  (forall z : ZipArchive, grows fs (DecompressZip z destination fs).1).
Proof.
  split; [|split; [|split]].
  - intros ta. apply walk_grows.
  - intros [[err|inner] components]; unfold gzip.Decompress; simpl.
    + apply grows_refl.
    + apply walk_grows.
  - intros [[err|inner] components]; unfold xz.Decompress; simpl.
    + apply grows_refl.
    + apply walk_grows.
  - intros [[err|err|files]]; unfold DecompressZip; simpl.
    + apply grows_refl.
    + apply grows_refl.
    + apply unzip_grows.
Qed.

(** X9.  A count of segments to strip that is out of range.  With a negative
    count, [Decompress] panics at the first entry of the archive,
    whatever the entry is, and extracts nothing.  With a count that no
    name of the archive exceeds, every entry is passed over: the tree is
    left as it was, and the only error is one the reader ends with. *)
Theorem Decompress_components_out_of_range (ta : TarArchive)
    (destination : string) (fs : filesystem) :
  ((components ta < 0)%Z ->
   forall hdr content readErr rest,
     reader ta = Entry hdr content readErr rest ->
     Decompress ta destination fs =
     (fs, Some "panic: runtime error: slice bounds out of range")) /\
  ((forall hdr, hdr ∈ headers (reader ta) ->
      (Z.of_nat (length (Split (Name hdr) "/")) <= components ta)%Z) ->
   Decompress ta destination fs =
   (fs, (fun err => "failed to read tar response: " +:+ err)
          <$> ending (reader ta))).
Proof.
  destruct ta as [tarReader components]. unfold Decompress. simpl. split.
  - intros Hneg hdr content readErr rest ->. cbn [walk].
    pose proof (Split_length (Name hdr) "/") as Hlen.
    destruct (Z.leb_spec (Z.of_nat (length (Split (Name hdr) "/"))) components);
      [lia |].
    by destruct (Z.ltb_spec components 0); [|lia].
  - induction tarReader as [|err|hdr content readErr rest IH];
      intros Hshort; [done.. |].
    cbn [walk ending].
    destruct (Z.leb_spec (Z.of_nat (length (Split (Name hdr) "/"))) components)
      as [_|Hlong].
    + apply IH. intros hdr' Hin. apply Hshort. by right.
    + specialize (Hshort hdr). simpl in Hshort.
      assert (hdr ∈ hdr :: headers rest) as Hin%Hshort by by left. lia.
Qed.

(** X10.  Stripping segments is renaming.  [Decompress] with [n] segments
    stripped does to the tree, and returns, what it does and returns
    with none stripped on the archive in which the entries with no more
    than [n] segments are left out and every other name has lost its
    first [n] segments.  The archives in gzip and xz form hand their
    count to the archive inside, and so do the same. *)
Theorem StripComponents_renames (n : nat) (destination : string)
    (fs : filesystem) :
  (forall ta : TarArchive,
     Decompress (StripComponents ta (Z.of_nat n)) destination fs =
     Decompress (NewTarArchive (stripped n (reader ta))) destination fs) /\
  (forall (gz : gzip.TarGzipArchive) (inner : tarReader),
     gzip.reader gz = Packed inner ->
     gzip.Decompress (gzip.StripComponents gz (Z.of_nat n)) destination fs =
     Decompress (NewTarArchive (stripped n inner)) destination fs) /\
  (forall (txz : xz.TarXZArchive) (inner : tarReader),
     xz.reader txz = Packed inner ->
     xz.Decompress (xz.StripComponents txz (Z.of_nat n)) destination fs =
     Decompress (NewTarArchive (stripped n inner)) destination fs).
Proof.
  assert (Hwalk : forall tarReader,
    walk (Z.of_nat n) destination tarReader fs =
    walk 0 destination (stripped n tarReader) fs).
  2: { split; [|split].
       - intros [tarReader components]. apply Hwalk.
       - intros [packed components] inner. simpl. intros ->. apply Hwalk.
       - intros [packed components] inner. simpl. intros ->. apply Hwalk. }
  intros tarReader. revert fs.
  induction tarReader as [|err|hdr content readErr rest IH]; intros fs;
    [done.. |].
  cbn [walk stripped].
  pose proof (Split_segments (Name hdr) "/") as Hsegments.
  set (fileNames := Split (Name hdr) "/") in *.
  destruct (Nat.leb_spec (length fileNames) n) as [Hshort|Hlong].
  - destruct (Z.leb_spec (Z.of_nat (length fileNames)) (Z.of_nat n));
      [apply IH | lia].
  - destruct (Z.leb_spec (Z.of_nat (length fileNames)) (Z.of_nat n));
      [lia |].
    destruct (Z.ltb_spec (Z.of_nat n) 0); [lia |].
    cbn [walk]. simpl Name. simpl Typeflag. simpl Linkname.
    assert (Hkept : Split (gostd.Join (drop n fileNames) "/") "/"
                    = drop n fileNames).
    { apply Split_Join.
      - intros Hnil. apply (f_equal length) in Hnil.
        rewrite length_drop in Hnil. simpl in Hnil. lia.
      - by apply Forall_drop. }
    rewrite Hkept.
    assert (Hsome : (0 < length (drop n fileNames))%nat)
      by (rewrite length_drop; lia).
    destruct (Z.leb_spec (Z.of_nat (length (drop n fileNames))) 0); [lia |].
    rewrite Z.ltb_irrefl, Nat2Z.id. simpl Z.to_nat. rewrite drop_0.
    change (headerMode {| Name := gostd.Join (drop n fileNames) "/";
                          Typeflag := Typeflag hdr;
                          Mode := Mode hdr;
                          Linkname := Linkname hdr |})
      with (headerMode hdr).
    destruct (Ascii.eqb (Typeflag hdr) TypeDir).
    { destruct (MkdirAll _ _ _) as [fs' [?|]]; [done | apply IH]. }
    destruct (Ascii.eqb (Typeflag hdr) TypeReg).
    { destruct (OpenFile _ _ _) as [fs' [?|]]; [done |].
      destruct readErr; [done | apply IH]. }
    destruct (Ascii.eqb (Typeflag hdr) TypeSymlink); [|apply IH].
    destruct (Symlink _ _ _) as [fs' [?|]]; [done | apply IH].
Qed.

(** What is there stays there while the tree grows. *)
Lemma grows_exists (fs fs' : filesystem) (p : path) :
  grows fs fs' -> exists_ fs p = true -> exists_ fs' p = true.
Proof.
  intros Hgrows. destruct p as [|s p]; [done |].
  rewrite !exists_lookup by done. intros [n Hn].
  specialize (Hgrows (s :: p)). rewrite Hn in Hgrows.
  destruct n as [m|m c|t]; [by eexists | | by eexists].
  destruct Hgrows as [c' Hc']. by eexists.
Qed.

(** [os.MkdirAll] changes no node that is there, whether it succeeds or
    fails. *)
Lemma mkdirAll_keeps (fs : filesystem) (reversed : list string) (perm : Z)
    (q : path) (n : node) :
  fs !! q = Some n -> (mkdirAll fs reversed perm).1 !! q = Some n.
Proof.
  revert fs. induction reversed as [|s parent IH]; intros fs Hq.
  - cbn [mkdirAll]. destruct (Stat fs (rev [])) as [dir|?]; [|done].
    by destruct (IsDir dir).
  - destruct (Stat fs (rev (s :: parent))) as [dir|err] eqn:Hstat.
    + rewrite (mkdirAll_there _ _ _ dir) by done. by destruct (IsDir dir).
    + rewrite (mkdirAll_missing _ _ _ _ err) by done.
      specialize (IH fs Hq).
      destruct (mkdirAll fs parent perm) as [fs1 [?|]]; [done |].
      simpl in IH.
      destruct (Mkdir fs1 (rev (s :: parent)) perm) as [fs2 [e|]] eqn:Hmk.
      * apply Mkdir_Err in Hmk as ->.
        by destruct (isDirectory fs1 (rev (s :: parent))).
      * apply Mkdir_Ok in Hmk as [-> [Hnew _]]. apply exists_None in Hnew.
        cbn [fst]. rewrite lookup_insert_ne; [done | congruence].
Qed.

Lemma MkdirAll_keeps (fs : filesystem) (p : path) (perm : Z)
    (q : path) (n : node) :
  fs !! q = Some n -> (MkdirAll fs p perm).1 !! q = Some n.
Proof. apply mkdirAll_keeps. Qed.

(** A file that [os.OpenFile] opens is empty; no other node changes. *)
Lemma OpenFile_Ok (fs fs' : filesystem) (p : path) (perm : Z) :
  OpenFile fs p perm = (fs', None) ->
  exists m, fs' = <[p := Regular m []]> fs.
Proof.
  unfold OpenFile. destruct (negb (isDirectory fs (Dir p))); [done |].
  destruct (Stat fs p) as [?|?].
  - destruct (fs !! p) as [[?|m ?|?]|]; try done.
    intros [= <-]. by exists m.
  - intros [= <-]. by eexists.
Qed.

(** [os.Symlink] makes a link where there was nothing. *)
Lemma Symlink_Ok (fs fs' : filesystem) (oldname : string) (newname : path) :
  Symlink fs oldname newname = (fs', None) ->
  fs' = <[newname := Link oldname]> fs /\ exists_ fs newname = false.
Proof.
  unfold Symlink. destruct (String.eqb oldname ""); [done |].
  destruct (exists_ fs newname); [done |].
  destruct (negb (isDirectory fs (Dir newname))); [done |].
  by intros [= <-].
Qed.

Lemma Symlink_exists (fs : filesystem) (oldname : string) (newname : path) :
  exists_ fs newname = true -> is_Some (Symlink fs oldname newname).2.
Proof.
  intros Hthere. unfold Symlink. destruct (String.eqb oldname ""); [by eexists |].
  rewrite Hthere. by eexists.
Qed.

(** A link cannot be extracted where something is: when the archive has
    an entry for a symbolic link that is not stripped away, and the tree
    has a node at its target, whatever the node, [Decompress] fails. *)
Lemma walk_link_in_the_way (components : Z) (destination : string)
    (tarReader : tarReader) (fs : filesystem) (hdr : Header) :
  hdr ∈ headers tarReader ->
  Typeflag hdr = TypeSymlink ->
  (components < Z.of_nat (length (Split (Name hdr) "/")))%Z ->
  exists_ fs (target components destination hdr) = true ->
  is_Some (walk components destination tarReader fs).2.
Proof.
  intros Hin Hlink Hkept. revert fs Hin.
  induction tarReader as [| |hdr0 content readErr rest IH]; intros fs Hin Hthere;
    [by apply elem_of_nil in Hin.. |].
  cbn [headers] in Hin. cbn [walk].
  fold (target components destination hdr0).
  destruct (Z.leb_spec (Z.of_nat (length (Split (Name hdr0) "/"))) components)
    as [Hstripped|_].
  { apply elem_of_cons in Hin as [->|Hin]; [lia | by apply IH]. }
  destruct (components <? 0)%Z; [by eexists |].
  destruct (Ascii.eqb_spec (Typeflag hdr0) TypeDir) as [Hdir|_].
  { assert (Hrest : hdr ∈ headers rest).
    { apply elem_of_cons in Hin as [->|Hin]; [|done].
      rewrite Hlink in *. discriminate. }
    pose proof (MkdirAll_grows fs (target components destination hdr0)) as Hg.
    destruct (MkdirAll fs _ ModePerm) as [fs1 [err|]]; [by eexists |].
    apply IH; [done |]. by apply (grows_exists fs). }
  destruct (Ascii.eqb_spec (Typeflag hdr0) TypeReg) as [Hreg|_].
  { assert (Hrest : hdr ∈ headers rest).
    { apply elem_of_cons in Hin as [->|Hin]; [|done].
      rewrite Hlink in *. discriminate. }
    pose proof (OpenFile_grows fs (target components destination hdr0)
                  (headerMode hdr0)) as Hg.
    destruct (OpenFile fs _ _) as [fs1 [err|]]; [by eexists |].
    destruct readErr; [by eexists |].
    apply IH; [done |].
    apply (grows_exists fs1); [apply Write_grows |].
    by apply (grows_exists fs). }
  destruct (Ascii.eqb_spec (Typeflag hdr0) TypeSymlink) as [_|Hother].
  - apply elem_of_cons in Hin as [->|Hin].
    + pose proof (Symlink_exists fs (Linkname hdr0) _ Hthere) as Hfails.
      destruct (Symlink fs _ _) as [fs1 [err|]]; [by eexists |].
      by destruct Hfails.
    + pose proof (Symlink_grows fs (Linkname hdr0)
                    (target components destination hdr0)) as Hg.
      destruct (Symlink fs _ _) as [fs1 [err|]]; [by eexists |].
      apply IH; [done |]. by apply (grows_exists fs).
  - apply elem_of_cons in Hin as [->|Hin]; [done | by apply IH].
Qed.

(** After a walk that ends without error, there is a node at the target
    of every link entry that is not stripped away. *)
Lemma walk_link (components : Z) (destination : string)
    (tarReader : tarReader) (fs : filesystem) (hdr : Header) :
  (walk components destination tarReader fs).2 = None ->
  hdr ∈ headers tarReader ->
  Typeflag hdr = TypeSymlink ->
  (components < Z.of_nat (length (Split (Name hdr) "/")))%Z ->
  exists_ (walk components destination tarReader fs).1
    (target components destination hdr) = true.
Proof.
  intros Hwalk Hin Hlink Hkept. revert fs Hwalk Hin.
  induction tarReader as [| |hdr0 content readErr rest IH]; intros fs Hwalk Hin;
    [by apply elem_of_nil in Hin.. |].
  cbn [headers] in Hin. cbn [walk] in Hwalk |- *.
  fold (target components destination hdr0) in Hwalk |- *.
  destruct (Z.leb_spec (Z.of_nat (length (Split (Name hdr0) "/"))) components)
    as [Hstripped|_].
  { apply elem_of_cons in Hin as [->|Hin]; [lia | by apply IH]. }
  destruct (components <? 0)%Z; [done |].
  destruct (Ascii.eqb_spec (Typeflag hdr0) TypeDir) as [Hdir|_].
  { assert (Hrest : hdr ∈ headers rest).
    { apply elem_of_cons in Hin as [->|Hin]; [|done].
      rewrite Hlink in *. discriminate. }
    destruct (MkdirAll fs _ ModePerm) as [fs1 [err|]]; [done |]. by apply IH. }
  destruct (Ascii.eqb_spec (Typeflag hdr0) TypeReg) as [Hreg|_].
  { assert (Hrest : hdr ∈ headers rest).
    { apply elem_of_cons in Hin as [->|Hin]; [|done].
      rewrite Hlink in *. discriminate. }
    destruct (OpenFile fs _ _) as [fs1 [err|]]; [done |].
    destruct readErr; [done |]. by apply IH. }
  destruct (Ascii.eqb_spec (Typeflag hdr0) TypeSymlink) as [_|Hother].
  - destruct (Symlink fs _ _) as [fs1 [err|]] eqn:Hsym; [done |].
    apply elem_of_cons in Hin as [->|Hin]; [|by apply IH].
    apply (grows_exists fs1); [apply walk_grows |].
    apply Symlink_Ok in Hsym as [-> Hnew].
    destruct (target components destination hdr0) as [|s p] eqn:Htarget;
      [done |].
    apply exists_lookup; [done |]. rewrite lookup_insert_eq. by eexists.
  - apply elem_of_cons in Hin as [->|Hin]; [done | by apply IH].
Qed.

(** X11.  A link is in the way of itself.  When the tree has a node at the
    target of an entry for a symbolic link, whatever the node,
    [Decompress] fails; so an archive with such an entry, once extracted
    without error, cannot be extracted again over the result. *)
Theorem Decompress_link_in_the_way (ta : TarArchive) (destination : string)
    (fs : filesystem) (hdr : Header) :
  hdr ∈ headers (reader ta) ->
  Typeflag hdr = TypeSymlink ->
  (components ta < Z.of_nat (length (Split (Name hdr) "/")))%Z ->
  (exists_ fs (target (components ta) destination hdr) = true ->
   is_Some (Decompress ta destination fs).2) /\
  ((Decompress ta destination fs).2 = None ->
   is_Some (Decompress ta destination (Decompress ta destination fs).1).2).
Proof.
  intros Hin Hlink Hkept. unfold Decompress. split.
  - by apply walk_link_in_the_way.
  - intros Hwalk. apply (walk_link_in_the_way _ _ _ _ hdr); try done.
    by apply walk_link.
Qed.

(** [os.MkdirAll] makes directories, and nothing else. *)
Lemma mkdirAll_makes_directories (fs : filesystem) (reversed : list string)
    (perm : Z) (q : path) (n : node) :
  (mkdirAll fs reversed perm).1 !! q = Some n ->
  fs !! q = Some n \/ exists m, n = Directory m.
Proof.
  revert fs. induction reversed as [|s parent IH]; intros fs.
  - cbn [mkdirAll]. destruct (Stat fs (rev [])) as [dir|?]; [|by left].
    destruct (IsDir dir); by left.
  - destruct (Stat fs (rev (s :: parent))) as [dir|err] eqn:Hstat.
    + rewrite (mkdirAll_there _ _ _ dir) by done.
      destruct (IsDir dir); by left.
    + rewrite (mkdirAll_missing _ _ _ _ err) by done.
      specialize (IH fs).
      destruct (mkdirAll fs parent perm) as [fs1 [?|]]; [done |].
      simpl in IH.
      destruct (Mkdir fs1 (rev (s :: parent)) perm) as [fs2 [e|]] eqn:Hmk.
      * apply Mkdir_Err in Hmk as ->.
        by destruct (isDirectory fs1 (rev (s :: parent))).
      * apply Mkdir_Ok in Hmk as [-> _]. cbn [fst].
        destruct (decide (rev (s :: parent) = q)) as [<-|Hne].
        -- rewrite lookup_insert_eq. intros [= <-]. right. by eexists.
        -- by rewrite lookup_insert_ne.
Qed.

Lemma MkdirAll_linkFree (fs : filesystem) (p : path) (perm : Z) :
  linkFree fs -> linkFree (MkdirAll fs p perm).1.
Proof.
  intros Hfree q t Hq.
  apply mkdirAll_makes_directories in Hq as [Hq|[m Hm]]; [|done].
  by apply Hfree in Hq.
Qed.

Lemma OpenFile_Err (fs fs' : filesystem) (p : path) (perm : Z) (err : error) :
  OpenFile fs p perm = (fs', Some err) -> fs' = fs.
Proof.
  unfold OpenFile. destruct (negb (isDirectory fs (Dir p))); [congruence |].
  destruct (Stat fs p); [|congruence].
  destruct (fs !! p) as [[| |]|]; congruence.
Qed.

Lemma OpenFile_linkFree (fs : filesystem) (p : path) (perm : Z)
    (b : list byte) :
  linkFree fs -> linkFree (Write (OpenFile fs p perm).1 p b).
Proof.
  intros Hfree.
  assert (Hopen : linkFree (OpenFile fs p perm).1).
  { destruct (OpenFile fs p perm) as [fs1 [err|]] eqn:Hopen.
    - by apply OpenFile_Err in Hopen as ->.
    - apply OpenFile_Ok in Hopen as [m ->]. intros q t. simpl.
      destruct (decide (p = q)) as [<-|Hne].
      + by rewrite lookup_insert_eq.
      + rewrite lookup_insert_ne by done. apply Hfree. }
  intros q t. unfold Write.
  destruct ((OpenFile fs p perm).1 !! p) as [[|m c|]|]; try apply Hopen.
  destruct (decide (p = q)) as [<-|Hne].
  - by rewrite lookup_insert_eq.
  - rewrite lookup_insert_ne by done. apply Hopen.
Qed.

(** An archive with no entry for a link leaves a tree without links
    without links. *)
Lemma walk_linkFree (components : Z) (destination : string)
    (tarReader : tarReader) (fs : filesystem) :
  (forall hdr, hdr ∈ headers tarReader -> Typeflag hdr <> TypeSymlink) ->
  linkFree fs -> linkFree (walk components destination tarReader fs).1.
Proof.
  revert fs.
  induction tarReader as [| |hdr content readErr rest IH]; intros fs Hnone Hfree;
    [done.. |].
  assert (Hrest : forall hdr', hdr' ∈ headers rest ->
            Typeflag hdr' <> TypeSymlink)
    by (intros hdr' Hin; apply Hnone; by right).
  assert (Hhdr : Typeflag hdr <> TypeSymlink) by (apply Hnone; by left).
  cbn [walk]. fold (target components destination hdr).
  destruct (Z.of_nat _ <=? components)%Z; [by apply IH |].
  destruct (components <? 0)%Z; [done |].
  destruct (Ascii.eqb (Typeflag hdr) TypeDir).
  { pose proof (MkdirAll_linkFree fs (target components destination hdr)
                  ModePerm Hfree) as Hmk.
    destruct (MkdirAll fs _ ModePerm) as [fs1 [err|]]; [done |].
    by apply IH. }
  destruct (Ascii.eqb (Typeflag hdr) TypeReg).
  { pose proof (OpenFile_linkFree fs (target components destination hdr)
                  (headerMode hdr) content Hfree) as Hopen.
    destruct (OpenFile fs _ _) as [fs1 [err|]] eqn:Hop.
    - by apply OpenFile_Err in Hop as ->.
    - destruct readErr; [done |]. by apply IH. }
  destruct (Ascii.eqb_spec (Typeflag hdr) TypeSymlink); [done |].
  by apply IH.
Qed.

Lemma unzip_linkFree (destination : string) (files : list File)
    (fs : filesystem) :
  (forall f, f ∈ files ->
     IsDir (FileMode f) = true \/ Z.land (FileMode f) ModeSymlink = 0%Z) ->
  linkFree fs -> linkFree (unzip destination files fs).1.
Proof.
  revert fs. induction files as [|f rest IH]; intros fs Hnone Hfree; [done |].
  assert (Hrest : forall f', f' ∈ rest ->
            IsDir (FileMode f') = true \/
            Z.land (FileMode f') ModeSymlink = 0%Z)
    by (intros f' Hin; apply Hnone; by right).
  cbn [unzip]. set (path := Join [destination; FileName f]).
  destruct (IsDir (FileMode f)) eqn:Hdir.
  { pose proof (MkdirAll_linkFree fs path ModePerm Hfree) as Hmk.
    destruct (MkdirAll fs path ModePerm) as [fs1 [err|]]; [done |].
    by apply IH. }
  destruct (Hnone f) as [?|Hlink]; [by left | congruence |].
  rewrite Hlink. cbn [Z.eqb negb].
  pose proof (MkdirAll_linkFree fs (Dir path) ModePerm Hfree) as Hmk.
  destruct (MkdirAll fs (Dir path) ModePerm) as [fs1 [err|]]; [done |].
  simpl in Hmk.
  pose proof (OpenFile_linkFree fs1 path (FileMode f) (content f) Hmk)
    as Hopen.
  destruct (OpenFile fs1 path (FileMode f)) as [fs2 [err|]] eqn:Hop.
  - by apply OpenFile_Err in Hop as ->.
  - destruct (openErr f).
    { apply OpenFile_Ok in Hop as [m ->]. intros q t. simpl.
      destruct (decide (path = q)) as [<-|Hne].
      + by rewrite lookup_insert_eq.
      + rewrite lookup_insert_ne by done. apply Hmk. }
    destruct (readErr f); [done |]. by apply IH.
Qed.

(** X12.  What is packed is what is read back.  The tree is one in which
    every node is in a directory and none is a link, and the archive has
    no entry for a link, so that no call meets a link.  After
    [Decompress] has returned without error, the tree holds no link, a
    path for which the archive has an entry for a regular file holds a
    file with the content of the last such entry, and a file at any
    other path is as it was, in mode and content. *)
Theorem Decompress_writes_contents (ta : TarArchive) (destination : string)
    (fs : filesystem) (p : path) :
  rooted fs -> linkFree fs ->
  (forall hdr, hdr ∈ headers (reader ta) -> Typeflag hdr <> TypeSymlink) ->
  (Decompress ta destination fs).2 = None ->
  linkFree (Decompress ta destination fs).1 /\
  match written (components ta) destination p (reader ta) with
  | Some content =>
      exists m,
        (Decompress ta destination fs).1 !! p = Some (Regular m content)
  | None =>
      forall m c, fs !! p = Some (Regular m c) ->
        (Decompress ta destination fs).1 !! p = Some (Regular m c)
  end.
Proof.
  intros _ Hfree Hnone Hdone. split; [by apply walk_linkFree |].
  clear Hfree Hnone. revert Hdone.
  destruct ta as [tarReader components]. unfold Decompress. simpl.
  revert fs.
  induction tarReader as [| |hdr content readErr rest IH]; intros fs Hwalk;
    [simpl in *; done.. |].
  cbn [walk written] in Hwalk |- *. unfold writes.
  fold (target components destination hdr) in Hwalk |- *.
  destruct (Z.leb_spec (Z.of_nat (length (Split (Name hdr) "/"))) components)
    as [Hstripped|Hkept].
  { destruct (Z.ltb_spec components (Z.of_nat (length (Split (Name hdr) "/"))));
      [lia |].
    specialize (IH fs Hwalk).
    by destruct (written components destination p rest). }
  destruct (Z.ltb_spec components (Z.of_nat (length (Split (Name hdr) "/"))));
    [|lia].
  destruct (components <? 0)%Z; [done |]. cbn [andb].
  destruct (Ascii.eqb_spec (Typeflag hdr) TypeDir) as [Hdir|_].
  { rewrite Hdir. cbn [Ascii.eqb andb].
    change (Ascii.eqb TypeDir TypeReg) with false. cbn [andb].
    pose proof (MkdirAll_keeps fs (target components destination hdr) ModePerm p)
      as Hkeeps.
    destruct (MkdirAll fs _ ModePerm) as [fs1 [err|]]; [done |].
    specialize (IH fs1 Hwalk).
    destruct (written components destination p rest); [done |].
    intros m c Hp. by apply IH, Hkeeps. }
  destruct (Ascii.eqb_spec (Typeflag hdr) TypeReg) as [Hreg|Hnoreg].
  { cbn [andb].
    destruct (OpenFile fs _ _) as [fs1 [err|]] eqn:Hopen; [done |].
    apply OpenFile_Ok in Hopen as [m0 ->].
    destruct readErr; [done |].
    unfold Write in Hwalk |- *. rewrite lookup_insert_eq in Hwalk |- *.
    rewrite insert_insert_eq in Hwalk |- *. simpl app in Hwalk |- *.
    specialize (IH _ Hwalk).
    destruct (written components destination p rest); [done |].
    destruct (bool_decide_reflect (target components destination hdr = p))
      as [<-|Hother].
    - exists m0. apply IH. by rewrite lookup_insert_eq.
    - intros m c Hp. apply IH. by rewrite lookup_insert_ne. }
  cbn [andb].
  destruct (Ascii.eqb (Typeflag hdr) TypeSymlink).
  - destruct (Symlink fs _ _) as [fs1 [err|]] eqn:Hsym; [done |].
    apply Symlink_Ok in Hsym as [-> Hnew]. apply exists_None in Hnew.
    specialize (IH _ Hwalk).
    destruct (written components destination p rest); [done |].
    intros m c Hp. apply IH. rewrite lookup_insert_ne; [done | congruence].
  - specialize (IH fs Hwalk).
    by destruct (written components destination p rest).
Qed.

(** X13.  The same for a zip archive, with no file for a link: a path for
    which the archive has a file that is no directory holds a file with
    the content of the last such file; a file at any other path is as it
    was. *)
Theorem DecompressZip_writes_contents (files : list File)
    (destination : string) (fs : filesystem) (p : path) :
  rooted fs -> linkFree fs ->
  (forall f, f ∈ files ->
     IsDir (FileMode f) = true \/ Z.land (FileMode f) ModeSymlink = 0%Z) ->
  (DecompressZip (NewZipArchive (Files files)) destination fs).2 = None ->
  linkFree (DecompressZip (NewZipArchive (Files files)) destination fs).1 /\
  match unzipped destination p files with
  | Some content =>
      exists m,
        (DecompressZip (NewZipArchive (Files files)) destination fs).1 !! p
        = Some (Regular m content)
  | None =>
      forall m c, fs !! p = Some (Regular m c) ->
        (DecompressZip (NewZipArchive (Files files)) destination fs).1 !! p
        = Some (Regular m c)
  end.
Proof.
  intros _ Hfree Hnone Hdone. split; [by apply unzip_linkFree |].
  clear Hfree Hnone. revert Hdone. unfold DecompressZip. simpl. revert fs.
  induction files as [|f rest IH]; intros fs Hunzip; [simpl in *; done |].
  cbn [unzip unzipped] in Hunzip |- *. unfold unzips.
  set (path := Join [destination; FileName f]) in *.
  destruct (IsDir (FileMode f)).
  { cbn [negb andb].
    pose proof (MkdirAll_keeps fs path ModePerm p) as Hkeeps.
    destruct (MkdirAll fs path ModePerm) as [fs1 [err|]]; [done |].
    specialize (IH fs1 Hunzip).
    destruct (unzipped destination p rest); [done |].
    intros m c Hp. by apply IH, Hkeeps. }
  cbn [negb andb].
  destruct (Z.land (FileMode f) ModeSymlink =? 0)%Z.
  - cbn [negb andb] in Hunzip |- *.
    pose proof (MkdirAll_keeps fs (Dir path) ModePerm p) as Hkeeps.
    destruct (MkdirAll fs (Dir path) ModePerm) as [fs1 [err|]]; [done |].
    destruct (OpenFile fs1 path (FileMode f)) as [fs2 [err|]] eqn:Hopen;
      [done |].
    apply OpenFile_Ok in Hopen as [m0 ->].
    destruct (openErr f); [done |]. destruct (readErr f); [done |].
    unfold Write in Hunzip |- *. rewrite lookup_insert_eq in Hunzip |- *.
    rewrite insert_insert_eq in Hunzip |- *. simpl app in Hunzip |- *.
    specialize (IH _ Hunzip).
    destruct (unzipped destination p rest); [done |].
    destruct (bool_decide_reflect (path = p)) as [<-|Hother].
    + exists m0. apply IH. by rewrite lookup_insert_eq.
    + intros m c Hp. apply IH. rewrite lookup_insert_ne by done.
      by apply Hkeeps.
  - cbn [negb andb] in Hunzip |- *.
    destruct (openErr f); [done |]. destruct (readErr f); [done |].
    destruct (Symlink fs _ path) as [fs1 [err|]] eqn:Hsym; [done |].
    apply Symlink_Ok in Hsym as [-> Hnew]. apply exists_None in Hnew.
    specialize (IH _ Hunzip).
    destruct (unzipped destination p rest); [done |].
    intros m c Hp. apply IH. rewrite lookup_insert_ne; [done | congruence].
Qed.

(** X14.  Entries of other kinds are passed over in silence.  An archive whose
    entries are neither directories, nor regular files, nor symbolic
    links (hard links, devices and pipes are such) leaves the tree as it
    was, and [Decompress] reports no error of its own: it returns the
    error the reader ends with, if any. *)
Theorem Decompress_passes_over_other_types (ta : TarArchive)
    (destination : string) (fs : filesystem) :
  (0 <= components ta)%Z ->
  (forall hdr, hdr ∈ headers (reader ta) ->
     Typeflag hdr <> TypeDir /\ Typeflag hdr <> TypeReg /\
     Typeflag hdr <> TypeSymlink) ->
  Decompress ta destination fs =
  (fs, (fun err => "failed to read tar response: " +:+ err)
         <$> ending (reader ta)).
Proof.
  destruct ta as [tarReader components]. unfold Decompress. simpl.
  intros Hcomponents.
  induction tarReader as [|err|hdr content readErr rest IH]; intros Hother;
    [done.. |].
  cbn [walk ending].
  assert (Hrest : forall hdr', hdr' ∈ headers rest ->
            Typeflag hdr' <> TypeDir /\ Typeflag hdr' <> TypeReg /\
            Typeflag hdr' <> TypeSymlink).
  { intros hdr' Hin. apply Hother. by right. }
  destruct (Z.of_nat _ <=? components)%Z; [by apply IH |].
  destruct (Z.ltb_spec components 0); [lia |].
  destruct (Hother hdr) as [Hdir [Hreg Hlink]]; [by left |].
  destruct (Ascii.eqb_spec (Typeflag hdr) TypeDir); [done |].
  destruct (Ascii.eqb_spec (Typeflag hdr) TypeReg); [done |].
  destruct (Ascii.eqb_spec (Typeflag hdr) TypeSymlink); [done |].
  by apply IH.
Qed.

End extractor_more.

(** *** The extractor on the archive of the tests, again *)

Section extractor_more_examples.
Import filepath os vacation archive fixture.

(** The archive of the tests with a negative count, and with a count of
    three, which none of its names exceeds. *)
Lemma Decompress_components_out_of_range_witness :
  @Decompress process (StripComponents (NewTarArchive testArchive) (-1))
    "/layer" layer
  = (layer, Some "panic: runtime error: slice bounds out of range") /\
  @Decompress process (StripComponents (NewTarArchive testArchive) 3)
    "/layer" layer
  = (layer, None).
Proof.
  split.
  - eapply (proj1 (@Decompress_components_out_of_range process
      (StripComponents (NewTarArchive testArchive) (-1)) "/layer" layer));
      [reflexivity | reflexivity].
  - apply (proj2 (@Decompress_components_out_of_range process
      (StripComponents (NewTarArchive testArchive) 3) "/layer" layer)).
    intros hdr Hin. cbn in Hin.
    repeat (apply elem_of_cons in Hin as [->|Hin]; [by vm_compute |]).
    by apply elem_of_nil in Hin.
Defined.

(** The archive of the tests in gzip form, with one segment stripped. *)
Lemma StripComponents_renames_witness :
  @gzip.Decompress process
    (gzip.StripComponents (gzip.NewTarGzipArchive (Packed testArchive)) 1)
    "/layer" layer =
  @Decompress process (NewTarArchive (stripped 1 testArchive)) "/layer" layer.
Proof.
  apply (proj1 (proj2 (@StripComponents_renames process 1 "/layer" layer))
    (gzip.NewTarGzipArchive (Packed testArchive)) testArchive).
  reflexivity.
Defined.

(** The archive of the tests holds a link: it is extracted once, and not
    a second time over the result. *)
Lemma Decompress_link_in_the_way_witness :
  (@Decompress process (NewTarArchive testArchive) "/layer" layer).2 = None /\
  is_Some
    (@Decompress process (NewTarArchive testArchive) "/layer"
       (@Decompress process (NewTarArchive testArchive) "/layer" layer).1).2.
Proof.
  assert (Honce :
    (@Decompress process (NewTarArchive testArchive) "/layer" layer).2 = None)
    by (vm_compute; reflexivity).
  split; [exact Honce |].
  apply (@Decompress_link_in_the_way process (NewTarArchive testArchive)
    "/layer" layer
    {| Name := "./symlink"; Typeflag := TypeSymlink; Mode := 0x1ed;
       Linkname := "./first" |}).
  - do 5 right. left.
  - reflexivity.
  - reflexivity.
  - exact Honce.
Defined.

Ltac layer_only Hn :=
  unfold layer in Hn; apply lookup_singleton_Some in Hn as [<- Hn].

(** The first file of the archive of the tests, less its link. *)
Lemma Decompress_writes_contents_witness :
  exists m,
    (@Decompress process (NewTarArchive scenario.plainArchive) "/layer"
       layer).1 !! ["layer"; "first"]
    = Some (Regular m (list_byte_of_string "./first")).
Proof.
  destruct (@Decompress_writes_contents process
    (NewTarArchive scenario.plainArchive) "/layer" layer ["layer"; "first"])
    as [_ Hcontent].
  - intros q [n Hn]. layer_only Hn. reflexivity.
  - intros q t Hn. by layer_only Hn.
  - intros hdr Hin. cbn in Hin.
    repeat (apply elem_of_cons in Hin as [->|Hin]; [by vm_compute |]).
    by apply elem_of_nil in Hin.
  - vm_compute. reflexivity.
  - exact Hcontent.
Defined.

(** The file of the zip archive of the tests, below directories that the
    extraction makes. *)
Lemma DecompressZip_writes_contents_witness :
  exists m,
    (@DecompressZip process (NewZipArchive (Files [zippedFile])) "/layer"
       layer).1 !! ["layer"; "a"; "b"; "c"]
    = Some (Regular m A).
Proof.
  destruct (@DecompressZip_writes_contents process [zippedFile] "/layer"
    layer ["layer"; "a"; "b"; "c"]) as [_ Hcontent].
  - intros q [n Hn]. layer_only Hn. reflexivity.
  - intros q t Hn. by layer_only Hn.
  - intros f Hin. apply list_elem_of_singleton in Hin as ->. by right.
  - vm_compute. reflexivity.
  - exact Hcontent.
Defined.

(** An archive of a hard link and a pipe. *)
Lemma Decompress_passes_over_other_types_witness :
  @Decompress process
    (NewTarArchive
       (entry "./hard-link" "1" "./first" (entry "./pipe" "6" "" EOF)))
    "/layer" layer
  = (layer, None).
Proof.
  apply (@Decompress_passes_over_other_types process
    (NewTarArchive
       (entry "./hard-link" "1" "./first" (entry "./pipe" "6" "" EOF)))
    "/layer" layer).
  - done.
  - intros hdr Hin. cbn in Hin.
    repeat (apply elem_of_cons in Hin as [->|Hin]; [by vm_compute |]).
    by apply elem_of_nil in Hin.
Defined.

End extractor_more_examples.

(** ** More on checksums *)

Section checksums_more.
Import filepath os fs census.
Context `{hash : Hash}.

Lemma hexDigit_hex (n : N) : hexDigit n ∈ hexDigits.
Proof.
  unfold hexDigit, hexDigits.
  destruct (N.to_nat n) as [|k]; [simpl; set_solver |].
  do 15 (destruct k as [|k]; [simpl; set_solver |]).
  simpl. set_solver.
Qed.

Lemma EncodeToString_length (src : list byte) :
  String.length (EncodeToString src) = (2 * length src)%nat.
Proof. induction src as [|b src IH]; simpl; [done | lia]. Qed.

Lemma EncodeToString_hex (src : list byte) (c : ascii) :
  c ∈ list_ascii_of_string (EncodeToString src) -> c ∈ hexDigits.
Proof.
  induction src as [|b src IH]; simpl; intros Hc.
  - by apply elem_of_nil in Hc.
  - apply elem_of_cons in Hc as [->|Hc]; [apply hexDigit_hex |].
    apply elem_of_cons in Hc as [->|Hc]; [apply hexDigit_hex | by apply IH].
Qed.

(** What [Sum] returns is the encoding of a digest. *)
Lemma gather_encodes (results : list calculatedFile) (written : list byte)
    (shasum : string) :
  gather results written = Ok shasum ->
  exists data, shasum = EncodeToString (Sum256 data).
Proof.
  revert written. induction results as [|f rest IH]; intros written; simpl.
  - intros [= <-]. by eexists.
  - destruct (fs.err f); [done | apply IH].
Qed.

Lemma Sum_encodes `{sort.Lib} `{Scheduler} (fs : filesystem)
    (p : filepath.path) (shasum : string) :
  Sum fs p = Ok shasum -> exists data, shasum = EncodeToString (Sum256 data).
Proof.
  unfold Sum. destruct (Stat fs p) as [info|?]; [|done].
  destruct (negb (IsDir info)).
  - destruct (ReadFile fs p); [|done]. intros [= <-]. by eexists.
  - destruct (Walk fs p regularFiles []) as [files [?|]]; [done |].
    apply gather_encodes.
Qed.

(** X15.  The checksum is a hex string.  For a hash that gives thirty-two
    bytes, as SHA-256 does, whatever [Sum] and [SumMultiple] return
    without error has sixty-four characters, each a digit or a letter
    from [a] to [f]. *)
Theorem Sum_is_hex `{Process} `{sort.Lib} `{Scheduler} `{Random}
    (fs : filesystem) (shasum : string) :
  (forall data, length (Sum256 data) = 32%nat) ->
  ((exists p, Sum fs p = Ok shasum) \/
   (exists paths, (SumMultiple fs paths).2 = Ok shasum)) ->
  String.length shasum = 64%nat /\
  forall c, c ∈ list_ascii_of_string shasum -> c ∈ hexDigits.
Proof.
  intros Hlength Hsum.
  assert (Hencoded : exists data, shasum = EncodeToString (Sum256 data)).
  { destruct Hsum as [[p Hsum]|[paths Hsum]]; [by eapply Sum_encodes |].
    unfold SumMultiple in Hsum.
    destruct (TempDir fs) as [fs1 [tempDir|?]]; [|done].
    destruct (stage fs1 tempDir paths 0) as [fs2 [?|]]; [done |].
    simpl in Hsum. by eapply Sum_encodes. }
  destruct Hencoded as [data ->]. split.
  - by rewrite EncodeToString_length, Hlength.
  - apply EncodeToString_hex.
Qed.

(** A directory is no regular file, nor is a link. *)
Lemma IsDir_not_regular (m : Z) : IsDir m = true -> IsRegular m = false.
Proof.
  unfold IsDir, IsRegular. intros Hdir.
  destruct (Z.eqb_spec (Z.land m ModeType) 0) as [Hzero|]; [|done].
  assert (Hbit : Z.land m ModeDir = 0%Z).
  { change ModeDir with (Z.land ModeType ModeDir).
    by rewrite Z.land_assoc, Hzero. }
  by rewrite Hbit in Hdir.
Qed.

Lemma IsRegular_modeOf (n : node) :
  IsRegular (modeOf n) = true <-> exists m c, n = Regular m c.
Proof.
  destruct n as [m|m c|t]; simpl.
  - rewrite IsDir_not_regular by apply (IsDir_Directory m).
    split; [done | by intros [? [? ?]]].
  - split; [by eexists _, _ | intros _].
    unfold IsRegular, Perm. rewrite <- Z.land_assoc.
    change (Z.land ModePerm ModeType) with 0%Z. by rewrite Z.land_0_r.
  - split; [done | by intros [? [? ?]]].
Qed.

(** The function [Sum] gives to [filepath.Walk] keeps the paths of the
    regular files, in the order of the visit, and never stops the walk. *)
Lemma walkOver_regularFiles (todo : list (filepath.path * Z))
    (filesFromDir : list filepath.path) :
  walkOver regularFiles todo filesFromDir =
  (filesFromDir ++
     (filter (fun pm : filepath.path * Z => IsRegular pm.2) todo).*1, None).
Proof.
  revert filesFromDir.
  induction todo as [|[p m] todo IH]; intros files; simpl.
  - by rewrite app_nil_r.
  - destruct (IsRegular m) eqn:Hm; simpl.
    + rewrite IH, filter_cons_True by (simpl; by rewrite Hm).
      by rewrite <- app_assoc.
    + rewrite IH, filter_cons_False; [done |]. simpl. rewrite Hm. cbn. tauto.
Qed.

(** What [filepath.Walk] visits from a directory. *)
Lemma visits_elem (fs : filesystem) (p q : filepath.path) (info m : Z) :
  Stat fs p = Ok info ->
  (q, m) ∈ visits fs p <->
  (q = p /\ m = info) \/
  (p `prefix_of` q /\ q <> p /\ exists n, fs !! q = Some n /\ m = modeOf n).
Proof.
  intros Hstat. unfold visits. rewrite Hstat.
  rewrite elem_of_cons, list_elem_of_In, in_map_iff.
  split.
  - intros [[= -> ->]|[[q' n] [[= <- <-] Hin]]]; [by left | right].
    apply list_elem_of_In in Hin. rewrite merge_sort_Permutation in Hin.
    apply elem_of_map_to_list, map_lookup_filter_Some in Hin
      as [Hn [Hprefix Hne]].
    split; [done |]. split; [done |]. by exists n.
  - intros [[-> ->]|[Hprefix [Hne [n [Hn ->]]]]]; [by left | right].
    exists (q, n). split; [done |].
    apply list_elem_of_In. rewrite merge_sort_Permutation.
    by apply elem_of_map_to_list, map_lookup_filter_Some.
Qed.

Lemma visits_NoDup (fs : filesystem) (p : filepath.path) :
  NoDup (visits fs p).*1.
Proof.
  unfold visits. destruct (Stat fs p) as [info|?]; [|constructor].
  set (below := filter _ fs).
  assert (Hsame : forall l : list (filepath.path * node),
    (map (fun kn : filepath.path * node => (kn.1, modeOf kn.2)) l).*1 = l.*1).
  { induction l as [|kn l IH]; [done |].
    cbn [map]. rewrite !fmap_cons. by f_equal. }
  rewrite fmap_cons, Hsame, merge_sort_Permutation. simpl.
  apply NoDup_cons. split; [|apply NoDup_fst_map_to_list].
  intros [[q n] [-> Hin]]%list_elem_of_fmap. simpl in Hin.
  by apply elem_of_map_to_list, map_lookup_filter_Some in Hin
    as [_ [_ Hne]].
Qed.

(** The files [Sum] hashes in a directory: the regular files below it,
    each once. *)
Lemma Walk_regularFiles (fs : filesystem) (p : filepath.path) :
  isDirectory fs p = true ->
  exists filesFromDir,
    Walk fs p regularFiles [] = (filesFromDir, None) /\
    NoDup filesFromDir /\
    forall q, q ∈ filesFromDir <->
      p `prefix_of` q /\ q <> p /\ is_Some (regularFile fs q).
Proof.
  unfold isDirectory, Walk. destruct (Stat fs p) as [info|?] eqn:Hstat; [|done].
  intros Hdir. rewrite walkOver_regularFiles, app_nil_l.
  eexists. split; [reflexivity |]. split.
  - eapply sublist_NoDup; [apply visits_NoDup |].
    apply fmap_sublist, sublist_filter.
  - intros q. rewrite list_elem_of_fmap. split.
    + intros [[q' m] [-> [Hm Hin]%list_elem_of_filter]]. simpl in *.
      apply (visits_elem fs p q' info m Hstat) in Hin
        as [[-> ->]|[Hprefix [Hne [n [Hn ->]]]]].
      { by rewrite (IsDir_not_regular _ Hdir) in Hm. }
      split; [done |]. split; [done |].
      apply Is_true_true, IsRegular_modeOf in Hm as [m [c ->]].
      unfold regularFile. rewrite Hn. by eexists.
    + intros [Hprefix [Hne [mc Hmc]]]. unfold regularFile in Hmc.
      destruct (fs !! q) as [[|m c|]|] eqn:Hq; try done.
      exists (q, modeOf (Regular m c)). split; [done |].
      apply list_elem_of_filter. split.
      * apply Is_true_true, IsRegular_modeOf. by eexists _, _.
      * apply (visits_elem fs p q info _ Hstat). right.
        split; [done |]. split; [done |]. by eexists.
Qed.

(** A file that is below a directory is read as its content. *)
Lemma fileChecksumer_regularFile (fs : filesystem) (q : filepath.path)
    (m : Z) (c : list byte) :
  q <> [] -> regularFile fs q = Some (m, c) ->
  fileChecksumer fs q = {| path := q; checksum := Sum256 c; err := None |}.
Proof.
  unfold regularFile, fileChecksumer, ReadFile, Stat. intros Hq Hregular.
  destruct q as [|s q]; [done |].
  destruct (fs !! (s :: q)) as [[|m' c'|]|]; try done. by simplify_eq.
Qed.

Lemma getParallelChecksums_Permutation (L : sort.Lib) (S : Scheduler)
    `{!sort.Laws L} `{!Fair S}
    (fs : filesystem) (filesFromDir : list filepath.path) :
  getParallelChecksums fs filesFromDir ≡ₚ fileChecksumer fs <$> filesFromDir.
Proof.
  unfold getParallelChecksums.
  by rewrite sort.Slice_Permutation, completion_Permutation.
Qed.

(** Clean paths with the same text are the same path. *)
Lemma text_inj (p q : filepath.path) :
  clean p -> clean q -> text p = text q -> p = q.
Proof.
  assert (Hnonempty : forall s l, clean (s :: l) -> gostd.Join (s :: l) "/" <> "").
  { intros s l [[Hs _] _]%Forall_cons. destruct s as [|c s]; [done |].
    destruct l; [done |]. cbn [gostd.Join]. by rewrite append_cons. }
  assert (Hpieces : forall l, clean l ->
            Forall (fun w => Split w "/" = [w]) l).
  { intros l Hl. eapply Forall_impl; [exact Hl |]. by intros s [_ ?]. }
  intros Hp Hq. unfold text. rewrite !append_cons, !append_nil.
  intros [= Hjoin].
  destruct p as [|s p], q as [|s' q]; [done | | |].
  - symmetry in Hjoin. by apply Hnonempty in Hjoin.
  - by apply Hnonempty in Hjoin.
  - rewrite <- (Split_Join (s :: p) "/"), <- (Split_Join (s' :: q) "/");
      [by rewrite Hjoin | done | by apply Hpieces | done | by apply Hpieces].
Qed.

(** X17.  [Sum] reads regular files, and nothing else.  Two directories in
    which the same paths hold regular files, with the same modes and
    contents, have the same checksum, whatever directories and links each
    of them holds besides. *)
Theorem Sum_reads_regular_files_only (L : sort.Lib) (S : Scheduler)
    `{!sort.Laws L} `{!Fair S}
    (fs1 fs2 : filesystem) (p : filepath.path) :
  isDirectory fs1 p = true -> isDirectory fs2 p = true ->
  (forall q, p `prefix_of` q -> regularFile fs1 q = regularFile fs2 q) ->
  (forall q, p `prefix_of` q -> is_Some (regularFile fs1 q) -> clean q) ->
  Sum fs1 p = Sum fs2 p.
Proof.
  intros Hdir1 Hdir2 Hsame Hclean.
  destruct (Walk_regularFiles fs1 p Hdir1) as [files1 [Hwalk1 [Hnd1 Hin1]]].
  destruct (Walk_regularFiles fs2 p Hdir2) as [files2 [Hwalk2 [Hnd2 Hin2]]].
  assert (Hnodup : NoDup (text <$> files1)).
  { apply NoDup_fmap_2_strong; [|done].
    intros a b [? [_ ?]]%Hin1 [? [_ ?]]%Hin1. apply text_inj; by apply Hclean. }
  assert (Hfiles : files1 ≡ₚ files2).
  { apply NoDup_Permutation; [done | done |]. intros q.
    rewrite Hin1, Hin2. split; intros [Hprefix [Hne Hregular]];
      (split; [done |]); (split; [done |]).
    - by rewrite <- Hsame.
    - by rewrite Hsame. }
  destruct (getParallelChecksums_sorted L S fs1 files1 Hnodup)
    as [sorted1 [Hperm1 [Hsorted1 Hresults1]]].
  assert (Hnodup2 : NoDup (text <$> files2)) by by rewrite <- Hfiles.
  destruct (getParallelChecksums_sorted L S fs2 files2 Hnodup2)
    as [sorted2 [Hperm2 [Hsorted2 Hresults2]]].
  assert (Hsorted : sorted1 = sorted2).
  { apply (StronglySorted_unique_strong
             (fun p q => String.ltb (text p) (text q) = true));
      [| done | done | by rewrite Hperm1, Hperm2, Hfiles].
    intros a b _ _ Hab Hba. by rewrite (ltb_asym _ _ Hab) in Hba. }
  subst sorted2.
  assert (Hresults : fileChecksumer fs1 <$> sorted1
                     = fileChecksumer fs2 <$> sorted1).
  { apply list_fmap_ext. intros i q Hq%list_elem_of_lookup_2.
    rewrite Hperm1 in Hq. apply Hin1 in Hq as [Hprefix [Hne [[m c] Hregular]]].
    assert (q <> []) as Hq.
    { intros ->. apply prefix_nil_inv in Hprefix. congruence. }
    rewrite (fileChecksumer_regularFile fs1 q m c) by done.
    rewrite (fileChecksumer_regularFile fs2 q m c); [done | done |].
    by rewrite <- Hsame. }
  unfold Sum, isDirectory in *.
  destruct (Stat fs1 p) as [info1|?]; [|done].
  destruct (Stat fs2 p) as [info2|?]; [|done].
  rewrite Hdir1, Hdir2, Hwalk1, Hwalk2. simpl.
  by rewrite Hresults1, Hresults2, Hresults.
Qed.

(** A directory with no regular file below it has the checksum of no
    byte. *)
Lemma Sum_without_regular_files (L : sort.Lib) (S : Scheduler)
    `{!sort.Laws L} `{!Fair S} (fs : filesystem) (p : filepath.path) :
  isDirectory fs p = true ->
  (forall r, p `prefix_of` r -> regularFile fs r = None) ->
  Sum fs p = Ok (EncodeToString (Sum256 [])).
Proof.
  intros Hdir Hnone.
  destruct (Walk_regularFiles fs p Hdir) as [files [Hwalk [_ Hin]]].
  assert (files = []) as ->.
  { destruct files as [|r files]; [done |].
    assert (r ∈ r :: files) as [Hprefix [_ [? Hregular]]]%Hin by by left.
    by rewrite Hnone in Hregular. }
  pose proof (getParallelChecksums_Permutation L S fs []) as Hresults.
  apply Permutation_nil_r in Hresults.
  unfold Sum, isDirectory in *.
  destruct (Stat fs p) as [info|?]; [|done].
  by rewrite Hdir, Hwalk, Hresults.
Qed.

(** X18.  The checksum of nothing.  A directory with no regular file below it,
    be it empty or full of directories and links, has the checksum of an
    empty file: the encoding of the digest of no byte. *)
Theorem Sum_of_no_file (L : sort.Lib) (S : Scheduler)
    `{!sort.Laws L} `{!Fair S}
    (fs : filesystem) (p q : filepath.path) (m : Z) :
  isDirectory fs p = true ->
  (forall r, p `prefix_of` r -> regularFile fs r = None) ->
  q <> [] -> fs !! q = Some (Regular m []) ->
  Sum fs p = Ok (EncodeToString (Sum256 [])) /\ Sum fs p = Sum fs q.
Proof.
  intros Hdir Hnone Hq Hempty.
  pose proof (Sum_without_regular_files L S fs p Hdir Hnone) as Hp.
  split; [done |]. rewrite Hp. unfold Sum, ReadFile, Stat.
  destruct q as [|s q]; [done |]. rewrite Hempty.
  by rewrite IsDir_Regular.
Qed.

End checksums_more.

(** The digest of the SHA-256 above has thirty-two bytes. *)
Lemma Sum256_length (data : list byte) : length (sha256.Sum256 data) = 32%nat.
Proof.
  unfold sha256.Sum256.
  set (ws := sha256.words _ _).
  assert (Hblock : forall H m, length H = 8%nat ->
            length (sha256.block H m) = 8%nat).
  { intros H m HH. unfold sha256.block. rewrite length_zip_with.
    destruct (foldl sha256.round _ _) as [[[[[[[a b] c] d] e] f] g] h].
    rewrite HH. reflexivity. }
  assert (Hblocks : forall n ws H, length H = 8%nat ->
            length (sha256.blocks n ws H) = 8%nat).
  { induction n as [|n IH]; intros ws' H HH; [done |].
    destruct ws' as [|w ws']; [done |]. cbn [sha256.blocks].
    apply IH, Hblock, HH. }
  rewrite length_map.
  assert (Hbytes : forall l : list Z,
            length (concat (map (sha256.bigEndian 4) l)) = (4 * length l)%nat).
  { induction l as [|x l IH]; [done |].
    cbn [map concat]. rewrite length_app, IH.
    unfold sha256.bigEndian. rewrite length_map. simpl. lia. }
  rewrite Hbytes, Hblocks; done.
Qed.

(** ** The scratch directory of [SumMultiple] *)

Section scratch.
Import filepath os fs.
Context `{Process} `{hash : Hash} `{L : sort.Lib} `{S : Scheduler} `{Random}.

(** X19.  [SumMultiple] leaves no scratch directory behind.  When the
    directory cannot be made, the tree is left as it was and the error is
    wrapped.  Once it is made, it is removed with all below it on every
    return: when no name can be drawn, when a copy fails, when [Sum]
    fails and when it succeeds. *)
Theorem SumMultiple_leaves_no_scratch (fs : filesystem)
    (paths : list filepath.path) :
  (forall e, (TempDir fs).2 = Err e ->
     SumMultiple fs paths =
     (fs, Err ("failed to create temp directory: " +:+ e))) /\
  (forall tempDir, (TempDir fs).2 = Ok tempDir ->
     forall q, tempDir `prefix_of` q -> (SumMultiple fs paths).1 !! q = None).
Proof.
  unfold SumMultiple, TempDir. split.
  - intros e.
    destruct (Mkdir fs ["tmp"; tempName] 448) as [fs1 [e'|]] eqn:Hmk; [|done].
    apply Mkdir_Err in Hmk as ->. by intros [= ->].
  - intros tempDir.
    destruct (Mkdir fs ["tmp"; tempName] 448) as [fs1 [e'|]]; [done |].
    intros [= <-] q Hq.
    destruct (stage fs1 ["tmp"; tempName] paths 0) as [fs2 [?|]]; simpl;
      apply map_lookup_filter_None; right; intros n _ Hnot; by apply Hnot.
Qed.

(** In a tree where every node is in a directory, there is nothing below
    a path at which there is nothing. *)
Lemma rooted_nothing_below (fs : filesystem) (p r : filepath.path) :
  rooted fs -> p <> [] -> fs !! p = None -> p `prefix_of` r ->
  fs !! r = None.
Proof.
  intros Hrooted Hp Hnothing [k ->].
  destruct (fs !! (p ++ k)) as [n|] eqn:Hr; [|done]. exfalso.
  destruct (decide (k = [])) as [->|Hk].
  { rewrite app_nil_r in Hr. congruence. }
  assert (Hdir : isDirectory fs (Dir (p ++ k)) = true)
    by (apply Hrooted; by eexists).
  unfold Dir in Hdir. rewrite removelast_app in Hdir by done.
  apply (rooted_prefix _ _ Hrooted) with (q := p) in Hdir;
    [|by eexists].
  apply isDirectory_lookup in Hdir as [m Hm]; [congruence | done].
Qed.

(** X20.  [SumMultiple] of no path.  In a tree where every node is in a
    directory, with a directory [/tmp] in which the name drawn for the
    scratch directory is free, [SumMultiple] of no path returns the
    checksum of nothing, the encoding of the digest of no byte, and
    leaves the tree exactly as it was. *)
Theorem SumMultiple_of_no_path `{!sort.Laws L} `{!Fair S}
    (fs : filesystem) :
  rooted fs ->
  isDirectory fs ["tmp"] = true ->
  fs !! ["tmp"; tempName] = None ->
  SumMultiple fs [] = (fs, Ok (EncodeToString (Sum256 []))).
Proof.
  intros Hrooted Htmp Hfree.
  set (tempDir := ["tmp"; tempName]) in *.
  assert (Hbelow : forall r, tempDir `prefix_of` r -> fs !! r = None)
    by (intros r; by apply rooted_nothing_below).
  unfold SumMultiple, TempDir, Mkdir. fold tempDir.
  assert (Hnew : exists_ fs tempDir = false).
  { destruct (exists_ fs tempDir) eqn:Hthere; [|done].
    apply exists_lookup in Hthere as [n Hn]; [congruence | done]. }
  rewrite Hnew. change (Dir tempDir) with ["tmp"]. rewrite Htmp.
  cbn [negb stage].
  set (fs1 := <[tempDir := Directory (created 448)]> fs).
  rewrite (Sum_without_regular_files L S fs1 tempDir).
  - unfold RemoveAll. f_equal. apply map_eq. intros r.
    destruct (decide (tempDir `prefix_of` r)) as [Hr|Hr].
    + rewrite (Hbelow r Hr). apply map_lookup_filter_None. right.
      intros n _ Hnot. by apply Hnot.
    + assert (r <> tempDir) as Hne by (intros ->; by apply Hr).
      destruct (fs !! r) as [n|] eqn:Hlookup.
      * apply map_lookup_filter_Some. split; [|done].
        unfold fs1. by rewrite lookup_insert_ne.
      * apply map_lookup_filter_None. left.
        unfold fs1. by rewrite lookup_insert_ne.
  - apply isDirectory_lookup; [done |]. unfold fs1.
    rewrite lookup_insert_eq. by eexists.
  - intros r Hr. unfold census.regularFile, fs1.
    destruct (decide (r = tempDir)) as [->|Hne].
    + by rewrite lookup_insert_eq.
    + rewrite lookup_insert_ne by done. by rewrite (Hbelow r Hr).
Qed.

End scratch.

(** *** Checksums on small trees *)

Section checksums_more_examples.
Import filepath os fs census fixture.

(** The checksum of the file [/in/a] of the tree of the tests. *)
Lemma Sum_is_hex_witness :
  String.length
    "559aead08264d5795d3909718cdd05abd49572e84fe55590eef31a88a08fdffd" = 64%nat
  /\
  forall c,
    c ∈ list_ascii_of_string
          "559aead08264d5795d3909718cdd05abd49572e84fe55590eef31a88a08fdffd" ->
    c ∈ hexDigits.
Proof.
  apply (@Sum_is_hex sha256.digest process sort.insertion inOrder lowThenHigh
    tree); [apply Sum256_length |].
  left. exists ["in"; "a"]. vm_compute. reflexivity.
Defined.

(** A directory and a link beside the two files of the tree of the
    tests change nothing. *)
Lemma Sum_reads_regular_files_only_witness :
  @Sum sha256.digest sort.insertion inOrder tree ["in"] =
  @Sum sha256.digest sort.insertion inOrder scenario.decorated ["in"].
Proof.
  apply (@Sum_reads_regular_files_only sha256.digest sort.insertion inOrder
    insertion_Laws inOrder_Fair).
  - reflexivity.
  - reflexivity.
  - intros q _. unfold regularFile, scenario.decorated.
    destruct (decide (q = ["in"; "link"])) as [->|Hlink]; [reflexivity |].
    destruct (decide (q = ["in"; "sub"])) as [->|Hsub]; [reflexivity |].
    by rewrite !lookup_insert_ne.
  - intros q _ [mc Hq]. unfold regularFile in Hq.
    destruct (tree !! q) as [n|] eqn:Hr; [|done].
    apply elem_of_list_to_map_2 in Hr.
    repeat (apply elem_of_cons in Hr as [Heq|Hr];
            [simplify_eq/=; by repeat constructor |]).
    by apply elem_of_nil in Hr.
Defined.

(** A directory that holds a directory and a link, and an empty file:
    both have the SHA-256 digest of no byte. *)
Lemma Sum_of_no_file_witness :
  @Sum sha256.digest sort.insertion inOrder scenario.bare ["hollow"]
  = Ok "e3b0c44298fc1c149afbf4c8996fb92427ae41e4649b934ca495991b7852b855" /\
  @Sum sha256.digest sort.insertion inOrder scenario.bare ["hollow"] =
  @Sum sha256.digest sort.insertion inOrder scenario.bare ["blank"].
Proof.
  destruct (@Sum_of_no_file sha256.digest sort.insertion inOrder
    insertion_Laws inOrder_Fair scenario.bare ["hollow"] ["blank"] 0x1a4)
    as [Hnothing Hsame].
  - reflexivity.
  - intros r [k ->]. unfold regularFile.
    destruct (scenario.bare !! (["hollow"] ++ k)) as [n|] eqn:Hr; [|done].
    apply elem_of_list_to_map_2 in Hr.
    repeat (apply elem_of_cons in Hr as [Heq|Hr]; [by simplify_eq/= |]).
    by apply elem_of_nil in Hr.
  - done.
  - reflexivity.
  - split; [|exact Hsame]. rewrite Hnothing. vm_compute. reflexivity.
Defined.

(** The scratch directory of the runs of the tests is gone. *)
Lemma SumMultiple_leaves_no_scratch_witness :
  (@fs.SumMultiple process sha256.digest sort.insertion inOrder lowThenHigh
     tree [["in"; "a"]; ["in"; "b"]]).1 !! ["tmp"; "checksum123456789"]
  = None /\
  (@fs.SumMultiple process sha256.digest sort.insertion inOrder lowThenHigh
     tree [["in"; "a"]; ["in"; "b"]]).1
    !! ["tmp"; "checksum123456789"; "00000000000000000000000000000000"]
  = None.
Proof.
  destruct (@SumMultiple_leaves_no_scratch process sha256.digest
    sort.insertion inOrder lowThenHigh tree [["in"; "a"]; ["in"; "b"]])
    as [_ Hgone].
  split.
  - apply (Hgone ["tmp"; "checksum123456789"]); [reflexivity |].
    by exists [].
  - apply (Hgone ["tmp"; "checksum123456789"]); [reflexivity |].
    by exists ["00000000000000000000000000000000"].
Defined.

(** No path, on the tree of the tests. *)
Lemma SumMultiple_of_no_path_witness :
  @fs.SumMultiple process sha256.digest sort.insertion inOrder lowThenHigh
    tree []
  = (tree,
     Ok "e3b0c44298fc1c149afbf4c8996fb92427ae41e4649b934ca495991b7852b855").
Proof.
  rewrite (@SumMultiple_of_no_path process sha256.digest sort.insertion
    inOrder lowThenHigh insertion_Laws inOrder_Fair tree).
  - vm_compute. reflexivity.
  - intros q [n Hq]. apply elem_of_list_to_map_2 in Hq.
    repeat (apply elem_of_cons in Hq as [Heq|Hq];
            [simplify_eq/=; reflexivity |]).
    by apply elem_of_nil in Hq.
  - reflexivity.
  - reflexivity.
Defined.

End checksums_more_examples.

(** ** The worker pool *)

Section pool_runs.
Import filepath os fs pool.
Context `{hash : Hash}.
Variable tree : filesystem.

Lemma held_take (ws : list (option filepath.path)) (i : nat)
    (p : filepath.path) :
  ws !! i = Some None -> held (<[i := Some p]> ws) ≡ₚ p :: held ws.
Proof.
  revert i. induction ws as [|w ws IH]; intros [|i] Hi; try done.
  - by simplify_eq/=.
  - cbn in Hi |- *. specialize (IH i Hi). unfold held in IH.
    destruct w as [q|]; cbn; [|done].
    rewrite IH. apply Permutation_swap.
Qed.

Lemma held_send (ws : list (option filepath.path)) (i : nat)
    (p : filepath.path) :
  ws !! i = Some (Some p) -> p :: held (<[i := None]> ws) ≡ₚ held ws.
Proof.
  revert i. induction ws as [|w ws IH]; intros [|i] Hi; try done.
  - by simplify_eq/=.
  - cbn in Hi |- *. specialize (IH i Hi). unfold held in IH.
    destruct w as [q|]; cbn; [|done].
    rewrite <- IH. apply Permutation_swap.
Qed.

Lemma held_replicate (n : nat) : held (replicate n None) = [].
Proof. induction n as [|n IH]; [done |]. cbn. apply IH. Qed.

Lemma held_some (ws : list (option filepath.path)) :
  held ws <> [] -> exists i p, ws !! i = Some (Some p).
Proof.
  induction ws as [|[q|] ws IH]; [done | |].
  - intros _. by exists 0, q.
  - cbn. intros [i [p Hi]]%IH. by exists (S i), p.
Qed.

Lemma held_none (ws : list (option filepath.path)) (i : nat) :
  held ws = [] -> i < length ws -> ws !! i = Some None.
Proof.
  revert i. induction ws as [|[q|] ws IH]; intros i Hheld Hi;
    [simpl in Hi; lia | done |].
  destruct i as [|i]; [done |]. cbn. apply IH; [done |]. simpl in Hi. lia.
Qed.

(** A step neither loses a result nor makes one twice. *)
Lemma step_results (numFiles : nat) (s s' : state) :
  step tree numFiles s s' -> results tree s' ≡ₚ results tree s.
Proof.
  intros [s0 f rest Hunsent _|s0 i p rest Hidle Hfiles
          |s0 i p Hbusy _|s0 r rest _ _ Hsent];
    unfold results; cbn.
  - by rewrite Hunsent, <- (app_assoc (files s0)).
  - rewrite Hfiles, (held_take _ _ p Hidle). cbn.
    by rewrite <- (Permutation_middle (held (workers s0)) _ p).
  - rewrite <- (held_send _ _ p Hbusy). cbn.
    rewrite <- !app_assoc. cbn. by unfold held.
  - by rewrite Hsent, <- app_assoc.
Qed.

(** Every step is a step forward. *)
Lemma step_weight (numFiles : nat) (s s' : state) :
  step tree numFiles s s' -> weight s' < weight s.
Proof.
  intros [s0 f rest Hunsent _|s0 i p rest Hidle Hfiles
          |s0 i p Hbusy _|s0 r rest _ _ Hsent];
    unfold weight;
    cbn [unsent files workers calculatedFiles checksumResults].
  - rewrite Hunsent, length_app. simpl. lia.
  - rewrite Hfiles, (held_take _ _ p Hidle). simpl. lia.
  - rewrite <- (held_send _ _ p Hbusy), length_app. simpl. lia.
  - rewrite Hsent. simpl. lia.
Qed.

Lemma step_workers (numFiles : nat) (s s' : state) :
  step tree numFiles s s' -> length (workers s') = length (workers s).
Proof.
  intros [s0 f rest _ _|s0 i p rest _ _|s0 i p _ _|s0 r rest _ _ _]; cbn;
    by rewrite ?length_insert.
Qed.

(** What holds in every state the pool reaches. *)
Lemma run_results (numCPU : nat) (filesFromDir : list filepath.path)
    (s : state) :
  rtc (step tree (length filesFromDir)) (start numCPU filesFromDir) s ->
  results tree s ≡ₚ fileChecksumer tree <$> filesFromDir /\
  length (workers s) = numCPU.
Proof.
  revert s. apply rtc_ind_r; [|intros s z _ Hstep [Hresults Hworkers]].
  - unfold results, start.
    cbn [unsent files workers calculatedFiles checksumResults].
    by rewrite held_replicate, length_replicate.
  - split.
    + by rewrite (step_results _ _ _ Hstep).
    + by rewrite (step_workers _ _ _ Hstep).
Qed.

(** Sorted by path, the results of the files are one slice, however
    they were collected. *)
Lemma sorted_results (L1 L2 : sort.Lib) `{!sort.Laws L1} `{!sort.Laws L2}
    (filesFromDir : list filepath.path) (l1 l2 : list calculatedFile) :
  NoDup (text <$> filesFromDir) ->
  l1 ≡ₚ fileChecksumer tree <$> filesFromDir ->
  l2 ≡ₚ fileChecksumer tree <$> filesFromDir ->
  sort.Slice (Lib := L1) l1 byPath = sort.Slice (Lib := L2) l2 byPath.
Proof.
  intros Hnodup Hl1 Hl2.
  apply (StronglySorted_unique_strong (sort.notAfter byPath)).
  - intros a b Ha Hb Hab Hba.
    rewrite sort.Slice_Permutation, Hl1 in Ha.
    rewrite sort.Slice_Permutation, Hl2 in Hb.
    apply list_elem_of_fmap in Ha as [p [-> Hp]].
    apply list_elem_of_fmap in Hb as [q [-> Hq]].
    unfold sort.notAfter, byPath in Hab, Hba.
    rewrite !fileChecksumer_path in Hab, Hba.
    by rewrite (NoDup_fmap_elem text filesFromDir p q Hnodup Hp Hq
                  (ltb_trichotomy _ _ Hba Hab)).
  - apply sort.Slice_Sorted, byPath_StrictWeakOn.
  - apply sort.Slice_Sorted, byPath_StrictWeakOn.
  - by rewrite !sort.Slice_Permutation, Hl1, Hl2.
Qed.

(** X16.  The pool delivers the result of every file, once.  In every state
    that the caller, the goroutines and the channels reach from the
    start, with one goroutine at least: some party can take a step as
    long as the caller has not collected as many results as there are
    files, so that nothing blocks for ever; every step does some of the
    work that is left, so that the caller does collect them; and what it
    has collected then is the results of the files, each once, in the
    order in which the goroutines sent them.  Sorted by path they are
    the slice that the function returns for any order of arrival, when
    no two files have the same path. *)
Theorem pool_delivers_each_once (numCPU : nat)
    (filesFromDir : list filepath.path) (s : state) :
  0 < numCPU ->
  rtc (step tree (length filesFromDir)) (start numCPU filesFromDir) s ->
  (~ collected (length filesFromDir) s ->
   exists s', step tree (length filesFromDir) s s') /\
  (forall s', step tree (length filesFromDir) s s' -> weight s' < weight s) /\
  (collected (length filesFromDir) s ->
   checksumResults s ≡ₚ fileChecksumer tree <$> filesFromDir /\
   forall (L : sort.Lib) (S : Scheduler),
     sort.Laws L -> Fair S -> NoDup (text <$> filesFromDir) ->
     sort.Slice (checksumResults s) byPath =
     @getParallelChecksums hash L S tree filesFromDir).
Proof.
  intros Hcpu Hrun.
  destruct (run_results _ _ _ Hrun) as [Hresults Hworkers].
  assert (Hcount : length (results tree s) = length filesFromDir)
    by by rewrite Hresults, length_fmap.
  unfold results in Hcount. rewrite !length_app, length_fmap in Hcount.
  rewrite !length_app in Hcount.
  split; [|split].
  - intros Hgoing. unfold collected in Hgoing.
    destruct (unsent s) as [|f rest] eqn:Hunsent.
    + destruct (calculatedFiles s) as [|r sent] eqn:Hsent.
      * destruct (held (workers s)) as [|p busy] eqn:Hheld.
        -- destruct (files s) as [|p queue] eqn:Hfiles.
           { simpl in Hcount. destruct Hgoing. split; [done | lia]. }
           eexists. apply (Take _ _ s 0 p queue); [|done].
           apply held_none; [done | lia].
        -- destruct (held_some (workers s)) as [i [q Hq]];
             [by rewrite Hheld |].
           eexists. apply (Send _ _ s i q Hq).
           rewrite Hsent. simpl in *. lia.
      * eexists. apply (Pull _ _ s r sent); [done | | done].
        simpl in Hcount. lia.
    + eexists. apply (Put _ _ s f rest); [done |]. simpl in Hcount. lia.
  - intros s'. apply step_weight.
  - intros [Hunsent Hall].
    assert (Hdone : results tree s = checksumResults s).
    { unfold results. rewrite Hunsent in Hcount |- *. simpl in Hcount.
      destruct (calculatedFiles s); [|simpl in Hcount; lia].
      destruct (held (workers s)); [|simpl in Hcount; lia].
      destruct (files s); [|simpl in Hcount; lia].
      by rewrite !app_nil_r. }
    rewrite Hdone in Hresults. split; [done |].
    intros L S HL HS Hnodup. unfold getParallelChecksums.
    apply (sorted_results L L filesFromDir); [done | done |].
    apply completion_Permutation.
Qed.

End pool_runs.

(** *** The pool on two files *)

Section pool_examples.
Import filepath os fs pool fixture.

(** Two goroutines and two files: the second file is answered first. *)
Lemma pool_delivers_each_once_witness :
  exists s,
    rtc (@step sha256.digest tree 2)
      (start 2 [["in"; "a"]; ["in"; "b"]]) s /\
    checksumResults s =
      [ @fileChecksumer sha256.digest tree ["in"; "b"];
        @fileChecksumer sha256.digest tree ["in"; "a"] ] /\
    checksumResults s ≡ₚ
      @fileChecksumer sha256.digest tree <$> [["in"; "a"]; ["in"; "b"]].
Proof.
  set (a := ["in"; "a"]). set (b := ["in"; "b"]).
  set (ra := @fileChecksumer sha256.digest tree a).
  set (rb := @fileChecksumer sha256.digest tree b).
  set (s := {| unsent := []; files := []; workers := [None; None];
               calculatedFiles := []; checksumResults := [rb; ra] |}).
  assert (Hrun : rtc (@step sha256.digest tree 2) (start 2 [a; b]) s).
  { eapply rtc_l; [apply (Put _ _ _ a [b]); [reflexivity | simpl; lia] |].
    eapply rtc_l; [apply (Put _ _ _ b []); [reflexivity | simpl; lia] |].
    eapply rtc_l; [apply (Take _ _ _ 0 a [b]); reflexivity |].
    eapply rtc_l; [apply (Take _ _ _ 1 b []); reflexivity |].
    eapply rtc_l; [apply (Send _ _ _ 1 b); [reflexivity | simpl; lia] |].
    eapply rtc_l; [apply (Send _ _ _ 0 a); [reflexivity | simpl; lia] |].
    eapply rtc_l;
      [apply (Pull _ _ _ rb [ra]); [reflexivity | simpl; lia | reflexivity] |].
    eapply rtc_l;
      [apply (Pull _ _ _ ra []); [reflexivity | simpl; lia | reflexivity] |].
    apply rtc_refl. }
  exists s. split; [exact Hrun |]. split; [reflexivity |].
  apply (@pool_delivers_each_once sha256.digest tree 2 [a; b] s);
    [lia | exact Hrun | by split].
Defined.

End pool_examples.
